(** * Verification of the abuse-reporter pipeline

    A shallow embedding of [src/ip-extractor.js], [src/abuse-lookup.js],
    [src/email-generator.js] and the pipeline of [src/index.js], and the
    properties of the lookup-and-aggregation pipeline proved over it.

    JavaScript strings are modelled as [string] (one [ascii] per code unit);
    the regular expressions of the source are kept as syntax trees and run by
    a backtracking matcher that follows the ECMAScript pattern semantics;
    [Map] objects are insertion-ordered association lists; the asynchronous
    lookup code is written in a state-and-exception monad over the module
    state ([whoisCache], [lastWhoisQuery]), a clock and an event trace. *)

From Stdlib Require Import String Ascii List ZArith Lia Bool Arith Permutation.
From Stdlib Require Import Numbers.DecimalString.
Import ListNotations.

Set Implicit Arguments.

(* ===================================================================== *)
(** ** Characters and strings *)
(* ===================================================================== *)

Module Chars.

Definition code (c : ascii) : nat := nat_of_ascii c.

Definition in_range (lo hi : ascii) (c : ascii) : bool :=
  (code lo <=? code c) && (code c <=? code hi).

Definition is_char (a : ascii) (c : ascii) : bool := Ascii.eqb a c.

Definition is_digit : ascii -> bool := in_range "0" "9".
Definition is_upper : ascii -> bool := in_range "A" "Z".
Definition is_lower : ascii -> bool := in_range "a" "z".

(** [\w]: ASCII letters, digits and underscore. *)
Definition is_word (c : ascii) : bool :=
  is_lower c || is_upper c || is_digit c || is_char "_" c.

(** Line terminators representable in one byte: LF and CR. *)
Definition is_line_terminator (c : ascii) : bool :=
  (code c =? 10) || (code c =? 13).

(** [.] without the [s] flag. *)
Definition is_dot (c : ascii) : bool := negb (is_line_terminator c).

(** [\s]: TAB, LF, VT, FF, CR, space, NBSP. *)
Definition is_space (c : ascii) : bool :=
  let n := code c in
  ((9 <=? n) && (n <=? 13)) || (n =? 32) || (n =? 160).

Definition to_lower (c : ascii) : ascii :=
  if is_upper c then ascii_of_nat (code c + 32) else c.

Definition to_upper (c : ascii) : ascii :=
  if is_lower c then ascii_of_nat (code c - 32) else c.

(** A character set under the [i] flag: [c] is accepted when some member of
    the set canonicalises to the same character as [c]. *)
Definition ci (p : ascii -> bool) (c : ascii) : bool :=
  p c || p (to_lower c) || p (to_upper c).

Definition any_of (ps : list (ascii -> bool)) (c : ascii) : bool :=
  existsb (fun p => p c) ps.

Definition one_of (cs : string) (c : ascii) : bool :=
  existsb (fun a => Ascii.eqb a c) (list_ascii_of_string cs).

Definition toLowerCase (s : string) : string :=
  string_of_list_ascii (map to_lower (list_ascii_of_string s)).

Definition toUpperCase (s : string) : string :=
  string_of_list_ascii (map to_upper (list_ascii_of_string s)).

Fixpoint drop_while (p : ascii -> bool) (l : list ascii) : list ascii :=
  match l with
  | [] => []
  | c :: l' => if p c then drop_while p l' else l
  end.

(** [String.prototype.trim]. *)
Definition trim (s : string) : string :=
  let l := drop_while is_space (list_ascii_of_string s) in
  string_of_list_ascii (rev (drop_while is_space (rev l))).

(** [String.prototype.repeat]. *)
Fixpoint repeat_string (s : string) (n : nat) : string :=
  match n with
  | 0 => EmptyString
  | S n' => (s ++ repeat_string s n')%string
  end.

(** [Array.prototype.join]. *)
Fixpoint join (sep : string) (l : list string) : string :=
  match l with
  | [] => EmptyString
  | [x] => x
  | x :: l' => (x ++ sep ++ join sep l')%string
  end.

(** [String.prototype.split] on a one-character separator. *)
Fixpoint split_on (sep : ascii) (acc : list ascii) (l : list ascii)
  : list (list ascii) :=
  match l with
  | [] => [rev acc]
  | c :: l' =>
      if Ascii.eqb c sep then rev acc :: split_on sep [] l'
      else split_on sep (c :: acc) l'
  end.

Definition split (sep : ascii) (s : string) : list string :=
  map string_of_list_ascii (split_on sep [] (list_ascii_of_string s)).

(** Decimal rendering of a number in a template literal. *)
Definition string_of_nat (n : nat) : string :=
  NilZero.string_of_uint (Nat.to_uint n).

Definition string_of_Z (z : Z) : string :=
  NilZero.string_of_int (Z.to_int z).

End Chars.

(* ===================================================================== *)
(** ** Regular expressions: syntax and the backtracking matcher *)
(* ===================================================================== *)

Module Regex.
Import Chars.

(** Pattern syntax. Every pattern of the source has at most one capturing
    group, so [Grp] always denotes group 1. *)
Inductive regex : Type :=
| Eps : regex
| Chr (p : ascii -> bool) : regex
| Seq (r1 r2 : regex) : regex
| Alt (r1 r2 : regex) : regex
| Rep (greedy : bool) (lo : nat) (hi : option nat) (r : regex) : regex
| Grp (r : regex) : regex
| WordB : regex
| Bol : regex
| Eol : regex.

(** The matcher state: the end index and the span of capture 1. *)
Record mstate : Type := MState { pos : nat; cap : option (nat * nat) }.

Definition cont : Type := mstate -> option mstate.

Definition advance (x : mstate) : mstate :=
  {| pos := S (pos x); cap := cap x |}.

Definition capture (x y : mstate) : mstate :=
  {| pos := pos y; cap := Some (pos x, pos y) |}.

Definition start_at (i : nat) : mstate := {| pos := i; cap := None |}.

(** RepeatMatcher: [hi] counts the iterations still allowed; once the
    minimum is reached an iteration that consumes nothing is rejected. *)
Fixpoint rep (body : mstate -> cont -> option mstate) (greedy : bool)
    (hi lo : nat) (x : mstate) (c : cont) {struct hi} : option mstate :=
  match hi with
  | 0 => c x
  | S hi' =>
      let d : cont := fun y =>
        if (lo =? 0) && (pos y =? pos x) then None
        else rep body greedy hi' (Nat.pred lo) y c in
      if negb (lo =? 0) then body x d
      else if greedy then
        match body x d with Some z => Some z | None => c x end
      else
        match c x with Some z => Some z | None => body x d end
  end.

Section Matcher.
Variable s : list ascii.

Definition word_at (i : nat) : bool :=
  match nth_error s i with Some c => is_word c | None => false end.

Definition word_before (i : nat) : bool :=
  match i with 0 => false | S j => word_at j end.

Definition at_boundary (i : nat) : bool :=
  xorb (word_before i) (word_at i).

(** An unbounded quantifier can run at most [lo] iterations plus one per
    remaining character. *)
Definition rep_bound (lo : nat) (hi : option nat) (x : mstate) : nat :=
  match hi with
  | Some h => h
  | None => lo + (length s - pos x)
  end.

Fixpoint run (r : regex) (x : mstate) (c : cont) {struct r}
  : option mstate :=
  match r with
  | Eps => c x
  | Chr p =>
      match nth_error s (pos x) with
      | Some ch => if p ch then c (advance x) else None
      | None => None
      end
  | Seq r1 r2 => run r1 x (fun y => run r2 y c)
  | Alt r1 r2 =>
      match run r1 x c with Some z => Some z | None => run r2 x c end
  | Rep greedy lo hi r' =>
      rep (run r') greedy (rep_bound lo hi x) lo x c
  | Grp r' => run r' x (fun y => c (capture x y))
  | WordB => if at_boundary (pos x) then c x else None
  | Bol => if pos x =? 0 then c x else None
  | Eol => if pos x =? length s then c x else None
  end.

(** RegExpBuiltinExec without the sticky flag: the first index from
    [start] on at which the pattern matches. *)
Fixpoint search (r : regex) (fuel i : nat) : option (nat * mstate) :=
  match fuel with
  | 0 => None
  | S fuel' =>
      match run r {| pos := i; cap := None |} Some with
      | Some y => Some (i, y)
      | None => search r fuel' (S i)
      end
  end.

Definition exec_from (r : regex) (start : nat) : option (nat * mstate) :=
  if length s <? start then None
  else search r (S (length s - start)) start.

Definition slice (i j : nat) : list ascii := firstn (j - i) (skipn i s).

(** The loop of [String.prototype.match] for a pattern with the [g]
    flag: collect the matched substrings, restarting at the end of each
    match (one further when the match is empty). *)
Fixpoint match_loop (r : regex) (fuel start : nat) : list (list ascii) :=
  match fuel with
  | 0 => []
  | S fuel' =>
      match exec_from r start with
      | None => []
      | Some (i, y) =>
          let e := pos y in
          slice i e :: match_loop r fuel' (if e =? i then S e else e)
      end
  end.

End Matcher.

(** *** What a pattern may match

    The matcher explores, in priority order, the ways of reading a pattern
    on the subject; [lang s r x y] says that [r] can be read from state [x]
    to state [y], priorities set aside. *)

Fixpoint iter (n : nat) (R : mstate -> mstate -> Prop) (x y : mstate)
  : Prop :=
  match n with
  | 0 => y = x
  | S n' => exists z, R x z /\ iter n' R z y
  end.

Fixpoint lang (s : list ascii) (r : regex) (x y : mstate) : Prop :=
  match r with
  | Eps => y = x
  | Chr p =>
      exists ch, nth_error s (pos x) = Some ch /\ p ch = true
                 /\ y = advance x
  | Seq r1 r2 => exists z, lang s r1 x z /\ lang s r2 z y
  | Alt r1 r2 => lang s r1 x y \/ lang s r2 x y
  | Rep _ lo hi r' =>
      exists n, lo <= n
                /\ match hi with Some h => n <= h | None => True end
                /\ iter n (lang s r') x y
  | Grp r' => exists z, lang s r' x z /\ y = capture x z
  | WordB => at_boundary s (pos x) = true /\ y = x
  | Bol => pos x = 0 /\ y = x
  | Eol => pos x = length s /\ y = x
  end.

(** Quantifier bounds are in order, as the pattern syntax demands. *)
Fixpoint well_formed (r : regex) : bool :=
  match r with
  | Seq r1 r2 | Alt r1 r2 => well_formed r1 && well_formed r2
  | Rep _ lo hi r' =>
      match hi with Some h => lo <=? h | None => true end && well_formed r'
  | Grp r' => well_formed r'
  | _ => true
  end.

(** Every character a pattern consumes belongs to the set [P]. *)
Definition all_ascii : list ascii := map ascii_of_nat (seq 0 256).

Definition subset (p P : ascii -> bool) : bool :=
  forallb (fun c => implb (p c) (P c)) all_ascii.

Fixpoint within (P : ascii -> bool) (r : regex) : bool :=
  match r with
  | Chr p => subset p P
  | Seq r1 r2 | Alt r1 r2 => within P r1 && within P r2
  | Rep _ _ _ r' | Grp r' => within P r'
  | _ => true
  end.

(** [re.test(str)] for a pattern without the [g] flag. *)
Definition test (r : regex) (str : string) : bool :=
  match exec_from (list_ascii_of_string str) r 0 with
  | Some _ => true
  | None => false
  end.

(** [str.match(re) || []] for a pattern with the [g] flag. *)
Definition match_global (r : regex) (str : string) : list string :=
  let s := list_ascii_of_string str in
  map string_of_list_ascii (match_loop s r (S (S (length s))) 0).

(** [str.match(re)] for a pattern without the [g] flag, reduced to what the
    callers read: [match && match[1]], the text of capture 1 when there is
    a match and the capture is a non-empty string. *)
Definition match_group1 (r : regex) (str : string) : option string :=
  let s := list_ascii_of_string str in
  match exec_from s r 0 with
  | Some (_, y) =>
      match cap y with
      | Some (a, b) =>
          match slice s a b with
          | [] => None
          | l => Some (string_of_list_ascii l)
          end
      | None => None
      end
  | None => None
  end.

(** Pattern-building shorthands that mirror the concrete syntax. *)
Declare Scope regex_scope.
Delimit Scope regex_scope with re.
Bind Scope regex_scope with regex.
Notation "r1 ~> r2" := (Seq r1 r2)
  (at level 61, right associativity) : regex_scope.
Notation "r1 <|> r2" := (Alt r1 r2)
  (at level 62, right associativity) : regex_scope.

Definition lit (a : ascii) : regex := Chr (is_char a).
Definition lit_i (a : ascii) : regex := Chr (ci (is_char a)).
Definition opt (r : regex) : regex := Rep true 0 (Some 1) r.
Definition star (r : regex) : regex := Rep true 0 None r.
Definition star_lazy (r : regex) : regex := Rep false 0 None r.
Definition plus (r : regex) : regex := Rep true 1 None r.
Definition times (n : nat) (r : regex) : regex := Rep true n (Some n) r.
Definition between (lo hi : nat) (r : regex) : regex := Rep true lo (Some hi) r.
Definition at_least (lo : nat) (r : regex) : regex := Rep true lo None r.

(** A run of literal characters. *)
Fixpoint word (mk : ascii -> regex) (l : list ascii) : regex :=
  match l with
  | [] => Eps
  | [a] => mk a
  | a :: l' => Seq (mk a) (word mk l')
  end.
Definition text (w : string) : regex := word lit (list_ascii_of_string w).
Definition text_i (w : string) : regex := word lit_i (list_ascii_of_string w).

End Regex.

(* ===================================================================== *)
(** ** [Map]: an insertion-ordered association list *)
(* ===================================================================== *)

Module JsMap.
Section WithValue.
Variable V : Type.

Definition t : Type := list (string * V).

Definition empty : t := [].

Fixpoint get (m : t) (k : string) : option V :=
  match m with
  | [] => None
  | (k', v) :: m' => if String.eqb k' k then Some v else get m' k
  end.

Definition has (m : t) (k : string) : bool :=
  match get m k with Some _ => true | None => false end.

(** [set] overwrites in place when the key is present and appends a new
    entry otherwise, so iteration follows first insertion. *)
Fixpoint set (m : t) (k : string) (v : V) : t :=
  match m with
  | [] => [(k, v)]
  | (k', v') :: m' =>
      if String.eqb k' k then (k, v) :: m' else (k', v') :: set m' k v
  end.

Definition keys (m : t) : list string := map fst m.
Definition values (m : t) : list V := map snd m.
Definition size (m : t) : nat := length m.
End WithValue.

Arguments empty {V}.

(** [if (!m.has(k)) m.set(k, []); m.get(k).push(x)]: the array stored under
    [k] is extended in place. *)
Definition push (V : Type) (m : t (list V)) (k : string) (x : V)
  : t (list V) :=
  let m1 := if has m k then m else set m k [] in
  match get m1 k with
  | Some l => set m1 k (l ++ [x])
  | None => m1
  end.

(** Filing a list of items, each under its key, into a map of arrays; and
    the items a key receives. *)
Definition file (A V : Type) (key : A -> string) (val : A -> V)
    (m : t (list V)) (items : list A) : t (list V) :=
  fold_left (fun m a => push m (key a) (val a)) items m.

Definition filed_under (A V : Type) (key : A -> string) (val : A -> V)
    (k : string) (items : list A) : list V :=
  map val (filter (fun a => String.eqb (key a) k) items).

End JsMap.

(* ===================================================================== *)
(** ** [src/ip-extractor.js] *)
(* ===================================================================== *)

Module IpExtractor.
Import Chars Regex.
Local Open Scope regex_scope.
Local Open Scope string_scope.

(** [(?:25[0-5]|2[0-4][0-9]|[01]?[0-9][0-9]?)] *)
Definition octet : regex :=
  (lit "2" ~> lit "5" ~> Chr (in_range "0" "5"))
  <|> (lit "2" ~> Chr (in_range "0" "4") ~> Chr is_digit)
  <|> (opt (Chr (one_of "01")) ~> Chr is_digit ~> opt (Chr is_digit)).

Definition IPV4_REGEX : regex :=
  WordB ~> times 3 (octet ~> lit ".") ~> octet ~> WordB.

(** [[0-9a-fA-F]] and [[0-9a-fA-F]{1,4}] *)
Definition is_hex : ascii -> bool :=
  any_of [in_range "0" "9"; in_range "a" "f"; in_range "A" "F"].
Definition h16 : regex := between 1 4 (Chr is_hex).

(** [(?:[0-9a-fA-F]{1,4}:)] and [(?::[0-9a-fA-F]{1,4})] *)
Definition h16_colon : regex := h16 ~> lit ":".
Definition colon_h16 : regex := lit ":" ~> h16.

Definition IPV6_REGEX : regex :=
      (WordB ~> times 7 h16_colon ~> h16 ~> WordB)
  <|> (WordB ~> between 1 7 h16_colon ~> lit ":" ~> WordB)
  <|> (WordB ~> between 1 6 h16_colon ~> lit ":" ~> h16 ~> WordB)
  <|> (WordB ~> between 1 5 h16_colon ~> between 1 2 colon_h16 ~> WordB)
  <|> (WordB ~> between 1 4 h16_colon ~> between 1 3 colon_h16 ~> WordB)
  <|> (WordB ~> between 1 3 h16_colon ~> between 1 4 colon_h16 ~> WordB)
  <|> (WordB ~> between 1 2 h16_colon ~> between 1 5 colon_h16 ~> WordB)
  <|> (WordB ~> h16 ~> lit ":" ~> between 1 6 colon_h16 ~> WordB)
  <|> (WordB ~> lit ":" ~> between 1 7 colon_h16 ~> WordB)
  <|> (WordB ~> lit ":" ~> lit ":"
         ~> opt (times 4 (Chr (one_of "fF")) ~> lit ":")
         ~> times 3 (octet ~> lit ".") ~> octet ~> WordB).

Definition extractIPv4 (line : string) : list string :=
  match_global IPV4_REGEX line.
Definition extractIPv6 (line : string) : list string :=
  match_global IPV6_REGEX line.

Definition extractIPs (line : string) : list string :=
  extractIPv4 line ++ extractIPv6 line.

Definition privateRanges : list regex :=
  [ Bol ~> text "10" ~> lit ".";
    Bol ~> text "172" ~> lit "."
        ~> Grp ((lit "1" ~> Chr (in_range "6" "9"))
                <|> (lit "2" ~> Chr (in_range "0" "9"))
                <|> (lit "3" ~> Chr (in_range "0" "1")))
        ~> lit ".";
    Bol ~> text "192" ~> lit "." ~> text "168" ~> lit ".";
    Bol ~> text "127" ~> lit ".";
    Bol ~> text "169" ~> lit "." ~> text "254" ~> lit ".";
    Bol ~> lit "0" ~> lit ".";
    Bol ~> text "100" ~> lit "."
        ~> Grp ((lit "6" ~> Chr (in_range "4" "9"))
                <|> (Chr (in_range "7" "9") ~> Chr is_digit)
                <|> (lit "1" ~> Chr (in_range "0" "1") ~> Chr is_digit)
                <|> (text "12" ~> Chr (in_range "0" "7")))
        ~> lit "." ].

Definition ipv6Private : list regex :=
  [ Bol ~> text_i "::1" ~> Eol;
    Bol ~> text_i "fe80:";
    Bol ~> text_i "fc00:";
    Bol ~> text_i "fd"
        ~> times 2 (Chr (ci (any_of [in_range "0" "9"; in_range "a" "f"])))
        ~> lit_i ":" ].

Definition isPrivateIP (ip : string) : bool :=
  existsb (fun range => test range ip) privateRanges
  || existsb (fun pattern => test pattern ip) ipv6Private.

(** The body of the inner loop of [buildIPLogMap]. *)
Definition add_ip (line : string) (ipLogMap : JsMap.t (list string))
    (ip : string) : JsMap.t (list string) :=
  if isPrivateIP ip then ipLogMap else JsMap.push ipLogMap ip line.

Definition add_line (ipLogMap : JsMap.t (list string)) (line : string)
  : JsMap.t (list string) :=
  fold_left (add_ip line) (extractIPs line) ipLogMap.

Definition buildIPLogMap (lines : list string) : JsMap.t (list string) :=
  fold_left add_line lines JsMap.empty.

End IpExtractor.

(* ===================================================================== *)
(** ** [src/abuse-lookup.js] *)
(* ===================================================================== *)

Module AbuseLookup.
Import Chars Regex.
Local Open Scope string_scope.

(** *** The result parser *)

Section Patterns.
Local Open Scope regex_scope.

(** [[a-zA-Z0-9._%+-]+@[a-zA-Z0-9.-]+\.[a-zA-Z]{2,}] under the [i] flag. *)
Definition is_local_part : ascii -> bool :=
  ci (any_of [in_range "a" "z"; in_range "A" "Z"; in_range "0" "9";
              one_of "._%+-"]).
Definition is_domain_part : ascii -> bool :=
  ci (any_of [in_range "a" "z"; in_range "A" "Z"; in_range "0" "9";
              one_of ".-"]).
Definition is_alpha : ascii -> bool :=
  ci (any_of [in_range "a" "z"; in_range "A" "Z"]).

Definition email_address : regex :=
  plus (Chr is_local_part) ~> lit_i "@" ~> plus (Chr is_domain_part)
    ~> lit_i "." ~> at_least 2 (Chr is_alpha).

Definition spaces : regex := star (Chr is_space).

Definition abuse_patterns : list regex :=
  [ text_i "abuse" ~> star_lazy (Chr is_dot) ~> Grp email_address;
    text_i "OrgAbuseEmail:" ~> spaces ~> Grp email_address;
    text_i "RAbuseEmail:" ~> spaces ~> Grp email_address;
    text_i "abuse-mailbox:" ~> spaces ~> Grp email_address;
    text_i "% Abuse contact for " ~> star (Chr is_dot) ~> text_i " is '"
      ~> Grp email_address ~> lit_i "'" ].

Definition rest_of_line : regex := Grp (plus (Chr is_dot)).

Definition org_patterns : list regex :=
  [ text_i "OrgName:" ~> spaces ~> rest_of_line;
    text_i "org-name:" ~> spaces ~> rest_of_line;
    text_i "Organization:" ~> spaces ~> rest_of_line;
    text_i "netname:" ~> spaces ~> rest_of_line;
    text_i "descr:" ~> spaces ~> rest_of_line ].

Definition range_patterns : list regex :=
  [ text_i "NetRange:" ~> spaces ~> rest_of_line;
    text_i "inetnum:" ~> spaces ~> rest_of_line;
    text_i "CIDR:" ~> spaces ~> rest_of_line ].

Definition two_letters : regex :=
  Grp (times 2 (Chr (ci (in_range "A" "Z")))).

Definition country_patterns : list regex :=
  [ text_i "Country:" ~> spaces ~> two_letters;
    text_i "country:" ~> spaces ~> two_letters ].
End Patterns.

(** [for (const pattern of patterns) { const match = str.match(pattern);
    if (match && match[1]) return ...; }]: the first pattern whose match has
    a non-empty capture. *)
Fixpoint first_capture (patterns : list regex) (str : string)
  : option string :=
  match patterns with
  | [] => None
  | pattern :: rest =>
      match match_group1 pattern str with
      | Some g => Some g
      | None => first_capture rest str
      end
  end.

Fixpoint first_in_lines (patterns : list regex) (lines : list string)
  : option string :=
  match lines with
  | [] => None
  | line :: rest =>
      match first_capture patterns line with
      | Some g => Some g
      | None => first_in_lines patterns rest
      end
  end.

Definition newline : ascii := ascii_of_nat 10.

Definition extractAbuseEmail (whoisOutput : string) : option string :=
  option_map toLowerCase
    (first_in_lines abuse_patterns (split newline whoisOutput)).

Definition extractOrgName (whoisOutput : string) : string :=
  match first_capture org_patterns whoisOutput with
  | Some g => trim g
  | None => "Unknown"
  end.

Definition extractNetRange (whoisOutput : string) : option string :=
  option_map trim (first_capture range_patterns whoisOutput).

Definition extractCountry (whoisOutput : string) : option string :=
  option_map toUpperCase (first_capture country_patterns whoisOutput).

(** *** Lookup records *)

(** The object built by [lookupIP]; a property the object lacks (or holds
    [null]) is [None]. Records handed to the aggregator by other callers
    may lack any property but [ip]. *)
Record LookupRecord : Type := {
  ip : string;
  abuseEmail : option string;
  orgName : option string;
  netRange : option string;
  country : option string;
  rawWhois : option string;
  error : option string
}.

Definition success_record (ip stdout : string) : LookupRecord :=
  {| ip := ip;
     abuseEmail := extractAbuseEmail stdout;
     orgName := Some (extractOrgName stdout);
     netRange := extractNetRange stdout;
     country := extractCountry stdout;
     rawWhois := Some stdout;
     error := None |}.

Definition failure_record (ip message : string) : LookupRecord :=
  {| ip := ip;
     abuseEmail := None;
     orgName := Some "Unknown";
     netRange := None;
     country := None;
     rawWhois := None;
     error := Some message |}.

(** *** The module state, the clock and the outside world *)

(** What the run did, oldest event first: a timer awaited by
    [rateLimitDelay], a command handed to [exec], a call of the progress
    callback. *)
Inductive Event : Type :=
| EvTimer (ms started fired : Z)
| EvExec (cmd : string) (issued completed : Z)
| EvProgress (ip : string) (index total : nat).

Record State : Type := {
  whoisCache : JsMap.t LookupRecord;
  lastWhoisQuery : Z;
  clock : Z;              (* what [Date.now()] returns *)
  trace : list Event
}.

Definition initial (now : Z) : State :=
  {| whoisCache := JsMap.empty; lastWhoisQuery := 0;
     clock := now; trace := [] |}.

(** The collaborators: what the child process answers to a command (its
    standard output, or the message of the error it ends with) and how long
    it runs, and how late a timer fires. Both may depend on everything that
    happened before. *)
Record World : Type := {
  child_process : list Event -> string -> (string + string) * N;
  timer_lateness : list Event -> Z -> N
}.

Inductive Outcome (A : Type) : Type :=
| Returned (a : A)
| Thrown (message : string).
Arguments Thrown {A} message.

Definition M (A : Type) : Type := State -> Outcome A * State.

Definition ret {A} (a : A) : M A := fun st => (Returned a, st).

Definition bind {A B} (m : M A) (f : A -> M B) : M B :=
  fun st =>
    match m st with
    | (Returned a, st') => f a st'
    | (Thrown e, st') => (Thrown e, st')
    end.

Definition try_catch {A} (body : M A) (handler : string -> M A) : M A :=
  fun st =>
    match body st with
    | (Returned a, st') => (Returned a, st')
    | (Thrown e, st') => handler e st'
    end.

Declare Scope js_scope.
Delimit Scope js_scope with js.
Notation "x <- m1 ;; m2" := (bind m1 (fun x => m2))
  (at level 100, m1 at next level, right associativity) : js_scope.
Notation "m1 ;; m2" := (bind m1 (fun _ => m2))
  (at level 100, right associativity) : js_scope.
Local Open Scope js_scope.

Definition gets {A} (f : State -> A) : M A := fun st => (Returned (f st), st).

Definition emit (e : Event) (st : State) : State :=
  {| whoisCache := whoisCache st; lastWhoisQuery := lastWhoisQuery st;
     clock := clock st; trace := trace st ++ [e] |}.

Definition at_time (t : Z) (st : State) : State :=
  {| whoisCache := whoisCache st; lastWhoisQuery := lastWhoisQuery st;
     clock := t; trace := trace st |}.

Definition Date_now : M Z := gets clock.

Definition set_lastWhoisQuery (t : Z) : M unit :=
  fun st => (Returned tt,
             {| whoisCache := whoisCache st; lastWhoisQuery := t;
                clock := clock st; trace := trace st |}).

Definition whoisCache_set (k : string) (v : LookupRecord) : M unit :=
  fun st => (Returned tt,
             {| whoisCache := JsMap.set (whoisCache st) k v;
                lastWhoisQuery := lastWhoisQuery st;
                clock := clock st; trace := trace st |}).

Definition WHOIS_DELAY : Z := 1000.

Section Run.
Variable W : World.
Local Open Scope Z_scope.

(** [await new Promise(resolve => setTimeout(resolve, ms))]. Node runs a
    timer after at least [ms] milliseconds, and takes a delay below 1 or
    above 2^31-1 to be 1. *)
Definition sleep (ms : Z) : M unit :=
  fun st =>
    let delay := if (ms <? 1) || (2147483647 <? ms) then 1 else ms in
    let fired := clock st + delay + Z.of_N (timer_lateness W (trace st) ms) in
    (Returned tt, at_time fired (emit (EvTimer ms (clock st) fired) st)).

(** [await execAsync(cmd, { timeout })]: the promise resolves with the
    standard output, or rejects with the error of the child process; a
    child still running after [timeout] milliseconds is killed, which
    rejects the promise too. *)
Definition execAsync (cmd : string) (timeout : Z) : M string :=
  fun st =>
    let '(answer, duration) := child_process W (trace st) cmd in
    let issued := clock st in
    if timeout <? Z.of_N duration then
      (Thrown ("Command failed: " ++ cmd)%string,
       at_time (issued + timeout)
         (emit (EvExec cmd issued (issued + timeout)) st))
    else
      let st' := at_time (issued + Z.of_N duration)
                   (emit (EvExec cmd issued (issued + Z.of_N duration)) st) in
      match answer with
      | inl stdout => (Returned stdout, st')
      | inr message => (Thrown message, st')
      end.

Definition rateLimitDelay : M unit :=
  now <- Date_now ;;
  last <- gets lastWhoisQuery ;;
  let elapsed := now - last in
  (if elapsed <? WHOIS_DELAY then sleep (WHOIS_DELAY - elapsed)
   else ret tt) ;;
  now' <- Date_now ;;
  set_lastWhoisQuery now'.

(** [whoisCache.has(ip)] holds exactly when [whoisCache.get(ip)] finds an
    entry, which is then returned. *)
Definition lookupIP (ip : string) : M LookupRecord :=
  cache <- gets whoisCache ;;
  match JsMap.get cache ip with
  | Some cached => ret cached
  | None =>
      rateLimitDelay ;;
      try_catch
        (stdout <- execAsync ("whois " ++ ip)%string 30000 ;;
         let result := success_record ip stdout in
         whoisCache_set ip result ;;
         ret result)
        (fun message =>
           let result := failure_record ip message in
           whoisCache_set ip result ;;
           ret result)
  end.

(** The progress callback belongs to the caller; the model records each
    call with its arguments. [None] is the default [onProgress = null]. *)
Definition call_onProgress (onProgress : option unit) (ip : string)
    (index total : nat) : M unit :=
  match onProgress with
  | Some _ => fun st => (Returned tt, emit (EvProgress ip index total) st)
  | None => ret tt
  end.

(** The [for] loop of [lookupIPs], at index [i] with [ips] still to do. *)
Fixpoint lookupIPs_from (onProgress : option unit) (total i : nat)
    (ips : list string) (results : JsMap.t LookupRecord)
  : M (JsMap.t LookupRecord) :=
  match ips with
  | [] => ret results
  | ip :: rest =>
      call_onProgress onProgress ip (i + 1)%nat total ;;
      info <- lookupIP ip ;;
      lookupIPs_from onProgress total (S i) rest (JsMap.set results ip info)
  end.

Definition lookupIPs (ips : list string) (onProgress : option unit)
  : M (JsMap.t LookupRecord) :=
  lookupIPs_from onProgress (length ips) 0 ips JsMap.empty.
End Run.

(** *** The aggregator *)

Definition UNKNOWN : string := "unknown@unknown".

(** [info.abuseEmail || 'unknown@unknown'] *)
Definition group_key (info : LookupRecord) : string :=
  match abuseEmail info with
  | Some email => if String.eqb email "" then UNKNOWN else email
  | None => UNKNOWN
  end.

Definition groupByAbuseEmail (whoisResults : JsMap.t LookupRecord)
  : JsMap.t (list LookupRecord) :=
  fold_left
    (fun groups (entry : string * LookupRecord) =>
       let info := snd entry in
       JsMap.push groups (group_key info) info)
    whoisResults JsMap.empty.

End AbuseLookup.

(* ===================================================================== *)
(** ** [src/email-generator.js] *)
(* ===================================================================== *)

Module EmailGenerator.
Import Chars AbuseLookup.
Local Open Scope string_scope.

(** The [options] object; an absent property is [None] and takes the
    default of the destructuring pattern that reads it. *)
Record Options : Type := {
  senderEmail : option string;
  senderName : option string;
  senderOrg : option string;
  maxLogsPerIP : option Z
}.

Definition no_options : Options :=
  {| senderEmail := None; senderName := None; senderOrg := None;
     maxLogsPerIP := None |}.

Record Email : Type := {
  to : string;
  from : string;
  subject : string;
  body : string;
  ips : list string;
  generatedAt : string
}.

Definition or_default {A} (o : option A) (d : A) : A :=
  match o with Some a => a | None => d end.

(** A string-valued property used as a condition: present and non-empty. *)
Definition truthy (o : option string) : option string :=
  match o with
  | Some s => if String.eqb s "" then None else Some s
  | None => None
  end.

(** [array.slice(0, end)] *)
Definition slice0 {A} (l : list A) (e : Z) : list A :=
  let len := Z.of_nat (length l) in
  let final := if (e <? 0)%Z then Z.max (len + e) 0 else Z.min e len in
  firstn (Z.to_nat final) l.

Section Generate.
(** [new Date().toUTCString()] and [new Date().toISOString()]: the
    renderings of the time of generation. *)
Variable now_utc now_iso : string.

Definition formatDate : string := now_utc.

Definition generateSubject (ipInfos : list LookupRecord) : string :=
  let ipCount := length ipInfos in
  let orgName :=
    or_default (truthy (match ipInfos with
                        | info :: _ => orgName info
                        | [] => None
                        end)) "your network" in
  match ipInfos with
  | [info] => "Abuse Report: Malicious activity from " ++ ip info
  | _ => "Abuse Report: Malicious activity from " ++ string_of_nat ipCount
           ++ " IPs in " ++ orgName
  end.

Definition log_block (logs : list string) (maxLogsPerIP : Z)
  : list string :=
  let displayLogs := slice0 logs maxLogsPerIP in
  match displayLogs with
  | [] => []
  | _ =>
      ["Relevant log entries:"; ""]
      ++ map (fun log => "  " ++ log) displayLogs
      ++ (if (maxLogsPerIP <? Z.of_nat (length logs))%Z
          then ["  ... and "
                ++ string_of_Z (Z.of_nat (length logs) - maxLogsPerIP)
                ++ " more entries"]
          else [])
      ++ [""]
  end.

Definition ip_block (ipLogMap : JsMap.t (list string)) (maxLogsPerIP : Z)
    (info : LookupRecord) : list string :=
  [repeat_string "-" 70; "IP Address: " ++ ip info]
  ++ match truthy (netRange info) with
     | Some r => ["Network Range: " ++ r]
     | None => []
     end
  ++ match truthy (country info) with
     | Some c => ["Country: " ++ c]
     | None => []
     end
  ++ match truthy (orgName info) with
     | Some o => if String.eqb o "Unknown" then []
                 else ["Organization: " ++ o]
     | None => []
     end
  ++ [""]
  ++ log_block (or_default (JsMap.get ipLogMap (ip info)) []) maxLogsPerIP.

Definition generateBody (ipInfos : list LookupRecord)
    (ipLogMap : JsMap.t (list string)) (options : Options) : string :=
  let senderOrg := or_default (senderOrg options) "System Administrator" in
  let maxLogsPerIP := or_default (maxLogsPerIP options) 50%Z in
  join (String newline "")
    (["Dear Abuse Team,";
      "";
      "We have detected malicious activity originating from IP address(es) under your administration.";
      "We kindly request that you investigate this matter and take appropriate action.";
      "";
      repeat_string "=" 70;
      "INCIDENT DETAILS";
      repeat_string "=" 70;
      "";
      "Report generated: " ++ formatDate;
      "Number of offending IPs: " ++ string_of_nat (length ipInfos);
      ""]
     ++ flat_map (ip_block ipLogMap maxLogsPerIP) ipInfos
     ++ [repeat_string "=" 70;
         "";
         "Please take appropriate action to address this issue. If you require";
         "additional information or log samples, please do not hesitate to contact us.";
         "";
         "Thank you for your cooperation in maintaining a safe internet environment.";
         "";
         "Best regards,";
         senderOrg]).

Definition generateEmail (abuseEmail : string)
    (ipInfos : list LookupRecord) (ipLogMap : JsMap.t (list string))
    (options : Options) : Email :=
  let senderEmail := or_default (senderEmail options) "abuse@example.com" in
  let senderName := or_default (senderName options) "Abuse Reporter" in
  {| to := abuseEmail;
     from := senderName ++ " <" ++ senderEmail ++ ">";
     subject := generateSubject ipInfos;
     body := generateBody ipInfos ipLogMap options;
     ips := map ip ipInfos;
     generatedAt := now_iso |}.

(** One iteration of the loop of [generateAllEmails]. *)
Definition add_email (ipLogMap : JsMap.t (list string)) (options : Options)
    (emails : list Email) (entry : string * list LookupRecord)
  : list Email :=
  let '(abuseEmail, ipInfos) := entry in
  if String.eqb abuseEmail "unknown@unknown" then emails
  else emails ++ [generateEmail abuseEmail ipInfos ipLogMap options].

Definition generateAllEmails (abuseGroups : JsMap.t (list LookupRecord))
    (ipLogMap : JsMap.t (list string)) (options : Options) : list Email :=
  fold_left (add_email ipLogMap options) abuseGroups [].
End Generate.

Definition unknown_lines (info : LookupRecord) : list string :=
  ["  " ++ ip info]
  ++ match truthy (orgName info) with
     | Some o => if String.eqb o "Unknown" then []
                 else ["    Organization: " ++ o]
     | None => []
     end
  ++ match truthy (error info) with
     | Some e => ["    Error: " ++ e]
     | None => []
     end.

(** The lines pushed by [generateUnknownIPsSummary], before the join. *)
Definition unknown_summary_lines (unknownGroup : list LookupRecord)
  : list string :=
  [repeat_string "=" 78;
   "IPs WITHOUT ABUSE CONTACT INFORMATION";
   repeat_string "=" 78;
   "";
   "The following IPs could not be matched to an abuse contact:";
   ""]
  ++ flat_map unknown_lines unknownGroup
  ++ ["";
      "You may need to manually look up abuse contacts for these IPs.";
      ""].

Definition generateUnknownIPsSummary
    (abuseGroups : JsMap.t (list LookupRecord)) : option string :=
  match JsMap.get abuseGroups "unknown@unknown" with
  | None | Some [] => None
  | Some unknownGroup =>
      Some (join (String newline "") (unknown_summary_lines unknownGroup))
  end.

(** The lines pushed by [formatEmailForOutput], joined. *)
Definition formatEmailForOutput (email : Email) : string :=
  join (String newline "")
    [repeat_string "=" 78;
     "ABUSE REPORT EMAIL";
     repeat_string "=" 78;
     "";
     "To: " ++ to email;
     "From: " ++ from email;
     "Subject: " ++ subject email;
     "Date: " ++ generatedAt email;
     "IPs: " ++ join ", " (ips email);
     "";
     repeat_string "-" 78;
     "MESSAGE BODY";
     repeat_string "-" 78;
     "";
     body email;
     ""].

End EmailGenerator.

(* ===================================================================== *)
(** ** [src/index.js]: from the lines read to the reports *)
(* ===================================================================== *)

Module Index.
Import Chars Regex IpExtractor AbuseLookup EmailGenerator.
Local Open Scope string_scope.

(** What [parseInt] leaves in [options.threshold]: a number, or NaN. *)
Inductive number : Type :=
| Num (z : Z)
| NaN.

(** [logs.length < options.threshold]; a comparison with NaN is false. *)
Definition below (n : nat) (threshold : number) : bool :=
  match threshold with
  | Num z => (Z.of_nat n <? z)%Z
  | NaN => false
  end.

(** [Map.prototype.delete] *)
Definition delete (V : Type) (m : JsMap.t V) (k : string) : JsMap.t V :=
  filter (fun entry => negb (String.eqb (fst entry) k)) m.

(** [for (const [ip, logs] of ipLogMap) if (logs.length < threshold)
    ipLogMap.delete(ip)]: the loop visits the entries the map had, in
    order, and deletes from the map as it goes. *)
Definition filterByThreshold (threshold : number)
    (ipLogMap : JsMap.t (list string)) : JsMap.t (list string) :=
  fold_left
    (fun m (entry : string * list string) =>
       let (ip, logs) := entry in
       if below (length logs) threshold then delete m ip else m)
    ipLogMap ipLogMap.

(** [Array.from(ipLogMap.keys())] after the filter. *)
Definition uniqueIPs (threshold : number) (lines : list string)
  : list string :=
  JsMap.keys (filterByThreshold threshold (buildIPLogMap lines)).

Section Provider.
Local Open Scope regex_scope.

(** [/@(.+)$/] *)
Definition provider_pattern : regex :=
  lit "@" ~> Grp (plus (Chr is_dot)) ~> Eol.

(** [const match = email.match(/@(.+)$/); return match ? match[1] :
    'unknown']. Capture 1 of a match is a string, or [undefined] (here
    [None]) had the group taken no part in the match. *)
Definition getProviderFromEmail (email : string) : option string :=
  let s := list_ascii_of_string email in
  match exec_from s provider_pattern 0 with
  | Some (_, y) =>
      option_map
        (fun span => string_of_list_ascii (slice s (fst span) (snd span)))
        (cap y)
  | None => Some "unknown"
  end.
End Provider.

(** *** Saving the reports *)

(** The calls [saveEmailsToFiles] makes to the file system:
    [mkdir(path, { recursive: true })] and
    [writeFile(path, content, 'utf-8')]. *)
Inductive FsCall : Type :=
| Mkdir (path : string)
| WriteFile (path content : string).

(** The host of the process: what the file system answers to a call,
    given the calls made before it (nothing when the promise resolves, the
    message of the error when it rejects), and how long the call takes. *)
Record Host : Type := {
  file_system : list FsCall -> FsCall -> option string * N
}.

(** [savedCount]; the object [providers] is used as a map from provider
    to number of files. *)
Record SavedCount : Type := {
  total : nat;
  providers : JsMap.t nat
}.

(** [str.replace(/[class]/g, by)] for a class of single characters. *)
Definition replace_chars (class : ascii -> bool) (by_char : ascii)
    (str : string) : string :=
  string_of_list_ascii
    (map (fun c => if class c then by_char else c)
       (list_ascii_of_string str)).

Definition throw {A} (message : string) : M A :=
  fun st => (Thrown message, st).

Definition quoted (s : string) : string :=
  String (ascii_of_nat 34) (s ++ String (ascii_of_nat 34) "").

Section Save.
Variable H : Host.
(** [path.join] of two segments and [Date.prototype.toISOString], which
    belong to the platform. *)
Variable path_join : string -> string -> string.
Variable toISOString : Z -> string.
Local Open Scope js_scope.

(** [path.join(a, b)] throws a TypeError when an argument is not a string
    ([None] is [undefined]). *)
Definition join_paths (a b : option string) : M string :=
  match a, b with
  | Some a', Some b' => ret (path_join a' b')
  | _, _ =>
      throw ("The " ++ quoted "path"
             ++ " argument must be of type string. Received undefined")
  end.

(** [await] of a call to the file system, [log] being the calls made so
    far. *)
Definition fs_await (log : list FsCall) (call : FsCall)
  : M (list FsCall) :=
  fun st =>
    let '(error, duration) := file_system H log call in
    let st' := at_time (clock st + Z.of_N duration) st in
    match error with
    | None => (Returned (log ++ [call])%list, st')
    | Some message => (Thrown message, st')
    end.

(** The [for] loop of [saveEmailsToFiles]; the calls made to the file
    system are threaded through it, as the trace is through the lookups. *)
Fixpoint saveEmailsToFiles_from (emails : list Email)
    (outputDir : option string) (savedCount : SavedCount)
    (log : list FsCall) : M (SavedCount * list FsCall) :=
  match emails with
  | [] => ret (savedCount, log)
  | email :: rest =>
      let provider := getProviderFromEmail (to email) in
      providerDir <- join_paths outputDir provider ;;
      log1 <- fs_await log (Mkdir providerDir) ;;
      now <- Date_now ;;
      let timestamp := replace_chars (one_of ":.") "-" (toISOString now) in
      let ipSuffix :=
        replace_chars (is_char ".") "-" (join "_" (firstn 3 (ips email))) in
      let filename := timestamp ++ "_" ++ ipSuffix ++ ".txt" in
      filepath <- join_paths (Some providerDir) (Some filename) ;;
      let content := formatEmailForOutput email in
      log2 <- fs_await log1 (WriteFile filepath content) ;;
      let key := or_default provider "undefined" in
      let savedCount' :=
        {| total := S (total savedCount);
           providers :=
             JsMap.set (providers savedCount) key
               (or_default (JsMap.get (providers savedCount) key) 0 + 1) |}
      in
      saveEmailsToFiles_from rest outputDir savedCount' log2
  end.

Definition saveEmailsToFiles (emails : list Email)
    (outputDir : option string) : M (SavedCount * list FsCall) :=
  saveEmailsToFiles_from emails outputDir
    {| total := 0; providers := JsMap.empty |} [].
End Save.

(** *** [main] *)

(** What [parseArgs] returns, as far as [main] and the generator read it:
    [outputDir] is [None] when [--output-dir] is the last argument. *)
Record CliOptions : Type := {
  help : bool;
  outputDir : option string;
  threshold : number;
  generation : Options
}.

(** Standard input: a terminal, or a stream that delivers lines until it
    closes or emits an error. *)
Record Stdin : Type := {
  isTTY : bool;
  stream : list string + string
}.

Definition readStdin (input : Stdin) : M (list string) :=
  if isTTY input then ret []
  else match stream input with
       | inl lines => ret lines
       | inr message => throw message
       end.

(** How [main] ends: with [process.exit(code)], or by returning after it
    has saved and printed the reports; [emails] and [unknownIPs] are what it
    prints ([abuseGroups.get('unknown@unknown') || []]), [savedStats] what
    [saveEmailsToFiles] returned and [files] the calls made to the file
    system. *)
Inductive Ending : Type :=
| Exit (code : Z)
| Completed (emails : list Email) (unknownIPs : list LookupRecord)
    (savedStats : SavedCount) (files : list FsCall).

Section Main.
Variable W : World.
Variable H : Host.
Variable path_join : string -> string -> string.
Variable toISOString : Z -> string.
Variables now_utc now_iso : string.
Local Open Scope js_scope.

(** The body of [main]; what it writes to the console is left out. *)
Definition main_body (options : CliOptions) (input : Stdin) : M Ending :=
  if help options then ret (Exit 0)
  else
    lines <- readStdin input ;;
    match lines with
    | [] => ret (Exit 1)
    | _ =>
        let ipLogMap :=
          filterByThreshold (threshold options) (buildIPLogMap lines) in
        let uniqueIPs := JsMap.keys ipLogMap in
        match uniqueIPs with
        | [] => ret (Exit 0)
        | _ =>
            whoisResults <- lookupIPs W uniqueIPs (Some tt) ;;
            let abuseGroups := groupByAbuseEmail whoisResults in
            let emails :=
              generateAllEmails now_utc now_iso abuseGroups ipLogMap
                (generation options) in
            saved <- saveEmailsToFiles H path_join toISOString emails
                       (outputDir options) ;;
            ret (Completed emails
                   (or_default (JsMap.get abuseGroups "unknown@unknown") [])
                   (fst saved) (snd saved))
        end
    end.

(** [main().catch(error => { console.error(...); process.exit(1); })] *)
Definition main (options : CliOptions) (input : Stdin) : M Ending :=
  try_catch (main_body options input) (fun _ => ret (Exit 1)).
End Main.

End Index.

(* ===================================================================== *)
(** ** The rule table of the specification *)
(* ===================================================================== *)

(** The private ranges as the specification lists them, as numeric
    conditions: IPv4 10/8, 172.16/12, 192.168/16, 127/8, 169.254/16, 0/8
    and 100.64/10; IPv6 ::1, fe80::/10 and fc00::/7. Membership in each of
    these ranges is decided by the leading fields of the address (the
    first one or two octets, the first group of 16 bits), which is what
    the table reads. *)
Module RuleTable.
Import Chars.
Local Open Scope Z_scope.

Fixpoint read_decimal (acc : Z) (l : list ascii) : Z * list ascii :=
  match l with
  | c :: l' =>
      if is_digit c
      then read_decimal (10 * acc + Z.of_nat (code c - 48)%nat) l'
      else (acc, l)
  | [] => (acc, [])
  end.

(** A decimal field closed by a dot. *)
Definition octet_field (l : list ascii) : option (Z * list ascii) :=
  match l with
  | c :: _ =>
      if is_digit c then
        match read_decimal 0 l with
        | (n, dot :: rest) =>
            if is_char "." dot then Some (n, rest) else None
        | _ => None
        end
      else None
  | [] => None
  end.

Definition hex_value (c : ascii) : option Z :=
  if is_digit c then Some (Z.of_nat (code c - 48)%nat)
  else if in_range "a" "f" c then Some (Z.of_nat (code c - 87)%nat)
  else if in_range "A" "F" c then Some (Z.of_nat (code c - 55)%nat)
  else None.

Fixpoint read_hex (acc : Z) (l : list ascii) : Z * list ascii :=
  match l with
  | c :: l' =>
      match hex_value c with
      | Some v => read_hex (16 * acc + v) l'
      | None => (acc, l)
      end
  | [] => (acc, [])
  end.

(** A hexadecimal field closed by a colon. *)
Definition group_field (l : list ascii) : option Z :=
  match l with
  | c :: _ =>
      match hex_value c, read_hex 0 l with
      | Some _, (n, colon :: _) =>
          if is_char ":" colon then Some n else None
      | _, _ => None
      end
  | [] => None
  end.

Definition ipv4_private (o1 : Z) (o2 : option Z) : bool :=
  (o1 =? 10) || (o1 =? 127) || (o1 =? 0)
  || match o2 with
     | Some o2 =>
         ((o1 =? 172) && (16 <=? o2) && (o2 <=? 31))
         || ((o1 =? 192) && (o2 =? 168))
         || ((o1 =? 169) && (o2 =? 254))
         || ((o1 =? 100) && (64 <=? o2) && (o2 <=? 127))
     | None => false
     end.

(** fe80::/10 fixes the top 10 bits of the first group, fc00::/7 the top
    7 bits. *)
Definition ipv6_private (g : Z) : bool :=
  (g <? 65536)
  && ((Z.shiftr g 6 =? Z.shiftr 65152 6) || (Z.shiftr g 9 =? Z.shiftr 64512 9)).

Definition in_ipv4_table (l : list ascii) : bool :=
  match octet_field l with
  | Some (o1, rest) => ipv4_private o1 (option_map fst (octet_field rest))
  | None => false
  end.

Definition in_ipv6_table (l : list ascii) : bool :=
  match l with
  | [c1; c2; c3] => is_char ":" c1 && is_char ":" c2 && is_char "1" c3
  | _ => false
  end
  || match group_field l with
     | Some g => ipv6_private g
     | None => false
     end.

Definition in_table (address : string) : bool :=
  let l := list_ascii_of_string address in
  in_ipv4_table l || in_ipv6_table l.

End RuleTable.

(* ===================================================================== *)
(** * Properties *)
(* ===================================================================== *)

(** ** Facts about the matcher *)

Module RegexFacts.
Import Chars Regex.

Lemma all_ascii_complete (c : ascii) : In c all_ascii.
Proof.
  unfold all_ascii. rewrite <- (ascii_nat_embedding c).
  apply in_map, in_seq. pose proof (nat_ascii_bounded c). lia.
Qed.

Lemma subset_spec (p P : ascii -> bool) :
  subset p P = true -> forall c, p c = true -> P c = true.
Proof.
  unfold subset. rewrite forallb_forall. intros H c Hp.
  specialize (H c (all_ascii_complete c)). now rewrite Hp in H.
Qed.

Section Soundness.
Variable s : list ascii.

Lemma rep_sound (body : mstate -> cont -> option mstate)
    (R : mstate -> mstate -> Prop) (greedy : bool) :
  (forall x c res, body x c = Some res -> exists y, R x y /\ c y = Some res) ->
  forall hi lo x c res,
    lo <= hi ->
    rep body greedy hi lo x c = Some res ->
    exists n y, lo <= n /\ n <= hi /\ iter n R x y /\ c y = Some res.
Proof.
  intros Hbody. induction hi as [|hi IH]; intros lo x c res Hle H.
  - exists 0, x. cbn in *. repeat split; auto; lia.
  - cbn [rep] in H.
    assert (Hd : forall y,
               (if (lo =? 0) && (pos y =? pos x) then None
                else rep body greedy hi (Nat.pred lo) y c) = Some res ->
               R x y ->
               exists n y', lo <= n /\ n <= S hi /\ iter n R x y'
                            /\ c y' = Some res).
    { intros y Hy HR.
      destruct ((lo =? 0) && (pos y =? pos x)); [discriminate|].
      apply IH in Hy; [|lia].
      destruct Hy as [n [y' [H1 [H2 [H3 H4]]]]].
      exists (S n), y'. repeat split; try lia; [|assumption].
      exists y. auto. }
    assert (Hb : forall res',
               body x (fun y =>
                 if (lo =? 0) && (pos y =? pos x) then None
                 else rep body greedy hi (Nat.pred lo) y c) = Some res' ->
               res' = res ->
               exists n y', lo <= n /\ n <= S hi /\ iter n R x y'
                            /\ c y' = Some res).
    { intros res' Hr ->. apply Hbody in Hr. destruct Hr as [y [HR Hy]].
      eauto. }
    assert (H0 : lo = 0 -> c x = Some res ->
               exists n y', lo <= n /\ n <= S hi /\ iter n R x y'
                            /\ c y' = Some res).
    { intros -> Hc. exists 0, x. cbn. repeat split; auto; lia. }
    destruct (Nat.eqb_spec lo 0) as [Hlo|Hlo]; cbn [negb] in H.
    + subst lo. destruct greedy.
      * destruct (body x _) as [z|] eqn:Eb.
        -- inversion H; subst. eapply Hb; eauto.
        -- auto.
      * destruct (c x) as [z|] eqn:Ec.
        -- inversion H; subst. auto.
        -- eapply Hb; eauto.
    + eapply Hb; eauto.
Qed.

(** Whatever the matcher finds is a reading of the pattern. *)
Lemma run_sound (r : regex) : well_formed r = true ->
  forall x c res, run s r x c = Some res ->
    exists y, lang s r x y /\ c y = Some res.
Proof.
  induction r as [|p|r1 IH1 r2 IH2|r1 IH1 r2 IH2|g lo hi r IH|r IH| | |];
    intros Hwf x c res H; cbn [run lang well_formed] in *.
  - eauto.
  - destruct (nth_error s (pos x)) as [ch|] eqn:E; [|discriminate].
    destruct (p ch) eqn:Ep; [|discriminate]. eauto 6.
  - apply andb_true_iff in Hwf as [W1 W2].
    apply (IH1 W1) in H. destruct H as [z [L1 H]].
    apply (IH2 W2) in H. destruct H as [y [L2 H]]. eauto.
  - apply andb_true_iff in Hwf as [W1 W2].
    destruct (run s r1 x c) as [z|] eqn:E1.
    + inversion H; subst. apply (IH1 W1) in E1.
      destruct E1 as [y [L Hy]]. eauto.
    + apply (IH2 W2) in H. destruct H as [y [L Hy]]. eauto.
  - apply andb_true_iff in Hwf as [Wb Wr].
    apply rep_sound with (R := lang s r) in H.
    + destruct H as [n [y [H1 [H2 [H3 H4]]]]].
      exists y. split; [|assumption]. exists n. repeat split; auto.
      destruct hi; [exact H2 | exact I].
    + intros x0 c0 res0. apply IH. exact Wr.
    + unfold rep_bound. destruct hi as [h|].
      * now apply Nat.leb_le.
      * lia.
  - apply (IH Hwf) in H. destruct H as [z [L H]]. eauto.
  - destruct (at_boundary s (pos x)) eqn:E; [eauto | discriminate].
  - destruct (Nat.eqb_spec (pos x) 0); [eauto | discriminate].
  - destruct (Nat.eqb_spec (pos x) (length s)); [eauto | discriminate].
Qed.

Lemma search_sound (r : regex) : well_formed r = true ->
  forall fuel i j y, search s r fuel i = Some (j, y) ->
    i <= j /\ run s r (start_at j) Some = Some y
    /\ lang s r (start_at j) y.
Proof.
  intros Hwf. induction fuel as [|fuel IH]; intros i j y H; [discriminate|].
  cbn [search] in H. fold (start_at i) in H.
  destruct (run s r (start_at i) Some) as [z|] eqn:E.
  - inversion H; subst. split; [lia|]. split; [assumption|].
    apply (run_sound _ Hwf) in E. destruct E as [y' [L Hy]].
    now inversion Hy; subst.
  - apply IH in H. destruct H as [H1 H2]. split; [lia | exact H2].
Qed.

Lemma exec_from_sound (r : regex) (start j : nat) (y : mstate) :
  well_formed r = true ->
  exec_from s r start = Some (j, y) ->
  start <= j /\ run s r (start_at j) Some = Some y
  /\ lang s r (start_at j) y.
Proof.
  intros Hwf. unfold exec_from.
  destruct (length s <? start); [discriminate|]. now apply search_sound.
Qed.

(** Reading a pattern moves forward. *)
Lemma iter_pos_le (R : mstate -> mstate -> Prop) :
  (forall x y, R x y -> pos x <= pos y) ->
  forall n x y, iter n R x y -> pos x <= pos y.
Proof.
  intros HR. induction n as [|n IH]; intros x y H; cbn in H.
  - subst. lia.
  - destruct H as [z [H1 H2]]. apply HR in H1. apply IH in H2. lia.
Qed.

Lemma lang_pos_le (r : regex) : forall x y, lang s r x y -> pos x <= pos y.
Proof.
  induction r as [|p|r1 IH1 r2 IH2|r1 IH1 r2 IH2|g lo hi r IH|r IH| | |];
    intros x y H; cbn [lang] in H.
  - subst; lia.
  - destruct H as [ch [_ [_ ->]]]. cbn. lia.
  - destruct H as [z [H1 H2]]. apply IH1 in H1. apply IH2 in H2. lia.
  - destruct H as [H|H]; auto.
  - destruct H as [n [_ [_ H]]]. eapply iter_pos_le; eauto.
  - destruct H as [z [H ->]]. apply IH in H. cbn. lia.
  - destruct H as [_ ->]; lia.
  - destruct H as [_ ->]; lia.
  - destruct H as [_ ->]; lia.
Qed.

(** The characters read all belong to the alphabet of the pattern. *)
Definition spans (P : ascii -> bool) (x y : mstate) : Prop :=
  forall j, pos x <= j < pos y ->
    exists ch, nth_error s j = Some ch /\ P ch = true.

Lemma lang_within (P : ascii -> bool) (r : regex) :
  within P r = true -> forall x y, lang s r x y -> spans P x y.
Proof.
  unfold spans.
  induction r as [|p|r1 IH1 r2 IH2|r1 IH1 r2 IH2|g lo hi r IH|r IH| | |];
    intros HP x y H j Hj; cbn [lang within] in *.
  9: destruct H as [_ ->]; lia.
  8: destruct H as [_ ->]; lia.
  7: destruct H as [_ ->]; lia.
  - subst; lia.
  - destruct H as [ch [E [Hp ->]]]. cbn in Hj.
    assert (j = pos x) by lia. subst j.
    exists ch. split; [assumption|]. eapply subset_spec; eauto.
  - apply andb_true_iff in HP as [P1 P2]. destruct H as [z [H1 H2]].
    destruct (Nat.lt_ge_cases j (pos z)).
    + apply (IH1 P1 _ _ H1). lia.
    + apply (IH2 P2 _ _ H2). lia.
  - apply andb_true_iff in HP as [P1 P2]. destruct H as [H|H]; eauto.
  - destruct H as [n [_ [_ H]]]. revert x H Hj.
    induction n as [|n IHn]; intros x H Hj; cbn in H.
    + subst; lia.
    + destruct H as [z [H1 H2]].
      destruct (Nat.lt_ge_cases j (pos z)).
      * apply (IH HP _ _ H1). lia.
      * apply (IHn _ H2). lia.
  - destruct H as [z [H ->]]. cbn in Hj. eapply IH; eauto.
Qed.

End Soundness.

(** [test] succeeds only on a reading of the pattern. *)
Lemma test_sound (r : regex) (str : string) :
  well_formed r = true -> test r str = true ->
  exists j y, lang (list_ascii_of_string str) r (start_at j) y.
Proof.
  intros Hwf. unfold test.
  destruct (exec_from _ r 0) as [[j y]|] eqn:E; [|discriminate].
  intros _. apply exec_from_sound in E; [|assumption].
  exists j, y. apply E.
Qed.

End RegexFacts.

(** ** Facts about [Map] *)

Module JsMapFacts.
Import JsMap.

Section SetGet.
Variable V : Type.
Implicit Types (m : t V) (k : string) (v : V).

Lemma get_set_same m k v : get (set m k v) k = Some v.
Proof.
  induction m as [|[k' v'] m IH]; simpl.
  - now rewrite String.eqb_refl.
  - destruct (String.eqb k' k) eqn:E; simpl.
    + now rewrite String.eqb_refl.
    + now rewrite E.
Qed.

Lemma get_set_other m k k' v : k <> k' -> get (set m k v) k' = get m k'.
Proof.
  intros Hne. induction m as [|[k0 v0] m IH]; simpl.
  - destruct (String.eqb_spec k k'); congruence.
  - destruct (String.eqb_spec k0 k) as [->|Hk]; simpl.
    + destruct (String.eqb_spec k k'); congruence.
    + now rewrite IH.
Qed.

Lemma has_true_iff m k : has m k = true <-> exists v, get m k = Some v.
Proof.
  unfold has. destruct (get m k); split; try eauto; try discriminate.
  intros [v Hv]; discriminate.
Qed.

Lemma get_In_keys m k v : get m k = Some v -> In k (keys m).
Proof.
  induction m as [|[k0 v0] m IH]; simpl; [discriminate|].
  destruct (String.eqb_spec k0 k); auto.
Qed.

Lemma get_None_keys m k : get m k = None -> ~ In k (keys m).
Proof.
  induction m as [|[k0 v0] m IH]; simpl; [tauto|].
  destruct (String.eqb_spec k0 k); [discriminate|].
  intros H [E|Hin]; [congruence|]. now apply IH.
Qed.
End SetGet.

Section Push.
Variable V : Type.
Implicit Types (m : t (list V)) (k : string) (x : V).

(** [push] as a single traversal. *)
Lemma push_nil k x : push [] k x = [(k, [x])].
Proof. unfold push, has; simpl. now rewrite String.eqb_refl. Qed.

Lemma push_cons k0 l0 m k x :
  push ((k0, l0) :: m) k x =
  if String.eqb k0 k then (k0, l0 ++ [x]) :: m
  else (k0, l0) :: push m k x.
Proof.
  unfold push, has; simpl.
  destruct (String.eqb_spec k0 k) as [->|Hne]; simpl.
  - now rewrite String.eqb_refl.
  - destruct (get m k) eqn:G; simpl.
    + apply String.eqb_neq in Hne. now rewrite Hne, G.
    + apply String.eqb_neq in Hne. rewrite Hne.
      now rewrite get_set_same.
Qed.

Lemma get_push_same m k x :
  get (push m k x) k =
  Some (match get m k with Some l => l | None => [] end ++ [x]).
Proof.
  induction m as [|[k0 l0] m IH].
  - rewrite push_nil; simpl. now rewrite String.eqb_refl.
  - rewrite push_cons; simpl.
    destruct (String.eqb k0 k) eqn:E; simpl; now rewrite E.
Qed.

Lemma get_push_other m k k' x : k <> k' -> get (push m k x) k' = get m k'.
Proof.
  intros Hne. induction m as [|[k0 l0] m IH].
  - rewrite push_nil; simpl. destruct (String.eqb_spec k k'); congruence.
  - rewrite push_cons; simpl.
    destruct (String.eqb_spec k0 k) as [->|Hk]; simpl.
    + destruct (String.eqb_spec k k'); congruence.
    + now rewrite IH.
Qed.

Lemma keys_push m k x :
  keys (push m k x) = if has m k then keys m else keys m ++ [k].
Proof.
  induction m as [|[k0 l0] m IH].
  - now rewrite push_nil.
  - rewrite push_cons. unfold has in *; simpl.
    destruct (String.eqb k0 k) eqn:E; simpl; [reflexivity|].
    rewrite IH. now destruct (get m k).
Qed.

Lemma NoDup_keys_push m k x : NoDup (keys m) -> NoDup (keys (push m k x)).
Proof.
  intros Hnd. rewrite keys_push. unfold has.
  destruct (get m k) eqn:G; [assumption|].
  apply get_None_keys in G.
  apply NoDup_rev in Hnd. rewrite <- (rev_involutive (keys m ++ [k])).
  apply NoDup_rev. rewrite rev_app_distr; simpl.
  constructor; [now rewrite <- in_rev | assumption].
Qed.

Lemma concat_values_push m k x :
  Permutation (concat (values (push m k x))) (concat (values m) ++ [x]).
Proof.
  induction m as [|[k0 l0] m IH].
  - rewrite push_nil; simpl. reflexivity.
  - rewrite push_cons. destruct (String.eqb k0 k); simpl.
    + rewrite <- !app_assoc. apply Permutation_app_head.
      apply Permutation_app_comm.
    + rewrite <- app_assoc. now apply Permutation_app_head.
Qed.
End Push.

(** Filing a list of items, each under its key: what both [buildIPLogMap]
    and [groupByAbuseEmail] do. *)
Section Filing.
Variables (A V : Type) (key : A -> string) (val : A -> V).

Lemma get_file items : forall m k,
  get (file key val m items) k =
  match get m k, filed_under key val k items with
  | None, [] => None
  | None, l => Some l
  | Some l0, l => Some (l0 ++ l)
  end.
Proof.
  unfold file, filed_under.
  induction items as [|a items IH]; intros m k; simpl.
  - destruct (get m k); [now rewrite app_nil_r | reflexivity].
  - rewrite IH. destruct (String.eqb_spec (key a) k) as [<-|Hne]; simpl.
    + rewrite get_push_same. destruct (get m (key a)); simpl.
      * now rewrite <- app_assoc.
      * reflexivity.
    + now rewrite get_push_other.
Qed.

Lemma NoDup_keys_file items : forall m,
  NoDup (keys m) -> NoDup (keys (file key val m items)).
Proof.
  unfold file. induction items as [|a items IH]; intros m Hnd; simpl.
  - assumption.
  - apply IH. now apply NoDup_keys_push.
Qed.

Lemma concat_values_file items : forall m,
  Permutation (concat (values (file key val m items)))
              (concat (values m) ++ map val items).
Proof.
  unfold file. induction items as [|a items IH]; intros m; simpl.
  - now rewrite app_nil_r.
  - rewrite IH. rewrite concat_values_push.
    rewrite <- app_assoc. reflexivity.
Qed.
End Filing.

End JsMapFacts.

(** ** The aggregator *)

Module AggregatorProps.
Import JsMap JsMapFacts AbuseLookup.
Local Open Scope string_scope.

Lemma groupByAbuseEmail_file (whoisResults : JsMap.t LookupRecord) :
  groupByAbuseEmail whoisResults =
  file (fun e => group_key (snd e)) snd empty whoisResults.
Proof. reflexivity. Qed.

Lemma filed_under_values (whoisResults : JsMap.t LookupRecord) k :
  filed_under (fun e => group_key (snd e)) snd k whoisResults =
  filter (fun r => String.eqb (group_key r) k) (values whoisResults).
Proof.
  unfold filed_under, values.
  induction whoisResults as [|[a r] l IH]; simpl; [reflexivity|].
  destruct (String.eqb (group_key r) k); simpl; now rewrite IH.
Qed.

Lemma get_group (whoisResults : JsMap.t LookupRecord) k :
  get (groupByAbuseEmail whoisResults) k =
  match filter (fun r => String.eqb (group_key r) k) (values whoisResults) with
  | [] => None
  | g => Some g
  end.
Proof.
  rewrite groupByAbuseEmail_file, get_file, filed_under_values. reflexivity.
Qed.

Lemma in_own_group (whoisResults : JsMap.t LookupRecord) r :
  In r (values whoisResults) ->
  exists g, get (groupByAbuseEmail whoisResults) (group_key r) = Some g
            /\ In r g.
Proof.
  intros Hin. rewrite get_group.
  assert (Hf : In r (filter (fun r' => String.eqb (group_key r') (group_key r))
                       (values whoisResults))).
  { apply filter_In. split; [assumption | apply String.eqb_refl]. }
  destruct (filter _ _) as [|r0 g] eqn:E; [contradiction|].
  eexists; split; [reflexivity | assumption].
Qed.

(** C4. [groupByAbuseEmail] puts every record whose abuse contact is absent
    or empty under the key ['unknown@unknown'] and every other record under
    its abuse contact; each group lists its records in input order (it is
    the input filtered by key); no key occurs twice, and the records of all
    groups together are the input records, each exactly once. *)
Theorem groupByAbuseEmail_partitions (whoisResults : JsMap.t LookupRecord) :
  let records := values whoisResults in
  let groups := groupByAbuseEmail whoisResults in
  (forall r, In r records ->
     abuseEmail r = None \/ abuseEmail r = Some "" ->
     exists g, get groups "unknown@unknown" = Some g /\ In r g)
  /\ (forall r email, In r records ->
        abuseEmail r = Some email -> email <> "" ->
        exists g, get groups email = Some g /\ In r g)
  /\ (forall k g, get groups k = Some g ->
        g = filter (fun r => String.eqb (group_key r) k) records)
  /\ NoDup (keys groups)
  /\ Permutation (concat (values groups)) records.
Proof.
  cbv zeta. repeat split.
  - intros r Hin Hno.
    destruct (in_own_group whoisResults r Hin) as [g [Hg Hr]].
    exists g. split; [|assumption]. rewrite <- Hg. f_equal.
    unfold group_key. destruct Hno as [-> | ->]; reflexivity.
  - intros r email Hin He Hne.
    destruct (in_own_group whoisResults r Hin) as [g [Hg Hr]].
    exists g. split; [|assumption]. rewrite <- Hg. f_equal.
    unfold group_key. rewrite He.
    destruct (String.eqb_spec email ""); congruence.
  - intros k g. rewrite get_group.
    destruct (filter _ _); [discriminate | congruence].
  - rewrite groupByAbuseEmail_file. apply NoDup_keys_file. constructor.
  - rewrite groupByAbuseEmail_file.
    rewrite concat_values_file. reflexivity.
Qed.

Definition provider_record : LookupRecord :=
  {| ip := "5.6.7.8"; abuseEmail := Some "abuse@provider.com";
     orgName := Some "Provider"; netRange := None; country := None;
     rawWhois := None; error := None |}.

Definition sample_results : JsMap.t LookupRecord :=
  [ ("1.2.3.4", failure_record "1.2.3.4" "timeout");
    ("5.6.7.8", provider_record);
    ("9.10.11.12",
     {| ip := "9.10.11.12"; abuseEmail := Some "";
        orgName := None; netRange := None; country := None;
        rawWhois := None; error := None |}) ].

Lemma groupByAbuseEmail_partitions_witness :
  (exists g, get (groupByAbuseEmail sample_results) "unknown@unknown" = Some g
             /\ In (failure_record "1.2.3.4" "timeout") g)
  /\ (exists g, get (groupByAbuseEmail sample_results) "abuse@provider.com"
                = Some g /\ In provider_record g)
  /\ [provider_record]
     = filter (fun r => String.eqb (group_key r) "abuse@provider.com")
         (values sample_results).
Proof.
  pose proof (groupByAbuseEmail_partitions sample_results) as [H1 [H2 [H3 _]]].
  split; [|split].
  - apply H1.
    + simpl. left. reflexivity.
    + left. reflexivity.
  - apply H2.
    + simpl. right. left. reflexivity.
    + reflexivity.
    + discriminate.
  - apply H3. reflexivity.
Defined.

End AggregatorProps.

(** ** The log index builder *)

Module LogIndexProps.
Import JsMap JsMapFacts IpExtractor.
Local Open Scope string_scope.

(** The (address, line) pairs that [buildIPLogMap] files, in order. *)
Definition mentions (line : string) : list (string * string) :=
  map (fun ip => (ip, line))
      (filter (fun ip => negb (isPrivateIP ip)) (extractIPs line)).

(** How often [extractIPs] reports [ip] on [line]. *)
Definition occurrences (line ip : string) : nat :=
  count_occ string_dec (extractIPs line) ip.

(** The reading "once per distinct address": the entry of a public address
    is the list of the lines that mention it, each such line once. *)
Definition once_per_line (lines : list string) : Prop :=
  forall ip, isPrivateIP ip = false ->
    get (buildIPLogMap lines) ip =
    match filter (fun line => existsb (String.eqb ip) (extractIPs line)) lines
    with [] => None | l => Some l end.

Lemma add_line_file m line :
  add_line m line = file fst snd m (mentions line).
Proof.
  unfold add_line, mentions, file.
  generalize (extractIPs line) as ips. intros ips. revert m.
  induction ips as [|ip ips IH]; intros m; simpl; [reflexivity|].
  rewrite IH. unfold add_ip.
  destruct (isPrivateIP ip); reflexivity.
Qed.

Lemma buildIPLogMap_file_from lines : forall m,
  fold_left add_line lines m = file fst snd m (flat_map mentions lines).
Proof.
  induction lines as [|line lines IH]; intros m; simpl; [reflexivity|].
  rewrite IH, add_line_file. unfold file. now rewrite fold_left_app.
Qed.

Lemma filed_under_app (A V : Type) (key : A -> string) (val : A -> V) k l1 l2 :
  filed_under key val k (l1 ++ l2) =
  (filed_under key val k l1 ++ filed_under key val k l2)%list.
Proof. unfold filed_under. now rewrite filter_app, map_app. Qed.

Lemma filed_under_mentions line ip :
  filed_under fst snd ip (mentions line) =
  if isPrivateIP ip then [] else repeat line (occurrences line ip).
Proof.
  unfold filed_under, mentions, occurrences.
  induction (extractIPs line) as [|a ips IH]; simpl.
  - now destruct (isPrivateIP ip).
  - destruct (string_dec a ip) as [->|Hne].
    + destruct (isPrivateIP ip) eqn:P; simpl.
      * exact IH.
      * rewrite String.eqb_refl; simpl. now rewrite IH.
    + destruct (isPrivateIP a); simpl; [exact IH|].
      apply String.eqb_neq in Hne. rewrite Hne. exact IH.
Qed.

Lemma filed_under_lines lines ip :
  filed_under fst snd ip (flat_map mentions lines) =
  if isPrivateIP ip then []
  else flat_map (fun line => repeat line (occurrences line ip)) lines.
Proof.
  induction lines as [|line lines IH]; simpl.
  - now destruct (isPrivateIP ip).
  - rewrite filed_under_app, IH, filed_under_mentions.
    now destruct (isPrivateIP ip).
Qed.

(** C5 (amended). For every list of input lines, [buildIPLogMap] has no
    entry for a private address, and the entry of any other address holds,
    in input order, each line once per occurrence of the address among the
    matches of [extractIPs] on that line (no entry when there is none); no
    key occurs twice. A line that mentions the address twice is filed
    twice. *)
Theorem buildIPLogMap_per_occurrence (lines : list string) :
  (forall ip,
     get (buildIPLogMap lines) ip =
     if isPrivateIP ip then None
     else match flat_map (fun line => repeat line (occurrences line ip)) lines
          with [] => None | l => Some l end)
  /\ NoDup (keys (buildIPLogMap lines)).
Proof.
  unfold buildIPLogMap. rewrite buildIPLogMap_file_from. split.
  - intros ip. rewrite get_file, filed_under_lines. simpl.
    destruct (isPrivateIP ip); reflexivity.
  - apply NoDup_keys_file. constructor.
Qed.

(** C5 (as stated) fails: the line ["8.8.8.8 8.8.8.8"] is filed twice under
    [8.8.8.8]. *)
Lemma once_per_line_fails : ~ once_per_line ["8.8.8.8 8.8.8.8"].
Proof.
  intros H. specialize (H "8.8.8.8" eq_refl).
  vm_compute in H. discriminate H.
Qed.

End LogIndexProps.

(** ** The lookup cache and rate limiter *)

Module LookupProps.
Import JsMap JsMapFacts AbuseLookup.
Local Open Scope string_scope.
Local Open Scope list_scope.
Local Open Scope Z_scope.

(** The state after a sequence of resolutions. *)
Definition after_lookups (W : World) (ips : list string) (st : State)
  : State :=
  fold_left (fun st ip => snd (lookupIP W ip st)) ips st.

Definition is_timer (e : Event) : Prop :=
  exists ms started fired, e = EvTimer ms started fired.

(** The commands handed to [exec], with their times of issue and of
    completion, in order. *)
Fixpoint queries (tr : list Event) : list (string * Z * Z) :=
  match tr with
  | [] => []
  | EvExec cmd issued completed :: tr' =>
      (cmd, issued, completed) :: queries tr'
  | _ :: tr' => queries tr'
  end.

(** A trace that respects the rate limit, [last] being the time the
    previous query was issued and [now] the time reached so far: time
    never runs backwards, a timer waits out exactly the rest of the
    interval, and a query is issued no sooner than [WHOIS_DELAY] after the
    previous one was issued. *)
Fixpoint paced (last now : Z) (tr : list Event) : Prop :=
  match tr with
  | [] => True
  | EvTimer ms started fired :: tr' =>
      now <= started /\ ms = WHOIS_DELAY - (started - last) /\ 0 < ms
      /\ started + ms <= fired /\ paced last fired tr'
  | EvExec _ issued completed :: tr' =>
      now <= issued /\ last + WHOIS_DELAY <= issued /\ issued <= completed
      /\ paced issued completed tr'
  | EvProgress _ _ _ :: tr' => paced last now tr'
  end.

(** The value of [lastWhoisQuery] that a trace calls for: the time of
    issue of its last query. *)
Fixpoint last_issued (last : Z) (tr : list Event) : Z :=
  match tr with
  | [] => last
  | EvExec _ issued _ :: tr' => last_issued issued tr'
  | _ :: tr' => last_issued last tr'
  end.

(** The events of one resolution of [ip]: timers and queries for [ip]. *)
Definition lookup_events (ip : string) (seg : list Event) : Prop :=
  Forall (fun e => is_timer e
                   \/ exists issued completed,
                        e = EvExec ("whois " ++ ip)%string issued completed) seg.

(** The trace of a batch in which every callback comes first: the call for
    position [i], then the events of the resolution of that address. *)
Fixpoint announced (total i : nat) (ips : list string)
    (segs : list (list Event)) : list Event :=
  match ips, segs with
  | ip :: ips', seg :: segs' =>
      (EvProgress ip (i + 1) total :: seg)
      ++ announced total (S i) ips' segs'
  | _, _ => []
  end.

(** The reading of C6: the callback for [ip] is called after the query for
    [ip] was dispatched. *)
Definition progress_after_dispatch (tr : list Event) (ip : string)
    (index total : nat) : Prop :=
  exists before after issued completed,
    tr = before ++ EvProgress ip index total :: after
    /\ In (EvExec ("whois " ++ ip)%string issued completed) before.

(** C6 as stated, for one run: for every position [i] of the input, the
    callback is called with the address, [i + 1] and the number of
    addresses after the query for that address was dispatched. *)
Definition announces_after_dispatch (W : World) (ips : list string)
    (st : State) : Prop :=
  forall i ip, nth_error ips i = Some ip ->
    progress_after_dispatch
      (trace (snd (lookupIPs W ips (Some tt) st))) ip (i + 1) (length ips).

(** A directory that knows one address and fails on the other. *)
Definition sample_world : World :=
  {| child_process := fun _ cmd =>
       if String.eqb cmd "whois 198.51.100.10"
       then (inr "Command failed: whois 198.51.100.10", 12%N)
       else (inl "OrgAbuseEmail: abuse@example.net", 40%N);
     timer_lateness := fun _ _ => 2%N |}.

Definition sample_ips : list string := ["203.0.113.5"; "198.51.100.10"].

Definition sample_start : State := initial 1700000000000.

(** The two ways a query ends, and the record each leaves in the cache. *)
Definition settle (ip : string) (answer : Outcome string * State)
  : Outcome LookupRecord * State :=
  let result :=
    match fst answer with
    | Returned stdout => success_record ip stdout
    | Thrown message => failure_record ip message
    end in
  (Returned result, snd (whoisCache_set ip result (snd answer))).

Section WithWorld.
Variable W : World.

Lemma rateLimitDelay_returns st :
  exists st', rateLimitDelay W st = (Returned tt, st')
    /\ whoisCache st' = whoisCache st
    /\ lastWhoisQuery st' = clock st'
    /\ exists timers, trace st' = trace st ++ timers
         /\ Forall is_timer timers.
Proof.
  unfold rateLimitDelay, bind, Date_now, gets, ret, set_lastWhoisQuery.
  destruct (clock st - lastWhoisQuery st <? WHOIS_DELAY) eqn:E.
  - unfold sleep; simpl. eexists; repeat split.
    eexists; split; [reflexivity|].
    constructor; [|constructor]. do 3 eexists; reflexivity.
  - simpl. eexists; repeat split.
    exists []. split; [now rewrite app_nil_r | constructor].
Qed.

Lemma rateLimitDelay_timing st :
  lastWhoisQuery st <= clock st ->
  let st' := snd (rateLimitDelay W st) in
  lastWhoisQuery st + WHOIS_DELAY <= clock st'
  /\ clock st <= clock st'
  /\ exists timers, trace st' = trace st ++ timers
       /\ Forall is_timer timers
       /\ forall rest, paced (lastWhoisQuery st) (clock st') rest ->
            paced (lastWhoisQuery st) (clock st) (timers ++ rest).
Proof.
  intros Hwf.
  unfold rateLimitDelay, bind, Date_now, gets, ret, set_lastWhoisQuery.
  destruct (clock st - lastWhoisQuery st <? WHOIS_DELAY) eqn:E.
  - apply Z.ltb_lt in E. unfold sleep.
    set (ms := WHOIS_DELAY - (clock st - lastWhoisQuery st)) in *.
    assert (Hms : (ms <? 1) || (2147483647 <? ms) = false).
    { apply orb_false_iff; split; [apply Z.ltb_ge | apply Z.ltb_ge];
        subst ms; unfold WHOIS_DELAY in *; lia. }
    rewrite Hms.
    pose proof (N2Z.is_nonneg
                  (timer_lateness W (trace st) ms)) as Hlate.
    cbn [snd fst clock trace at_time emit].
    repeat split; try (subst ms; lia).
    eexists; split; [reflexivity|]. split.
    + constructor; [|constructor]. do 3 eexists; reflexivity.
    + intros rest Hrest. cbn [app paced].
      repeat split; try (subst ms; unfold WHOIS_DELAY in *; lia).
      assumption.
  - apply Z.ltb_ge in E. cbn [snd fst clock trace].
    repeat split; try lia.
    exists []. split; [now rewrite app_nil_r |]. split; [constructor|auto].
Qed.

Lemma lookupIP_cached ip st r :
  get (whoisCache st) ip = Some r -> lookupIP W ip st = (Returned r, st).
Proof.
  intros H. unfold lookupIP, bind, gets. now rewrite H.
Qed.

Lemma lookupIP_uncached ip st :
  get (whoisCache st) ip = None ->
  lookupIP W ip st =
  settle ip (execAsync W ("whois " ++ ip)%string 30000
               (snd (rateLimitDelay W st))).
Proof.
  intros H. unfold lookupIP, bind at 1, gets. rewrite H.
  destruct (rateLimitDelay_returns st) as [st1 [E1 _]].
  unfold bind at 1. rewrite E1; simpl.
  unfold try_catch, bind, settle.
  destruct (execAsync W _ 30000 st1) as [[stdout|message] st2];
    reflexivity.
Qed.

Lemma execAsync_shape cmd timeout st :
  exists o issued completed,
    execAsync W cmd timeout st
    = (o, at_time completed (emit (EvExec cmd issued completed) st))
    /\ issued = clock st
    /\ (0 <= timeout -> issued <= completed).
Proof.
  unfold execAsync.
  destruct (child_process W (trace st) cmd) as [answer duration].
  pose proof (N2Z.is_nonneg duration).
  destruct (timeout <? Z.of_N duration).
  - do 3 eexists; repeat split. lia.
  - destruct answer; do 3 eexists; repeat split; lia.
Qed.

(** Every resolution returns a record, which is then the cache entry of
    the address, and leaves the other cache entries alone. *)
Lemma lookupIP_returns ip st :
  exists r st', lookupIP W ip st = (Returned r, st')
    /\ get (whoisCache st') ip = Some r
    /\ (forall k, k <> ip ->
           get (whoisCache st') k = get (whoisCache st) k)
    /\ (get (whoisCache st) ip = Some r
        \/ get (whoisCache st) ip = None
           /\ ((exists stdout, r = success_record ip stdout)
               \/ exists message, r = failure_record ip message)).
Proof.
  destruct (get (whoisCache st) ip) as [r|] eqn:G.
  - exists r, st. rewrite (lookupIP_cached _ _ G). auto.
  - rewrite (lookupIP_uncached _ _ G).
    destruct (rateLimitDelay_returns st) as [st1 [E1 [C1 _]]].
    rewrite E1; cbn [snd].
    destruct (execAsync_shape ("whois " ++ ip)%string 30000 st1)
      as [o [issued [completed [E2 _]]]].
    rewrite E2. unfold settle, whoisCache_set; cbn [fst snd].
    do 2 eexists; split; [reflexivity|].
    cbn [whoisCache at_time emit]. rewrite C1. split; [|split].
    + apply get_set_same.
    + intros k Hk. apply get_set_other. congruence.
    + right. split; [reflexivity|]. destruct o; eauto.
Qed.

Lemma lookupIP_keeps ip st k r :
  get (whoisCache st) k = Some r ->
  get (whoisCache (snd (lookupIP W ip st))) k = Some r.
Proof.
  intros H.
  destruct (lookupIP_returns ip st) as [r1 [st1 [E [G [Keep Old]]]]].
  rewrite E; cbn [snd].
  destruct (string_dec k ip) as [->|Hne].
  - destruct Old as [Old|[Old _]]; congruence.
  - now rewrite Keep.
Qed.

Lemma after_lookups_keeps ips : forall st k r,
  get (whoisCache st) k = Some r ->
  get (whoisCache (after_lookups W ips st)) k = Some r.
Proof.
  induction ips as [|ip ips IH]; intros st k r H; simpl; [assumption|].
  apply IH. now apply lookupIP_keeps.
Qed.

(** C1. Whatever the directory answers, a resolution of [ip] returns a
    record [r], and any later resolution of [ip] in the same run (after
    any other resolutions) returns [r] again and leaves the state as it
    is: no event is added to the trace (no query, no timer), the clock
    does not move and [lastWhoisQuery] is not touched. A failure record
    is cached like any other. *)
Theorem lookupIP_second_time_cached (ip : string) (st : State)
    (others : list string) :
  exists r st1,
    lookupIP W ip st = (Returned r, st1)
    /\ lookupIP W ip st1 = (Returned r, st1)
    /\ let st2 := after_lookups W others st1 in
       lookupIP W ip st2 = (Returned r, st2).
Proof.
  destruct (lookupIP_returns ip st) as [r [st1 [E [G _]]]].
  exists r, st1. split; [assumption|]. split.
  - now apply lookupIP_cached.
  - cbv zeta. apply lookupIP_cached. now apply after_lookups_keeps.
Qed.

(** *** One resolution, event by event *)

Lemma queries_timers timers : Forall is_timer timers ->
  forall l, queries (timers ++ l) = queries l.
Proof.
  induction 1 as [|e timers [ms [s0 [f0 ->]]] _ IH]; intros l;
    [reflexivity | apply IH].
Qed.

Lemma last_issued_timers timers : Forall is_timer timers ->
  forall last l, last_issued last (timers ++ l) = last_issued last l.
Proof.
  induction 1 as [|e timers [ms [s0 [f0 ->]]] _ IH]; intros last l;
    [reflexivity | apply IH].
Qed.

Lemma lookupIP_events ip st :
  exists seg, trace (snd (lookupIP W ip st)) = trace st ++ seg
              /\ lookup_events ip seg.
Proof.
  destruct (get (whoisCache st) ip) as [r|] eqn:G.
  - exists []. rewrite (lookupIP_cached _ _ G); cbn [snd].
    split; [now rewrite app_nil_r | constructor].
  - rewrite (lookupIP_uncached _ _ G).
    destruct (rateLimitDelay_returns st)
      as [st1 [E1 [_ [_ [timers [T1 F1]]]]]].
    rewrite E1; cbn [snd].
    destruct (execAsync_shape ("whois " ++ ip)%string 30000 st1)
      as [o [issued [completed [E2 _]]]].
    rewrite E2. unfold settle, whoisCache_set; cbn [fst snd trace at_time emit].
    exists (timers ++ [EvExec ("whois " ++ ip)%string issued completed]).
    split; [now rewrite T1, app_assoc|].
    apply Forall_app; split.
    + eapply Forall_impl; [|exact F1]. intros e He; now left.
    + constructor; [|constructor]. right; eauto.
Qed.

Lemma lookupIP_uncached_paced ip st :
  get (whoisCache st) ip = None ->
  lastWhoisQuery st <= clock st ->
  exists r st' new issued completed,
    lookupIP W ip st = (Returned r, st')
    /\ whoisCache st' = set (whoisCache st) ip r
    /\ trace st' = trace st ++ new
    /\ queries new = [(("whois " ++ ip)%string, issued, completed)]
    /\ last_issued (lastWhoisQuery st) new = issued
    /\ lastWhoisQuery st' = issued /\ clock st' = completed
    /\ issued <= completed
    /\ forall rest, paced issued completed rest ->
         paced (lastWhoisQuery st) (clock st) (new ++ rest).
Proof.
  intros G Hwf. rewrite (lookupIP_uncached _ _ G).
  destruct (rateLimitDelay_returns st) as [st1 [E1 [C1 [L1 _]]]].
  destruct (rateLimitDelay_timing st Hwf)
    as [Hgap [Hmono [timers [T1 [F1 P1]]]]].
  rewrite E1 in *; cbn [snd] in *.
  destruct (execAsync_shape ("whois " ++ ip)%string 30000 st1)
    as [o [issued [completed [E2 [Hi Hc]]]]].
  specialize (Hc ltac:(lia)).
  rewrite E2. unfold settle, whoisCache_set; cbn [fst snd].
  do 2 eexists.
  exists (timers ++ [EvExec ("whois " ++ ip)%string issued completed]).
  exists issued, completed.
  split; [reflexivity|].
  cbn [whoisCache lastWhoisQuery clock trace at_time emit].
  split; [now rewrite C1|].
  split; [now rewrite T1, app_assoc|].
  split; [now rewrite queries_timers|].
  split; [now rewrite last_issued_timers|].
  split; [congruence|]. split; [reflexivity|]. split; [assumption|].
  intros rest Hrest. rewrite <- app_assoc. apply P1.
  cbn [app paced]. repeat split; try lia. assumption.
Qed.

Lemma call_onProgress_shape onProgress ip index total st :
  exists pre st0,
    call_onProgress onProgress ip index total st = (Returned tt, st0)
    /\ whoisCache st0 = whoisCache st
    /\ lastWhoisQuery st0 = lastWhoisQuery st
    /\ clock st0 = clock st
    /\ trace st0 = trace st ++ pre
    /\ (pre = [] \/ pre = [EvProgress ip index total]).
Proof.
  destruct onProgress as [[]|]; cbn.
  - exists [EvProgress ip index total]. eexists.
    repeat split; auto.
  - exists [], st. rewrite app_nil_r. repeat split; auto.
Qed.

(** *** The batch *)

Lemma lookupIPs_from_results onProgress total : forall ips i results st,
  exists results' st',
    lookupIPs_from W onProgress total i ips results st
    = (Returned results', st')
    /\ (forall k, ~ In k ips -> get results' k = get results k)
    /\ (forall k r, get (whoisCache st) k = Some r ->
                    get (whoisCache st') k = Some r)
    /\ (forall ip, In ip ips ->
          exists r, get results' ip = Some r
            /\ get (whoisCache st') ip = Some r
            /\ (get (whoisCache st) ip = Some r
                \/ (exists stdout, r = success_record ip stdout)
                \/ exists message, r = failure_record ip message)).
Proof.
  induction ips as [|ip0 rest IH]; intros i results st.
  - exists results, st. cbn. repeat split; auto. intros ip [].
  - destruct (call_onProgress_shape onProgress ip0 (i + 1)%nat total st)
      as [pre [st0 [E0 [C0 _]]]].
    destruct (lookupIP_returns ip0 st0) as [r0 [st1 [E1 [G1 [Keep Old]]]]].
    destruct (IH (S i) (set results ip0 r0) st1)
      as [results' [st' [E' [NotIn [KeepC All]]]]].
    exists results', st'.
    assert (Keep1 : forall k r, get (whoisCache st) k = Some r ->
                                get (whoisCache st1) k = Some r).
    { intros k r H. rewrite <- C0 in H.
      pose proof (lookupIP_keeps ip0 st0 k H) as H1.
      now rewrite E1 in H1. }
    split; [|split; [|split]].
    + cbn [lookupIPs_from]. unfold bind at 1. rewrite E0.
      unfold bind at 1. rewrite E1. exact E'.
    + intros k Hk. rewrite NotIn by (intros H; apply Hk; now right).
      apply get_set_other. intros ->. apply Hk. now left.
    + intros k r H. apply KeepC. now apply Keep1.
    + intros ip Hin.
      destruct (in_dec string_dec ip rest) as [Hr|Hr].
      * destruct (All ip Hr) as [r [R1 [R2 R3]]].
        exists r. split; [assumption|]. split; [assumption|].
        destruct R3 as [R3|R3]; [|now right].
        destruct (string_dec ip ip0) as [->|Hne].
        -- assert (r = r0) by congruence. subst r.
           destruct Old as [Old|[_ Old]]; [left; congruence | now right].
        -- left. rewrite <- C0, <- (Keep ip Hne). assumption.
      * destruct Hin as [->|Hin]; [|contradiction].
        exists r0. split; [|split].
        -- rewrite NotIn by assumption. apply get_set_same.
        -- now apply KeepC.
        -- destruct Old as [Old|[_ Old]]; [left; congruence | now right].
Qed.

Lemma lookupIPs_from_announced total : forall ips i results st,
  exists results' st' segs,
    lookupIPs_from W (Some tt) total i ips results st
    = (Returned results', st')
    /\ Forall2 lookup_events ips segs
    /\ trace st' = trace st ++ announced total i ips segs.
Proof.
  induction ips as [|ip0 rest IH]; intros i results st.
  - exists results, st, []. cbn. rewrite app_nil_r. repeat split.
    constructor.
  - set (st0 := emit (EvProgress ip0 (i + 1)%nat total) st).
    destruct (lookupIP_returns ip0 st0) as [r0 [st1 [E1 _]]].
    destruct (lookupIP_events ip0 st0) as [seg [T1 L1]].
    rewrite E1 in T1; cbn [snd] in T1.
    destruct (IH (S i) (set results ip0 r0) st1)
      as [results' [st' [segs [E' [F' T']]]]].
    exists results', st', (seg :: segs). split; [|split].
    + cbn [lookupIPs_from call_onProgress]. unfold bind at 1.
      fold st0. unfold bind at 1. rewrite E1. exact E'.
    + now constructor.
    + rewrite T', T1. subst st0. cbn [trace emit announced].
      rewrite <- !app_assoc. reflexivity.
Qed.

(** C6 (amended). With a progress callback supplied, [lookupIPs] returns
    and its trace is, for each position [i] of the input in turn, the
    call of the callback with the address, [i + 1] and the number of
    addresses, followed by the events of the resolution of that address
    (its timer and its query, if any): the callback is called before the
    query for its address is dispatched, and after everything that
    concerns the address before. *)
Theorem lookupIPs_announces_first (ips : list string) (st : State) :
  exists results st' segs,
    lookupIPs W ips (Some tt) st = (Returned results, st')
    /\ Forall2 lookup_events ips segs
    /\ trace st' = trace st ++ announced (length ips) 0 ips segs.
Proof. apply lookupIPs_from_announced. Qed.

(** *** Pacing *)

Lemma paced_first_query tr : forall last now c i e qs,
  paced last now tr -> queries tr = (c, i, e) :: qs ->
  now <= i /\ last + WHOIS_DELAY <= i.
Proof.
  induction tr as [|ev tr IH]; intros last now c i e qs HP HQ;
    [discriminate|].
  destruct ev as [ms started fired|cmd issued completed|a n t];
    cbn [paced queries] in *.
  - destruct HP as [H1 [H2 [H3 [H4 HP]]]].
    destruct (IH _ _ _ _ _ _ HP HQ). split; lia.
  - inversion HQ; subst. lia.
  - eauto.
Qed.

Lemma paced_spaced tr : forall last now n c1 i1 e1 c2 i2 e2,
  paced last now tr ->
  nth_error (queries tr) n = Some (c1, i1, e1) ->
  nth_error (queries tr) (S n) = Some (c2, i2, e2) ->
  e1 <= i2 /\ i1 + WHOIS_DELAY <= i2.
Proof.
  induction tr as [|ev tr IH]; intros last now n c1 i1 e1 c2 i2 e2 HP H1 H2.
  - destruct n; discriminate.
  - destruct ev as [ms started fired|cmd issued completed|a k t];
      cbn [paced queries] in *.
    + destruct HP as [_ [_ [_ [_ HP]]]]. eauto.
    + destruct HP as [_ [_ [_ HP]]]. destruct n as [|n].
      * cbn in H1, H2. inversion H1; subst.
        destruct (queries tr) as [|[[c i] e] qs] eqn:Q; [discriminate|].
        cbn in H2. inversion H2; subst.
        eapply paced_first_query; eauto.
      * cbn in H1, H2. eauto.
    + eauto.
Qed.

Lemma lookupIPs_from_paced onProgress total : forall ips i results st,
  NoDup ips ->
  (forall ip, In ip ips -> get (whoisCache st) ip = None) ->
  lastWhoisQuery st <= clock st ->
  exists results' st' new,
    lookupIPs_from W onProgress total i ips results st
    = (Returned results', st')
    /\ trace st' = trace st ++ new
    /\ map (fun q => fst (fst q)) (queries new)
       = map (fun ip => ("whois " ++ ip)%string) ips
    /\ lastWhoisQuery st' = last_issued (lastWhoisQuery st) new
    /\ lastWhoisQuery st' <= clock st'
    /\ forall rest, paced (lastWhoisQuery st') (clock st') rest ->
         paced (lastWhoisQuery st) (clock st) (new ++ rest).
Proof.
  induction ips as [|ip0 rest IH]; intros i results st Hnd Hun Hwf.
  - exists results, st, []. cbn. rewrite app_nil_r. repeat split; auto.
  - inversion Hnd as [|? ? Hnotin Hnd']; subst.
    destruct (call_onProgress_shape onProgress ip0 (i + 1)%nat total st)
      as [pre [st0 [E0 [C0 [L0 [K0 [T0 Hpre]]]]]]].
    assert (G0 : get (whoisCache st0) ip0 = None).
    { rewrite C0. apply Hun. now left. }
    destruct (lookupIP_uncached_paced ip0 st0 G0 ltac:(lia))
      as [r0 [st1 [new1 [issued [completed
           [E1 [C1 [T1 [Q1 [LI1 [L1 [K1 [Hic P1]]]]]]]]]]]]].
    destruct (IH (S i) (set results ip0 r0) st1 Hnd')
      as [results' [st' [new' [E' [T' [Q' [L' [W' P']]]]]]]].
    { intros ip Hin. rewrite C1, C0, get_set_other.
      - apply Hun. now right.
      - intros ->. contradiction. }
    { lia. }
    exists results', st', (pre ++ new1 ++ new').
    assert (Hq : forall l, queries (pre ++ l) = queries l).
    { intros l. destruct Hpre as [->| ->]; reflexivity. }
    assert (Hl : forall x l, last_issued x (pre ++ l) = last_issued x l).
    { intros x l. destruct Hpre as [->| ->]; reflexivity. }
    assert (Hp : forall a b l, paced a b l -> paced a b (pre ++ l)).
    { intros a b l. destruct Hpre as [->| ->]; auto. }
    assert (Hq1 : forall l, queries (new1 ++ l) = queries new1 ++ queries l).
    { clear. induction new1 as [|[]]; intros l; cbn; auto.
      now rewrite IHnew1. }
    assert (Hl1 : forall x l, last_issued x (new1 ++ l)
                              = last_issued (last_issued x new1) l).
    { clear. induction new1 as [|[]]; intros x l; cbn; auto. }
    split; [|split; [|split; [|split; [|split]]]].
    + cbn [lookupIPs_from]. unfold bind at 1. rewrite E0.
      unfold bind at 1. rewrite E1. exact E'.
    + rewrite T', T1, T0. now rewrite <- !app_assoc.
    + rewrite Hq, Hq1, Q1. cbn. now rewrite Q'.
    + rewrite Hl, Hl1, L', L1, <- LI1, L0. reflexivity.
    + assumption.
    + intros rest0 Hrest. rewrite <- !app_assoc. apply Hp.
      rewrite <- L0, <- K0. apply P1.
      rewrite <- L1, <- K1. now apply P'.
Qed.

(** C2. For [N] distinct addresses, none of them cached, in a state whose
    [lastWhoisQuery] is not in the future, [lookupIPs] returns after
    issuing exactly the [N] commands [whois ip], in input order (the
    trace lists them one after the other); the new part of the trace is
    paced: time never runs backwards, each timer waits exactly
    [WHOIS_DELAY] less the time elapsed since the previous query was
    issued, and each query is issued, at the moment [lastWhoisQuery] is
    set, at least [WHOIS_DELAY] = 1000 ms after the previous one was
    issued and not before it completed. A resolution answered from the
    cache leaves [lastWhoisQuery] as it is. *)
Theorem lookupIPs_rate_limited (ips : list string)
    (onProgress : option unit) (st : State) :
  NoDup ips ->
  (forall ip, In ip ips -> get (whoisCache st) ip = None) ->
  lastWhoisQuery st <= clock st ->
  exists results st' new,
    lookupIPs W ips onProgress st = (Returned results, st')
    /\ trace st' = trace st ++ new
    /\ map (fun q => fst (fst q)) (queries new)
       = map (fun ip => ("whois " ++ ip)%string) ips
    /\ paced (lastWhoisQuery st) (clock st) new
    /\ lastWhoisQuery st' = last_issued (lastWhoisQuery st) new
    /\ (forall n c1 i1 e1 c2 i2 e2,
          nth_error (queries new) n = Some (c1, i1, e1) ->
          nth_error (queries new) (S n) = Some (c2, i2, e2) ->
          e1 <= i2 /\ i1 + 1000 <= i2)
    /\ (forall ip r st0,
          get (whoisCache st0) ip = Some r ->
          lastWhoisQuery (snd (lookupIP W ip st0)) = lastWhoisQuery st0).
Proof.
  intros Hnd Hun Hwf.
  destruct (lookupIPs_from_paced onProgress (length ips) 0 empty st
              Hnd Hun Hwf)
    as [results [st' [new [E [T [Q [L [_ P]]]]]]]].
  specialize (P [] I). rewrite app_nil_r in P.
  exists results, st', new.
  split; [exact E|]. split; [exact T|]. split; [exact Q|].
  split; [exact P|]. split; [exact L|]. split.
  - intros n c1 i1 e1 c2 i2 e2 H1 H2. change 1000 with WHOIS_DELAY.
    eapply (paced_spaced new); eauto.
  - intros ip r st0 G. now rewrite (lookupIP_cached _ _ G).
Qed.

End WithWorld.

Lemma lookupIPs_rate_limited_witness :
  exists results st',
    lookupIPs sample_world sample_ips (Some tt) sample_start
    = (Returned results, st')
    /\ map (fun q => fst (fst q)) (queries (trace st'))
       = ["whois 203.0.113.5"; "whois 198.51.100.10"].
Proof.
  destruct (@lookupIPs_rate_limited sample_world sample_ips (Some tt)
              sample_start)
    as [results [st' [new [E [T [Q _]]]]]].
  - repeat constructor; simpl; intuition discriminate.
  - intros ip _. reflexivity.
  - vm_compute. discriminate.
  - exists results, st'. split; [exact E|].
    rewrite T. exact Q.
Defined.

(** C6 (as stated) fails: resolving the single address [203.0.113.5] with a
    fresh cache calls the callback first and dispatches the query after
    it. *)
Lemma announces_after_dispatch_fails :
  ~ announces_after_dispatch sample_world ["203.0.113.5"] sample_start.
Proof.
  intros H. specialize (H 0%nat "203.0.113.5" eq_refl).
  destruct H as [before [after [issued [completed [E Hin]]]]].
  vm_compute in E.
  destruct before as [|e0 before]; [contradiction Hin|].
  cbn [app] in E. injection E as E0 E. subst e0.
  destruct before as [|e1 before]; [discriminate E|].
  cbn [app] in E. injection E as _ E.
  destruct before; discriminate E.
Qed.

End LookupProps.

(** ** The classifier *)

Module ClassifierProps.
Import Chars Regex RegexFacts IpExtractor.
Local Open Scope string_scope.

(** *** From a test a character passes to the character itself *)

Lemma in_range_cases (lo hi c : ascii) :
  in_range lo hi c = true ->
  In c (map ascii_of_nat (seq (code lo) (S (code hi) - code lo))).
Proof.
  unfold in_range. intros H. apply andb_true_iff in H as [H1 H2].
  apply Nat.leb_le in H1, H2. rewrite <- (ascii_nat_embedding c).
  apply in_map, in_seq. unfold code in *. lia.
Qed.

Lemma case_of_letter (c : ascii) :
  (c = to_lower c \/ c = to_upper (to_lower c))
  /\ (c = to_upper c \/ c = to_lower (to_upper c)).
Proof.
  destruct c as [[] [] [] [] [] [] [] []]; vm_compute; auto.
Qed.

Lemma lit_i_cases (a c : ascii) :
  ci (is_char a) c = true -> c = to_lower a \/ c = to_upper a.
Proof.
  unfold ci, is_char. intros H.
  destruct (case_of_letter c) as [Hl Hu].
  destruct (case_of_letter a) as [Hal Hau].
  apply orb_true_iff in H as [H|H];
    [apply orb_true_iff in H as [H|H]|]; apply Ascii.eqb_eq in H.
  - subst c. destruct Hal as [Hal|Hal]; [now left|].
    destruct Hau as [Hau|Hau]; [now right|].
    left. rewrite Hau at 1. rewrite Hal at 1.
    destruct a as [[] [] [] [] [] [] [] []]; vm_compute; reflexivity.
  - destruct Hl as [Hl|Hl]; [left|right]; congruence.
  - destruct Hu as [Hu|Hu]; [right|left]; congruence.
Qed.

Lemma hex_i_cases (c : ascii) :
  ci (any_of [in_range "0" "9"; in_range "a" "f"]) c = true ->
  In c (list_ascii_of_string "0123456789abcdefABCDEF").
Proof.
  destruct c as [[] [] [] [] [] [] [] []]; vm_compute;
    intros H; try discriminate H; tauto.
Qed.

(** Turn every character test in the context into the finitely many
    characters that pass it. *)
Ltac pin_chars :=
  repeat match goal with
         | H : is_char _ ?c = true |- _ =>
             is_var c; apply Ascii.eqb_eq in H; subst c
         | H : ci (is_char _) ?c = true |- _ =>
             is_var c; apply lit_i_cases in H; vm_compute in H;
             destruct H as [H|H]; subst c
         | H : is_digit ?c = true |- _ =>
             is_var c; apply in_range_cases in H; vm_compute in H;
             repeat (destruct H as [H|H]; [subst c|]); try contradiction
         | H : in_range _ _ ?c = true |- _ =>
             is_var c; apply in_range_cases in H; vm_compute in H;
             repeat (destruct H as [H|H]; [subst c|]); try contradiction
         | H : ci (any_of _) ?c = true |- _ =>
             is_var c; apply hex_i_cases in H; vm_compute in H;
             repeat (destruct H as [H|H]; [subst c|]); try contradiction
         end.

Ltac break_lang :=
  repeat match goal with
         | H : exists _, _ |- _ => destruct H as [? H]
         | H : _ /\ _ |- _ => destruct H as [? ?]
         | H : _ \/ _ |- _ => destruct H as [H|H]
         | H : ?y = advance _ |- _ => subst y
         | H : ?y = capture _ _ |- _ => subst y
         | H : ?y = start_at _ |- _ => subst y
         end.

Lemma nth_error_next (A : Type) (a : A) (t : list A) (k : nat) :
  nth_error (a :: t) (S k) = nth_error t k.
Proof. reflexivity. Qed.

Lemma nth_error_head (A : Type) (s : list A) (a : A) :
  nth_error s 0 = Some a -> exists t, s = a :: t.
Proof. destruct s; cbn; [discriminate|]. intros [= ->]. eauto. Qed.

(** Expose the first characters of [s] from facts about [nth_error]. *)
Ltac peel s :=
  repeat match goal with
         | H : nth_error s 0 = Some _ |- _ =>
             let t := fresh "t" in
             apply nth_error_head in H; destruct H as [t H]; subst s;
             rename t into s;
             repeat match goal with
                    | Hk : context [nth_error (_ :: s) (S _)] |- _ =>
                        rewrite nth_error_next in Hk
                    end
         end.

Lemma anchored_start (s : list ascii) (r : regex) (j : nat) (y : mstate) :
  lang s (Seq Bol r) (start_at j) y -> lang s r (start_at 0) y.
Proof.
  cbn [lang]. intros [z [[Hj ->] H]]. cbn in Hj. now subst j.
Qed.

Lemma test_anchored (r : regex) (ip : string) :
  well_formed r = true -> test (Seq Bol r) ip = true ->
  exists y, lang (list_ascii_of_string ip) r (start_at 0) y.
Proof.
  intros Hwf H. apply test_sound in H; [|exact Hwf].
  destruct H as [j [y H]]. exists y. eapply anchored_start; eauto.
Qed.

(** One row of a pattern table: from the test to the leading characters
    of the address. *)
Ltac row H :=
  apply test_anchored in H; [|reflexivity];
  destruct H as [y H];
  unfold RuleTable.in_table;
  remember (list_ascii_of_string _) as s eqn:Es; clear Es;
  cbn [lang text text_i word list_ascii_of_string lit lit_i times between
       opt plus star iter] in H;
  break_lang; cbn [pos advance capture start_at] in *.

Lemma private_ipv4_in_table (ip : string) :
  existsb (fun range => test range ip) privateRanges = true ->
  RuleTable.in_table ip = true.
Proof.
  intros H. cbn [existsb privateRanges] in H.
  repeat (apply orb_true_iff in H; destruct H as [H|H]);
    try discriminate H; row H; peel s; pin_chars; reflexivity.
Qed.

Lemma hex_i_value (c : ascii) :
  ci (any_of [in_range "0" "9"; in_range "a" "f"]) c = true ->
  exists v, RuleTable.hex_value c = Some v /\ (0 <= v < 16)%Z.
Proof.
  destruct c as [[] [] [] [] [] [] [] []]; intros H; vm_compute in H;
    try discriminate H; eexists;
    (split; [reflexivity
            | vm_compute; split; [intros E; discriminate E | reflexivity]]).
Qed.

Lemma read_hex_step (c : ascii) (v acc : Z) (l : list ascii) :
  RuleTable.hex_value c = Some v ->
  RuleTable.read_hex acc (c :: l) = RuleTable.read_hex (16 * acc + v) l.
Proof. intros H. cbn [RuleTable.read_hex]. now rewrite H. Qed.

Lemma read_hex_stop (c : ascii) (acc : Z) (l : list ascii) :
  RuleTable.hex_value c = None ->
  RuleTable.read_hex acc (c :: l) = (acc, c :: l).
Proof. intros H. cbn [RuleTable.read_hex]. now rewrite H. Qed.

(** Every first group [fdxx] lies in fc00::/7. *)
Lemma fd_group_in_table (a b c2 c3 : ascii) (v2 v3 : Z) (s : list ascii) :
  RuleTable.hex_value a = Some 15%Z -> RuleTable.hex_value b = Some 13%Z ->
  RuleTable.hex_value c2 = Some v2 -> RuleTable.hex_value c3 = Some v3 ->
  (0 <= v2 < 16)%Z -> (0 <= v3 < 16)%Z ->
  RuleTable.in_ipv6_table (a :: b :: c2 :: c3 :: ":"%char :: s) = true.
Proof.
  intros Ha Hb H2 H3 B2 B3.
  unfold RuleTable.in_ipv6_table. apply orb_true_iff. right.
  unfold RuleTable.group_field. rewrite Ha.
  do 4 (erewrite read_hex_step by eassumption).
  rewrite read_hex_stop by reflexivity.
  replace (is_char ":" ":") with true by reflexivity.
  unfold RuleTable.ipv6_private.
  apply andb_true_iff. split; [apply Z.ltb_lt; lia|].
  apply orb_true_iff. right. apply Z.eqb_eq.
  rewrite !Z.shiftr_div_pow2 by lia.
  change (64512 / 2 ^ 9)%Z with 126%Z. change (2 ^ 9)%Z with 512%Z.
  symmetry.
  apply Z.div_unique with
    (r := (16 * (16 * (16 * (16 * 0 + 15) + 13) + v2) + v3 - 64512)%Z); lia.
Qed.

Lemma private_ipv6_in_table (ip : string) :
  existsb (fun pattern => test pattern ip) ipv6Private = true ->
  RuleTable.in_table ip = true.
Proof.
  intros H. cbn [existsb ipv6Private] in H.
  repeat (apply orb_true_iff in H; destruct H as [H|H]);
    try discriminate H; row H.
  - (* ^::1$ *)
    match goal with H : _ = length s |- _ => rename H into Hlen end.
    peel s. destruct s; [|discriminate Hlen].
    pin_chars; reflexivity.
  - (* ^fe80: *)
    peel s. pin_chars; reflexivity.
  - (* ^fc00: *)
    peel s. pin_chars; reflexivity.
  - (* ^fd[0-9a-f]{2}: *)
    match goal with
    | Hn : 2 <= ?n, Hm : ?n <= 2, Hi : iter ?n _ _ _ |- _ =>
        assert (n = 2) by lia; subst n; clear Hn Hm;
        cbn [iter lang] in Hi
    end.
    break_lang; cbn [pos advance capture start_at] in *.
    peel s.
    repeat match goal with
           | H : ci (any_of _) _ = true |- _ =>
               apply hex_i_value in H; destruct H as [? [? ?]]
           end.
    pin_chars; apply orb_true_iff; right;
      eapply fd_group_in_table; eauto; reflexivity.
Qed.

(** Whatever [isPrivateIP] accepts lies in the rule table. *)
Lemma private_in_table (ip : string) :
  isPrivateIP ip = true -> RuleTable.in_table ip = true.
Proof.
  unfold isPrivateIP. intros H. apply orb_true_iff in H as [H|H].
  - now apply private_ipv4_in_table.
  - now apply private_ipv6_in_table.
Qed.

(** C9. [isPrivateIP] gives the documented answer at each pinned edge of
    the IPv4 rule table, and no address that [extractIPs] finds on any line
    is classified private unless it lies in a range of the rule table. *)
Theorem isPrivateIP_edges_and_table :
  isPrivateIP "10.255.255.255" = true
  /\ isPrivateIP "100.63.0.1" = false
  /\ isPrivateIP "100.64.0.1" = true
  /\ isPrivateIP "100.127.255.255" = true
  /\ isPrivateIP "100.128.0.1" = false
  /\ isPrivateIP "172.15.0.1" = false
  /\ isPrivateIP "172.16.0.1" = true
  /\ isPrivateIP "172.31.255.255" = true
  /\ isPrivateIP "172.32.0.1" = false
  /\ forall line ip,
       In ip (extractIPs line) -> isPrivateIP ip = true ->
       RuleTable.in_table ip = true.
Proof.
  repeat (split; [vm_compute; reflexivity|]).
  intros line ip _. apply private_in_table.
Qed.

Lemma isPrivateIP_edges_and_table_witness :
  RuleTable.in_table "172.31.255.255" = true.
Proof.
  apply (proj2 (proj2 (proj2 (proj2 (proj2 (proj2 (proj2 (proj2 (proj2
           isPrivateIP_edges_and_table))))))))
           "Accepted from 172.31.255.255 port 22").
  - vm_compute. left. reflexivity.
  - vm_compute. reflexivity.
Defined.

(** C7 at the failing inputs: [fe81::1] (in fe80::/10) and [fc01::1] (in
    fc00::/7) lie in the rule table, and [isPrivateIP] answers [false] for
    both; so it does for [feb0::1] and [fcff::1]. *)
Theorem isPrivateIP_misses_ipv6_ranges :
  RuleTable.in_table "fe81::1" = true /\ isPrivateIP "fe81::1" = false
  /\ RuleTable.in_table "fc01::1" = true /\ isPrivateIP "fc01::1" = false
  /\ RuleTable.in_table "feb0::1" = true /\ isPrivateIP "feb0::1" = false
  /\ RuleTable.in_table "fcff::1" = true /\ isPrivateIP "fcff::1" = false.
Proof. repeat split; vm_compute; reflexivity. Qed.

End ClassifierProps.

(** ** The result parser *)

Module ParserProps.
Import Chars Regex RegexFacts AbuseLookup ClassifierProps.
Local Open Scope string_scope.

Lemma slice_In (s : list ascii) (a b p : nat) (c : ascii) :
  a <= p < b -> nth_error s p = Some c -> In c (slice s a b).
Proof.
  intros Hp Hc. unfold slice. apply nth_error_In with (n := p - a).
  rewrite nth_error_firstn.
  destruct (Nat.ltb_spec (p - a) (b - a)); [|lia].
  rewrite nth_error_skipn. now replace (a + (p - a)) with p by lia.
Qed.

(** A reading of the e-mail pattern passes over a dot. *)
Lemma email_address_has_dot (s : list ascii) (x y : mstate) :
  lang s email_address x y ->
  exists p, pos x <= p < pos y /\ nth_error s p = Some "."%char.
Proof.
  unfold email_address. cbn [lang lit_i].
  intros [z1 [L1 [z2 [L2 [z3 [L3 [z4 [L4 L5]]]]]]]].
  destruct L2 as [c2 [_ [_ ->]]]. destruct L4 as [c4 [E4 [H4 ->]]].
  apply lit_i_cases in H4. vm_compute in H4.
  assert (c4 = "."%char) by (destruct H4; assumption). subst c4.
  apply lang_pos_le in L1, L3, L5. cbn [pos advance] in *.
  exists (pos z3). split; [lia | assumption].
Qed.

(** In every abuse pattern, capture 1 is a reading of the e-mail
    pattern. *)
Lemma abuse_pattern_capture (s : list ascii) (pattern : regex)
    (x y : mstate) :
  In pattern abuse_patterns -> lang s pattern x y ->
  exists x' y', cap y = Some (pos x', pos y')
                /\ lang s email_address x' y'.
Proof.
  intros Hin H. cbn [In abuse_patterns] in Hin.
  repeat (destruct Hin as [<-|Hin]); [..|contradiction];
    cbn [lang text_i word list_ascii_of_string lit_i] in H;
    break_lang; cbn [cap advance capture];
    do 2 eexists; (split; [reflexivity | eassumption]).
Qed.

Lemma abuse_patterns_well_formed (pattern : regex) :
  In pattern abuse_patterns -> well_formed pattern = true.
Proof.
  cbn [In abuse_patterns]. intros H.
  repeat (destruct H as [<-|H]; [reflexivity|]). contradiction.
Qed.

Lemma match_group1_has_dot (pattern : regex) (line g : string) :
  In pattern abuse_patterns -> match_group1 pattern line = Some g ->
  In "."%char (list_ascii_of_string g).
Proof.
  intros Hin. unfold match_group1.
  destruct (exec_from _ pattern 0) as [[j y]|] eqn:E; [|discriminate].
  apply exec_from_sound in E; [|now apply abuse_patterns_well_formed].
  destruct E as [_ [_ L]].
  eapply abuse_pattern_capture in L; [|exact Hin].
  destruct L as [x' [y' [Hc Le]]]. rewrite Hc.
  apply email_address_has_dot in Le. destruct Le as [p [Hp Hd]].
  pose proof (@slice_In _ _ _ _ _ Hp Hd) as Hs.
  destruct (slice _ (pos x') (pos y')) as [|c l] eqn:Es; [contradiction|].
  intros [= <-].
  change (In "."%char (list_ascii_of_string (string_of_list_ascii (c :: l)))).
  now rewrite list_ascii_of_string_of_list_ascii.
Qed.

Lemma first_capture_from (patterns : list regex) (str g : string) :
  first_capture patterns str = Some g ->
  exists pattern, In pattern patterns /\ match_group1 pattern str = Some g.
Proof.
  induction patterns as [|pattern rest IH]; cbn; [discriminate|].
  destruct (match_group1 pattern str) as [g'|] eqn:E.
  - intros [= <-]. eauto.
  - intros H. destruct (IH H) as [q [Hq Hm]]. eauto.
Qed.

Lemma first_in_lines_from (patterns : list regex) (lines : list string)
    (g : string) :
  first_in_lines patterns lines = Some g ->
  exists line, In line lines /\ first_capture patterns line = Some g.
Proof.
  induction lines as [|line rest IH]; cbn; [discriminate|].
  destruct (first_capture patterns line) as [g'|] eqn:E.
  - intros [= <-]. eauto.
  - intros H. destruct (IH H) as [l [Hl Hm]]. eauto.
Qed.

(** Every contact the parser returns contains a dot. *)
Lemma extractAbuseEmail_has_dot (whoisOutput email : string) :
  extractAbuseEmail whoisOutput = Some email ->
  In "."%char (list_ascii_of_string email).
Proof.
  unfold extractAbuseEmail.
  destruct (first_in_lines _ _) as [g|] eqn:E; [|discriminate].
  cbn [option_map]. intros [= <-].
  apply first_in_lines_from in E. destruct E as [line [_ E]].
  apply first_capture_from in E. destruct E as [pattern [Hin E]].
  eapply match_group1_has_dot in E; [|exact Hin].
  unfold toLowerCase. rewrite list_ascii_of_string_of_list_ascii.
  change "."%char with (to_lower "."). now apply in_map.
Qed.

(** C10 (as stated) fails: no directory text is parsed to the contact
    ['unknown@unknown']. *)
Lemma extractAbuseEmail_never_unknown :
  ~ exists whoisOutput,
      extractAbuseEmail whoisOutput = Some "unknown@unknown".
Proof.
  intros [whoisOutput H]. apply extractAbuseEmail_has_dot in H.
  cbn in H. intuition discriminate.
Qed.

End ParserProps.

(** ** The report composer and the unresolved bucket *)

Module ReportProps.
Import Chars JsMap JsMapFacts AbuseLookup EmailGenerator.
Import AggregatorProps ParserProps.
Local Open Scope string_scope.
Local Open Scope list_scope.

Lemma In_get (V : Type) (m : JsMap.t V) (k : string) (v : V) :
  NoDup (keys m) -> In (k, v) m -> get m k = Some v.
Proof.
  induction m as [|[k0 v0] m IH]; cbn; [contradiction|].
  intros Hnd [H|H]; inversion Hnd as [|? ? Hnotin Hnd']; subst.
  - inversion H; subst. now rewrite String.eqb_refl.
  - destruct (String.eqb_spec k0 k) as [->|Hne]; [|now apply IH].
    exfalso. apply Hnotin. change k with (fst (k, v)). now apply in_map.
Qed.

Lemma same_key_same_item (A B : Type) (f : A -> B) (l : list A) (a b : A) :
  NoDup (map f l) -> In a l -> In b l -> f a = f b -> a = b.
Proof.
  induction l as [|x l IH]; cbn; [contradiction|].
  intros Hnd Ha Hb E. inversion Hnd as [|? ? Hnotin Hnd']; subst.
  destruct Ha as [->|Ha], Hb as [->|Hb]; auto.
  - exfalso. apply Hnotin. rewrite E. now apply in_map.
  - exfalso. apply Hnotin. rewrite <- E. now apply in_map.
Qed.

Section Reports.
Variables (now_utc now_iso : string).
Variables (ipLogMap : JsMap.t (list string)) (options : Options).

(** Every report comes from a group whose key is not the unresolved key. *)
Lemma generateAllEmails_from (groups : JsMap.t (list LookupRecord)) :
  forall acc e,
    In e (fold_left (add_email now_utc now_iso ipLogMap options) groups acc) ->
    In e acc
    \/ exists k infos, In (k, infos) groups /\ k <> "unknown@unknown"
         /\ e = generateEmail now_utc now_iso k infos ipLogMap options.
Proof.
  induction groups as [|[k infos] groups IH]; intros acc e H; cbn in H.
  - now left.
  - apply IH in H. destruct H as [H|[k' [infos' [H1 [H2 H3]]]]].
    + destruct (String.eqb_spec k "unknown@unknown") as [->|Hne].
      * now left.
      * apply in_app_or in H. destruct H as [H|[<-|[]]]; [now left|].
        right. exists k, infos. split; [now left | auto].
    + right. exists k', infos'. split; [now right | auto].
Qed.

(** C10 (amended). No directory text is parsed to the contact
    ['unknown@unknown']: every parsed contact contains a dot. A record that
    carries this contact all the same is treated as unresolved:
    [groupByAbuseEmail] files it under the key ['unknown@unknown'] together
    with the records that have no contact, [generateUnknownIPsSummary]
    lists its address, and [generateAllEmails] emits no report addressed to
    that key, nor (the addresses of the records being distinct) any report
    that covers its address. *)
Theorem unknown_contact_is_unresolved
    (whoisResults : JsMap.t LookupRecord) (r : LookupRecord) :
  In r (values whoisResults) ->
  abuseEmail r = Some "unknown@unknown" ->
  NoDup (map ip (values whoisResults)) ->
  let groups := groupByAbuseEmail whoisResults in
  (forall whoisOutput,
     extractAbuseEmail whoisOutput <> Some "unknown@unknown")
  /\ (exists g,
        get groups "unknown@unknown" = Some g /\ In r g
        /\ (forall r', In r' (values whoisResults) ->
                       abuseEmail r' = None -> In r' g)
        /\ generateUnknownIPsSummary groups
           = Some (join (String newline "") (unknown_summary_lines g))
        /\ In ("  " ++ ip r)%string (unknown_summary_lines g))
  /\ (forall e,
        In e (generateAllEmails now_utc now_iso groups ipLogMap options) ->
        to e <> "unknown@unknown" /\ ~ In (ip r) (ips e)).
Proof.
  intros Hin Hr Hnd groups.
  assert (Kr : group_key r = "unknown@unknown").
  { unfold group_key. now rewrite Hr. }
  split; [|split].
  - intros whoisOutput H. apply extractAbuseEmail_has_dot in H.
    cbn in H. intuition discriminate.
  - pose proof (get_group whoisResults "unknown@unknown") as G.
    fold groups in G.
    set (g := filter (fun r' => String.eqb (group_key r') "unknown@unknown")
                (values whoisResults)) in *.
    assert (Hg : In r g).
    { apply filter_In. split; [assumption|]. now rewrite Kr. }
    destruct g as [|r0 g'] eqn:Eg; [contradiction|].
    exists (r0 :: g'). split; [exact G|]. split; [exact Hg|]. split; [|split].
    + intros r' Hin' Hnone. rewrite <- Eg. apply filter_In.
      split; [assumption|]. unfold group_key. now rewrite Hnone.
    + unfold generateUnknownIPsSummary. now rewrite G.
    + unfold unknown_summary_lines. apply in_or_app. right.
      apply in_or_app. left. apply in_flat_map.
      exists r. split; [exact Hg|]. now left.
  - intros e He. unfold generateAllEmails in He.
    apply generateAllEmails_from in He.
    destruct He as [[]|[k [infos [Hk [Hne ->]]]]].
    cbn [to ips generateEmail]. split; [exact Hne|].
    intros Hip. apply in_map_iff in Hip. destruct Hip as [r' [Eip Hr']].
    apply In_get in Hk.
    2:{ unfold groups. rewrite groupByAbuseEmail_file.
        apply NoDup_keys_file. constructor. }
    unfold groups in Hk. rewrite get_group in Hk.
    destruct (filter _ _) as [|r0 g'] eqn:Eg; [discriminate|].
    injection Hk as <-. rewrite <- Eg in Hr'.
    apply filter_In in Hr'. destruct Hr' as [Hin' Hkey].
    apply String.eqb_eq in Hkey.
    assert (r' = r) by (eapply same_key_same_item; eauto).
    subst r'. congruence.
Qed.
End Reports.

Definition literal_unknown : LookupRecord :=
  {| ip := "192.0.2.7"; abuseEmail := Some "unknown@unknown";
     orgName := Some "Example Net"; netRange := None; country := None;
     rawWhois := None; error := None |}.

Definition mixed_results : JsMap.t LookupRecord :=
  [ ("192.0.2.7", literal_unknown);
    ("198.51.100.10", failure_record "198.51.100.10" "timeout");
    ("5.6.7.8", provider_record) ].

Lemma unknown_contact_is_unresolved_witness :
  exists g,
    get (groupByAbuseEmail mixed_results) "unknown@unknown" = Some g
    /\ In literal_unknown g.
Proof.
  destruct (@unknown_contact_is_unresolved "" "" [] no_options
              mixed_results literal_unknown)
    as [_ [[g [G [Hg _]]] _]].
  - cbn. left. reflexivity.
  - reflexivity.
  - cbn. repeat constructor; cbn; intuition discriminate.
  - exists g. split; assumption.
Defined.

End ReportProps.

(** ** The address extractor *)

Module ExtractorProps.
Import Chars Regex RegexFacts IpExtractor.
Local Open Scope string_scope.
Local Open Scope list_scope.
Local Open Scope nat_scope.

(** A group of one to four hexadecimal digits. *)
Definition hex_group (g : list ascii) : bool :=
  (1 <=? length g) && (length g <=? 4) && forallb is_hex g.

Definition with_colon (g : list ascii) : list ascii := g ++ [":"%char].

(** The characters an IPv6 match is made of. *)
Definition ipv6_alphabet (c : ascii) : bool :=
  is_hex c || is_char ":" c || is_char "." c.

(** What may stand before a literal (nothing, or a character that is
    neither a word character nor a colon or a dot) and after it (nothing,
    or a character that is not a word character). *)
Definition separated_before (pre : list ascii) : bool :=
  match rev pre with
  | [] => true
  | c :: _ => negb (is_word c) && negb (ipv6_alphabet c)
  end.

Definition separated_after (post : list ascii) : bool :=
  match post with
  | [] => true
  | c :: _ => negb (is_word c)
  end.

Definition moved (x : mstate) (k : nat) : mstate :=
  {| pos := pos x + k; cap := cap x |}.

Lemma moved_0 (x : mstate) : moved x 0 = x.
Proof. destruct x. unfold moved; cbn. now rewrite Nat.add_0_r. Qed.

Lemma moved_advance (x : mstate) (k : nat) :
  moved (advance x) k = moved x (S k).
Proof. unfold moved, advance; cbn. f_equal. lia. Qed.

Lemma moved_moved (x : mstate) (k n : nat) :
  moved (moved x k) n = moved x (k + n).
Proof. unfold moved; cbn. f_equal. lia. Qed.

Section Greedy.
Variable s : list ascii.

(** A greedy quantifier over a character set takes the whole run of [k]
    characters of the set when the continuation accepts that. *)
Lemma rep_chr_greedy (p : ascii -> bool) : forall k hi lo x c res,
  lo <= k <= hi ->
  (forall i, i < k ->
     exists ch, nth_error s (pos x + i) = Some ch /\ p ch = true) ->
  (k = hi \/ match nth_error s (pos x + k) with
             | Some ch => p ch = false
             | None => True
             end) ->
  c (moved x k) = Some res ->
  rep (run s (Chr p)) true hi lo x c = Some res.
Proof.
  induction k as [|k IH]; intros hi lo x c res Hk Hrun Hstop Hc.
  - assert (lo = 0) by lia. subst lo. rewrite moved_0 in Hc.
    destruct hi as [|hi]; [exact Hc|].
    cbn [rep Nat.eqb negb run].
    destruct Hstop as [Hstop|Hstop]; [discriminate|].
    rewrite Nat.add_0_r in Hstop.
    destruct (nth_error s (pos x)) as [ch|]; [|exact Hc].
    now rewrite Hstop.
  - destruct hi as [|hi]; [lia|].
    assert (Hbody :
      run s (Chr p) x
        (fun y => if (lo =? 0) && (pos y =? pos x) then None
                  else rep (run s (Chr p)) true hi (Nat.pred lo) y c)
      = Some res).
    { cbn [run]. destruct (Hrun 0 ltac:(lia)) as [ch [E Hp]].
      rewrite Nat.add_0_r in E. rewrite E, Hp.
      replace (pos (advance x) =? pos x) with false
        by (symmetry; apply Nat.eqb_neq; cbn; lia).
      rewrite andb_false_r. apply (IH hi (Nat.pred lo)).
      - lia.
      - intros i Hi. destruct (Hrun (S i) ltac:(lia)) as [ch' [E' Hp']].
        exists ch'. split; [|assumption].
        cbn [pos advance]. now replace (S (pos x) + i) with (pos x + S i) by lia.
      - destruct Hstop as [Hstop|Hstop]; [left; lia|right].
        cbn [pos advance].
        now replace (S (pos x) + k) with (pos x + S k) by lia.
      - now rewrite moved_advance. }
    cbn [rep]. destruct (negb (lo =? 0)); [exact Hbody|].
    now rewrite Hbody.
Qed.

(** Reading one group followed by a colon. *)
Lemma run_h16_colon (l1 g l2 : list ascii) (x : mstate) (c : cont)
    (res : mstate) :
  s = l1 ++ with_colon g ++ l2 -> pos x = length l1 ->
  hex_group g = true ->
  c (moved x (length (with_colon g))) = Some res ->
  run s h16_colon x c = Some res.
Proof.
  intros Hs Hx Hg Hc. unfold hex_group in Hg.
  apply andb_true_iff in Hg as [Hg Hhex].
  apply andb_true_iff in Hg as [Hlo Hhi].
  apply Nat.leb_le in Hlo, Hhi. rewrite forallb_forall in Hhex.
  unfold h16_colon, h16, between, with_colon in *.
  cbn [run rep_bound].
  assert (Hat : forall i, nth_error s (pos x + i)
                          = nth_error (g ++ [":"%char] ++ l2) i).
  { intros i. rewrite Hs, Hx, <- app_assoc.
    rewrite nth_error_app2 by lia. f_equal. lia. }
  apply rep_chr_greedy with (k := length g).
  - lia.
  - intros i Hi. rewrite Hat, nth_error_app1 by assumption.
    destruct (nth_error g i) as [ch|] eqn:E.
    + exists ch. split; [reflexivity|]. apply Hhex. eapply nth_error_In; eauto.
    + apply nth_error_None in E. lia.
  - right. rewrite Hat, nth_error_app2 by lia.
    rewrite Nat.sub_diag. reflexivity.
  - cbn [run pos moved lit]. rewrite Hat, nth_error_app2 by lia.
    rewrite Nat.sub_diag. cbn [nth_error app].
    replace (is_char ":" ":") with true by reflexivity.
    rewrite <- Hc. f_equal. unfold advance, moved; cbn.
    f_equal. rewrite length_app. cbn. lia.
Qed.

(** Reading the last group, up to a word boundary. *)
Lemma run_h16_end (l1 g l2 : list ascii) (x : mstate) (c : cont)
    (res : mstate) :
  s = l1 ++ g ++ l2 -> pos x = length l1 ->
  hex_group g = true -> separated_after l2 = true ->
  c (moved x (length g)) = Some res ->
  run s (Seq h16 WordB) x c = Some res.
Proof.
  intros Hs Hx Hg Hafter Hc. unfold hex_group in Hg.
  apply andb_true_iff in Hg as [Hg Hhex].
  apply andb_true_iff in Hg as [Hlo Hhi].
  apply Nat.leb_le in Hlo, Hhi. rewrite forallb_forall in Hhex.
  unfold h16, between. cbn [run rep_bound].
  assert (Hat : forall i, nth_error s (pos x + i) = nth_error (g ++ l2) i).
  { intros i. rewrite Hs, Hx. rewrite nth_error_app2 by lia. f_equal. lia. }
  assert (Hword : forall ch, is_hex ch = true -> is_word ch = true).
  { apply subset_spec. vm_compute. reflexivity. }
  assert (Hnext : match nth_error s (pos x + length g) with
                  | Some ch => is_word ch = false
                  | None => True
                  end).
  { rewrite Hat, nth_error_app2 by lia. rewrite Nat.sub_diag.
    destruct l2 as [|ch l2]; cbn in *; [exact I|].
    now apply negb_true_iff in Hafter. }
  apply rep_chr_greedy with (k := length g).
  - lia.
  - intros i Hi. rewrite Hat, nth_error_app1 by assumption.
    destruct (nth_error g i) as [ch|] eqn:E.
    + exists ch. split; [reflexivity|]. apply Hhex. eapply nth_error_In; eauto.
    + apply nth_error_None in E. lia.
  - right. destruct (nth_error s (pos x + length g)) as [ch|]; [|exact I].
    destruct (is_hex ch) eqn:E; [|reflexivity].
    apply Hword in E. congruence.
  - cbn [pos moved]. unfold at_boundary, word_before, word_at.
    destruct (length g) as [|n] eqn:En; [lia|].
    replace (pos x + S n) with (S (pos x + n)) by lia.
    rewrite Hat, nth_error_app1 by lia.
    destruct (nth_error g n) as [ch|] eqn:E.
    2:{ apply nth_error_None in E. lia. }
    rewrite (Hword ch) by (apply Hhex; eapply nth_error_In; eauto).
    replace (S (pos x + n)) with (pos x + S n) by lia.
    destruct (nth_error s (pos x + S n)) as [ch'|].
    + rewrite Hnext. cbn [xorb]. rewrite <- Hc. reflexivity.
    + cbn [xorb]. rewrite <- Hc. reflexivity.
Qed.

(** Reading [n] groups, each followed by a colon, with [{n}]. *)
Lemma rep_groups : forall gs l1 l2 x c res,
  s = l1 ++ concat (map with_colon gs) ++ l2 -> pos x = length l1 ->
  forallb hex_group gs = true ->
  c (moved x (length (concat (map with_colon gs)))) = Some res ->
  rep (run s h16_colon) true (length gs) (length gs) x c = Some res.
Proof.
  induction gs as [|g gs IH]; intros l1 l2 x c res Hs Hx Hgs Hc.
  - cbn in *. now rewrite moved_0 in Hc.
  - cbn [forallb] in Hgs. apply andb_true_iff in Hgs as [Hg Hgs].
    cbn [length rep Nat.eqb negb Nat.pred andb].
    cbn [map concat] in Hs, Hc. rewrite <- app_assoc in Hs.
    eapply run_h16_colon; eauto.
    apply (IH (l1 ++ with_colon g) l2).
    + rewrite Hs. now rewrite <- !app_assoc.
    + cbn [pos moved]. rewrite length_app. lia.
    + assumption.
    + rewrite moved_moved, <- length_app. exact Hc.
Qed.
End Greedy.

Lemma run_alt_left (s : list ascii) (r1 r2 : regex) (x : mstate) (c : cont)
    (z : mstate) :
  run s r1 x c = Some z -> run s (Alt r1 r2) x c = Some z.
Proof. intros H. cbn [run]. now rewrite H. Qed.

(** *** The search loop reaches a match that nothing before it overlaps *)

Section Loop.
Variables (s : list ascii) (r : regex) (B : nat) (yB : mstate).
Hypothesis Hsucc : run s r (start_at B) Some = Some yB.
Hypothesis Hearly : forall j y,
  j < B -> run s r (start_at j) Some = Some y -> j <= pos y < B.
Hypothesis HB : B <= length s.

Lemma search_reaches : forall fuel i,
  i <= B -> B - i < fuel ->
  exists j y, search s r fuel i = Some (j, y)
              /\ i <= j <= B /\ run s r (start_at j) Some = Some y.
Proof.
  induction fuel as [|fuel IH]; intros i Hi Hf; [lia|].
  change (search s r (S fuel) i)
    with (match run s r (start_at i) Some with
          | Some y => Some (i, y)
          | None => search s r fuel (S i)
          end).
  destruct (run s r (start_at i) Some) as [y|] eqn:E.
  - exists i, y. split; [reflexivity|]. split; [lia | exact E].
  - assert (i <> B) by (intros ->; congruence).
    destruct (IH (S i)) as [j [y [Hs [Hj Hr]]]]; try lia.
    exists j, y. split; [exact Hs|]. split; [lia | exact Hr].
Qed.

Lemma match_loop_reaches : forall fuel start,
  start <= B -> B - start < fuel ->
  In (slice s B (pos yB)) (match_loop s r fuel start).
Proof.
  induction fuel as [|fuel IH]; intros start Hstart Hf; [lia|].
  cbn [match_loop]. unfold exec_from.
  destruct (Nat.ltb_spec (length s) start); [lia|].
  destruct (@search_reaches (S (length s - start)) start)
    as [j [y [Hs [Hj Hr]]]]; try lia.
  rewrite Hs. destruct (Nat.eq_dec j B) as [->|Hne].
  - left. congruence.
  - right. assert (Hy : j <= pos y < B) by (apply Hearly; [lia|assumption]).
    apply IH; destruct (Nat.eqb_spec (pos y) j); lia.
Qed.
End Loop.

(** *** A full-form literal between separators *)

Section FullForm.
Variables (pre post : list ascii) (gs : list (list ascii)) (g8 : list ascii).
Hypothesis Hn : length gs = 7.
Hypothesis Hgs : forallb hex_group gs = true.
Hypothesis Hg8 : hex_group g8 = true.
Hypothesis Hpre : separated_before pre = true.
Hypothesis Hpost : separated_after post = true.

Let literal : list ascii := concat (map with_colon gs) ++ g8.
Let s : list ascii := pre ++ literal ++ post.

Lemma hex_is_word (ch : ascii) : is_hex ch = true -> is_word ch = true.
Proof. apply subset_spec. vm_compute. reflexivity. Qed.

Lemma boundary_before_literal : at_boundary s (length pre) = true.
Proof.
  unfold at_boundary, word_before, word_at, s, literal.
  assert (Hat : exists c1 rest, is_hex c1 = true
                  /\ concat (map with_colon gs) ++ g8 = c1 :: rest).
  { destruct gs as [|g1 gs']; [discriminate Hn|].
    cbn [forallb] in Hgs. apply andb_true_iff in Hgs as [Hg1 _].
    unfold hex_group in Hg1. apply andb_true_iff in Hg1 as [Hl Hh].
    destruct g1 as [|c1 g1']; [discriminate Hl|].
    cbn [forallb] in Hh. apply andb_true_iff in Hh as [Hc1 _].
    exists c1. eexists. split; [assumption|]. cbn. reflexivity. }
  destruct Hat as [c1 [rest [Hc1 ->]]].
  rewrite nth_error_app2 by lia. rewrite Nat.sub_diag. cbn [nth_error app].
  rewrite (hex_is_word _ Hc1).
  unfold separated_before in Hpre.
  destruct (rev pre) as [|c rp] eqn:Er.
  - apply (f_equal (@rev ascii)) in Er. rewrite rev_involutive in Er.
    rewrite Er. reflexivity.
  - apply (f_equal (@rev ascii)) in Er. rewrite rev_involutive in Er.
    cbn [rev] in Er. rewrite Er, length_app. cbn [length].
    replace (length (rev rp) + 1) with (S (length (rev rp))) by lia.
    rewrite <- app_assoc. rewrite nth_error_app2 by lia.
    rewrite Nat.sub_diag. cbn [nth_error app].
    apply andb_true_iff in Hpre as [Hw _].
    apply negb_true_iff in Hw. now rewrite Hw.
Qed.

Lemma full_form_matches :
  run s IPV6_REGEX (start_at (length pre)) Some
  = Some (moved (start_at (length pre)) (length literal)).
Proof.
  unfold IPV6_REGEX. apply run_alt_left.
  change (run s (Seq WordB (Seq (times 7 h16_colon) (Seq h16 WordB)))
            (start_at (length pre)) Some)
    with (if at_boundary s (length pre)
          then rep (run s h16_colon) true 7 7 (start_at (length pre))
                 (fun y => run s (Seq h16 WordB) y Some)
          else None).
  rewrite boundary_before_literal. rewrite <- Hn.
  apply (@rep_groups s gs pre (g8 ++ post)).
  - unfold s, literal. now rewrite <- app_assoc.
  - reflexivity.
  - exact Hgs.
  - apply (@run_h16_end s (pre ++ concat (map with_colon gs)) g8 post).
    + unfold s, literal. now rewrite <- !app_assoc.
    + cbn [pos moved start_at]. now rewrite length_app.
    + exact Hg8.
    + exact Hpost.
    + rewrite moved_moved. unfold literal. now rewrite length_app.
Qed.

Lemma nothing_overlaps (j : nat) (y : mstate) :
  j < length pre -> run s IPV6_REGEX (start_at j) Some = Some y ->
  j <= pos y < length pre.
Proof.
  intros Hj H. apply run_sound in H; [|reflexivity].
  destruct H as [y' [L [= ->]]].
  pose proof (lang_pos_le _ _ _ _ L) as Hle. cbn [pos start_at] in Hle.
  split; [assumption|].
  destruct (Nat.lt_ge_cases (pos y) (length pre)) as [|Hge]; [assumption|].
  exfalso.
  assert (W : within ipv6_alphabet IPV6_REGEX = true)
    by (vm_compute; reflexivity).
  pose proof (@lang_within s ipv6_alphabet IPV6_REGEX W (start_at j) y L)
    as Sp.
  destruct (Sp (length pre - 1)) as [ch [E P]].
  { cbn [pos start_at]. lia. }
  unfold separated_before in Hpre.
  destruct (rev pre) as [|c rp] eqn:Er.
  - apply (f_equal (@rev ascii)) in Er. rewrite rev_involutive in Er.
    rewrite Er in Hj. cbn in Hj. lia.
  - apply (f_equal (@rev ascii)) in Er. rewrite rev_involutive in Er.
    cbn [rev] in Er. unfold s in E. rewrite Er in E.
    rewrite length_app in E. cbn [length] in E.
    replace (length (rev rp) + 1 - 1) with (length (rev rp)) in E by lia.
    rewrite <- app_assoc in E. rewrite nth_error_app2 in E by lia.
    rewrite Nat.sub_diag in E. cbn [nth_error app] in E.
    injection E as <-.
    apply andb_true_iff in Hpre as [_ Ha].
    apply negb_true_iff in Ha. congruence.
Qed.

Lemma full_form_found :
  In literal (match_loop s IPV6_REGEX (S (S (length s))) 0).
Proof.
  assert (E : slice s (length pre)
                (pos (moved (start_at (length pre)) (length literal)))
              = literal).
  { unfold slice, s. cbn [pos moved start_at].
    replace (length pre + length literal - length pre)
      with (length literal) by lia.
    rewrite skipn_app, Nat.sub_diag, skipn_all. cbn [skipn app].
    rewrite firstn_app, Nat.sub_diag, firstn_all. cbn [firstn].
    now rewrite app_nil_r. }
  rewrite <- E.
  apply match_loop_reaches.
  - apply full_form_matches.
  - apply nothing_overlaps.
  - unfold s. rewrite length_app. lia.
  - lia.
  - unfold s. rewrite length_app. lia.
Qed.
End FullForm.

(** *** The same on strings *)

Lemma list_ascii_of_string_app (a b : string) :
  list_ascii_of_string (a ++ b)%string
  = list_ascii_of_string a ++ list_ascii_of_string b.
Proof. induction a as [|c a IH]; cbn; [reflexivity | now rewrite IH]. Qed.

Lemma join_cons (sep x : string) (l : list string) :
  l <> [] -> join sep (x :: l) = (x ++ sep ++ join sep l)%string.
Proof. destruct l; [congruence | reflexivity]. Qed.

Lemma join_colon_last (gs : list string) (g : string) :
  list_ascii_of_string (join ":" (gs ++ [g]))
  = concat (map with_colon (map list_ascii_of_string gs))
    ++ list_ascii_of_string g.
Proof.
  induction gs as [|x gs IH]; [reflexivity|].
  cbn [app]. rewrite join_cons by (destruct gs; discriminate).
  rewrite !list_ascii_of_string_app, IH. cbn [map concat].
  unfold with_colon at 2. now rewrite <- !app_assoc.
Qed.

(** C8 (amended). For every literal in the full form, eight groups of one
    to four hexadecimal digits joined by colons, and every line in which
    the literal stands at the start or after a character that is neither a
    word character, a colon nor a dot, and at the end or before a character
    that is not a word character, [extractIPs] returns the literal among
    its IPv6 matches. (Nothing is said of the compressed forms and of the
    forms that embed a dotted quad.) *)
Theorem extractIPs_finds_full_form (pre post : string)
    (groups : list string) :
  length groups = 8 ->
  forallb (fun g => hex_group (list_ascii_of_string g)) groups = true ->
  separated_before (list_ascii_of_string pre) = true ->
  separated_after (list_ascii_of_string post) = true ->
  let literal := join ":" groups in
  let line := (pre ++ literal ++ post)%string in
  In literal (extractIPv6 line) /\ In literal (extractIPs line).
Proof.
  intros Hlen Hgroups Hpre Hpost literal line.
  assert (H6 : In literal (extractIPv6 line)).
  { destruct (@exists_last _ groups) as [gs [g8 E]].
    { intros ->. discriminate Hlen. }
    subst groups. rewrite length_app in Hlen. cbn [length] in Hlen.
    rewrite forallb_app in Hgroups. cbn [forallb] in Hgroups.
    apply andb_true_iff in Hgroups as [Hgs Hg8].
    rewrite andb_true_r in Hg8.
    unfold extractIPv6, match_global, line.
    rewrite !list_ascii_of_string_app. unfold literal.
    rewrite join_colon_last.
    rewrite <- (string_of_list_ascii_of_string (join ":" (gs ++ [g8]))).
    rewrite join_colon_last. apply in_map.
    apply full_form_found; try assumption.
    - rewrite length_map. lia.
    - rewrite forallb_forall in *. intros g Hg.
      apply in_map_iff in Hg. destruct Hg as [g0 [<- Hg0]]. now apply Hgs. }
  split; [exact H6|]. unfold extractIPs. apply in_or_app. now right.
Qed.

Lemma extractIPs_finds_full_form_witness :
  In "2001:db8:85a3:0000:0000:8a2e:0370:7334"
     (extractIPv6 "Failed login from 2001:db8:85a3:0000:0000:8a2e:0370:7334").
Proof.
  apply (@extractIPs_finds_full_form "Failed login from " ""
           ["2001"; "db8"; "85a3"; "0000"; "0000"; "8a2e"; "0370"; "7334"]);
    reflexivity.
Defined.

(** C8 (as stated) fails: of [0:0:0:0:0:ffff:192.0.2.1], the full form
    with an embedded dotted quad, for which the pattern has no alternative,
    only the dotted quad is found; so it is for [::ffff:192.0.2.1]; [::1]
    alone on a line is not matched at all, and the compressed literal
    [2001:db8::1] is cut short to [2001:db8::]. *)
Lemma compressed_forms_missed :
  ~ In "0:0:0:0:0:ffff:192.0.2.1" (extractIPs "0:0:0:0:0:ffff:192.0.2.1")
  /\ ~ In "::ffff:192.0.2.1" (extractIPs "::ffff:192.0.2.1")
  /\ ~ In "::1" (extractIPs "::1")
  /\ ~ In "2001:db8::1" (extractIPs "Failed login from 2001:db8::1 port 22").
Proof.
  repeat split; vm_compute; intuition discriminate.
Qed.

End ExtractorProps.

(* ===================================================================== *)
(** * Further properties of the code *)
(* ===================================================================== *)

(** ** More facts about the matcher *)

Module MatchFacts.
Import Chars Regex RegexFacts.
Local Open Scope list_scope.
Local Open Scope nat_scope.

(** The least number of characters a reading of the pattern consumes. *)
Fixpoint min_len (r : regex) : nat :=
  match r with
  | Chr _ => 1
  | Seq r1 r2 => min_len r1 + min_len r2
  | Alt r1 r2 => Nat.min (min_len r1) (min_len r2)
  | Rep _ lo _ r' => lo * min_len r'
  | Grp r' => min_len r'
  | _ => 0
  end.

Section Readings.
Variable s : list ascii.

Lemma iter_min_len (R : mstate -> mstate -> Prop) (k : nat) :
  (forall x y, R x y -> pos x + k <= pos y) ->
  forall n x y, iter n R x y -> pos x + n * k <= pos y.
Proof.
  intros HR. induction n as [|n IH]; intros x y H; cbn in H.
  - subst. cbn. lia.
  - destruct H as [z [H1 H2]]. apply HR in H1. apply IH in H2. cbn. lia.
Qed.

Lemma lang_min_len (r : regex) : forall x y,
  lang s r x y -> pos x + min_len r <= pos y.
Proof.
  induction r as [|p|r1 IH1 r2 IH2|r1 IH1 r2 IH2|g lo hi r IH|r IH| | |];
    intros x y H; cbn [lang min_len] in *.
  - subst; lia.
  - destruct H as [ch [_ [_ ->]]]. cbn. lia.
  - destruct H as [z [H1 H2]]. apply IH1 in H1. apply IH2 in H2. lia.
  - destruct H as [H|H]; [apply IH1 in H | apply IH2 in H]; lia.
  - destruct H as [n [Hlo [_ H]]].
    apply (iter_min_len _ (min_len r) IH) in H.
    assert (lo * min_len r <= n * min_len r) by (apply Nat.mul_le_mono_r; lia).
    lia.
  - destruct H as [z [H ->]]. apply IH in H. cbn. lia.
  - destruct H as [_ ->]; lia.
  - destruct H as [_ ->]; lia.
  - destruct H as [_ ->]; lia.
Qed.

(** A reading never runs past the end of the subject. *)
Lemma lang_in_bounds (r : regex) : forall x y,
  lang s r x y -> pos x <= length s -> pos y <= length s.
Proof.
  induction r as [|p|r1 IH1 r2 IH2|r1 IH1 r2 IH2|g lo hi r IH|r IH| | |];
    intros x y H Hx; cbn [lang] in *.
  - now subst.
  - destruct H as [ch [E [_ ->]]]. cbn.
    assert (pos x < length s) by (apply nth_error_Some; congruence). lia.
  - destruct H as [z [H1 H2]]. eauto.
  - destruct H as [H|H]; eauto.
  - destruct H as [n [_ [_ H]]]. revert x H Hx.
    induction n as [|n IHn]; intros x H Hx; cbn in H.
    + now subst.
    + destruct H as [z [H1 H2]]. eauto.
  - destruct H as [z [H ->]]. cbn. eauto.
  - destruct H as [_ ->]; assumption.
  - destruct H as [_ ->]; assumption.
  - destruct H as [_ ->]; assumption.
Qed.

Lemma slice_length (i e : nat) :
  i <= e <= length s -> length (slice s i e) = e - i.
Proof.
  intros H. unfold slice. rewrite length_firstn, length_skipn. lia.
Qed.

(** A slice is the part of the subject between what precedes and what
    follows it. *)
Lemma slice_between (i e : nat) :
  i <= e <= length s -> s = firstn i s ++ slice s i e ++ skipn e s.
Proof.
  intros H. unfold slice.
  rewrite <- (firstn_skipn i s) at 1. f_equal.
  rewrite <- (firstn_skipn (e - i) (skipn i s)) at 1. f_equal.
  rewrite skipn_skipn. f_equal. lia.
Qed.

Lemma slice_app (i j e : nat) :
  i <= j <= e -> e <= length s -> slice s i e = slice s i j ++ slice s j e.
Proof.
  intros H He. unfold slice.
  rewrite <- (firstn_skipn (j - i) (firstn (e - i) (skipn i s))).
  rewrite firstn_firstn, skipn_firstn_comm, skipn_skipn.
  replace (Nat.min (j - i) (e - i)) with (j - i) by lia.
  replace (e - i - (j - i)) with (e - j) by lia.
  now replace (j - i + i) with j by lia.
Qed.

Lemma slice_one (i : nat) (ch : ascii) :
  nth_error s i = Some ch -> slice s i (S i) = [ch].
Proof.
  intros H. unfold slice. replace (S i - i) with 1 by lia.
  assert (Hlt : i < length s) by (apply nth_error_Some; congruence).
  rewrite <- (firstn_skipn i s) in H.
  rewrite nth_error_app2 in H by (rewrite length_firstn; lia).
  rewrite length_firstn in H. replace (i - Nat.min i (length s)) with 0 in H by lia.
  destruct (skipn i s); cbn in *; congruence.
Qed.

Lemma slice_empty (i : nat) : slice s i i = [].
Proof. unfold slice. now rewrite Nat.sub_diag. Qed.

(** Every match collected by the loop of [match] is the text of a reading
    of the pattern. *)
Lemma match_loop_sound (r : regex) : well_formed r = true ->
  forall fuel start m, In m (match_loop s r fuel start) ->
    exists i y, lang s r (start_at i) y /\ i <= length s
                /\ m = slice s i (pos y).
Proof.
  intros Hwf. induction fuel as [|fuel IH]; intros start m H; [contradiction|].
  cbn [match_loop] in H.
  destruct (exec_from s r start) as [[i y]|] eqn:E; [|contradiction].
  destruct H as [<-|H]; [|eauto].
  pose proof E as E'. apply exec_from_sound in E'; [|assumption].
  destruct E' as [_ [_ L]]. exists i, y. split; [assumption|].
  split; [|reflexivity].
  unfold exec_from in E.
  destruct (Nat.ltb_spec (length s) start) as [|Hs]; [discriminate|].
  clear - E Hs. remember (S (length s - start)) as f eqn:Ef.
  assert (Hb : start + f = S (length s)) by lia. clear Ef Hs.
  revert start Hb E. induction f as [|f IHf]; intros start Hb E; [discriminate|].
  change (search s r (S f) start)
    with (match run s r (start_at start) Some with
          | Some y => Some (start, y)
          | None => search s r f (S start)
          end) in E.
  destruct (run s r (start_at start) Some).
  - inversion E; subst. lia.
  - apply IHf in E; lia.
Qed.
End Readings.

(** Every match of [str.match(re)] with the [g] flag occurs in [str], and
    is a reading of the pattern. *)
Lemma match_global_sound (r : regex) (str m : string) :
  well_formed r = true -> In m (match_global r str) ->
  let s := list_ascii_of_string str in
  exists i y, lang s r (start_at i) y /\ i <= pos y <= length s
              /\ list_ascii_of_string m = slice s i (pos y).
Proof.
  intros Hwf H s. unfold match_global in H. fold s in H.
  apply in_map_iff in H. destruct H as [l [<- H]].
  apply match_loop_sound in H; [|assumption].
  destruct H as [i [y [L [Hi ->]]]]. exists i, y. split; [assumption|].
  split.
  - pose proof (lang_pos_le _ _ _ _ L). pose proof (lang_in_bounds _ _ _ _ L Hi).
    cbn [pos start_at] in *. lia.
  - apply list_ascii_of_string_of_list_ascii.
Qed.

End MatchFacts.

(** ** What [extractIPs] returns *)

Module ExtractionShape.
Import Chars Regex RegexFacts MatchFacts IpExtractor ClassifierProps.
Import ExtractorProps.
Local Open Scope string_scope.
Local Open Scope list_scope.
Local Open Scope nat_scope.

(** A decimal octet: one to three digits, at most 255. *)
Definition octet_ok (w : list ascii) : bool :=
  (1 <=? length w) && (length w <=? 3) && forallb is_digit w
  && (fst (RuleTable.read_decimal 0 w) <=? 255)%Z.

(** Four decimal octets separated by dots. *)
Definition is_dotted_quad (w : list ascii) : bool :=
  match split_on "." [] w with
  | [a; b; c; d] => octet_ok a && octet_ok b && octet_ok c && octet_ok d
  | _ => false
  end.

Lemma string_of_list_ascii_app (a b : list ascii) :
  string_of_list_ascii (a ++ b)
  = (string_of_list_ascii a ++ string_of_list_ascii b)%string.
Proof. induction a as [|c a IH]; cbn; [reflexivity | now rewrite IH]. Qed.

Lemma length_of_list_ascii (l : list ascii) :
  String.length (string_of_list_ascii l) = length l.
Proof. induction l as [|c l IH]; cbn; [reflexivity | now rewrite IH]. Qed.

Section Words.
Variable s : list ascii.

Lemma slice_cons (p e : nat) (a : ascii) :
  nth_error s p = Some a -> p < e -> slice s p e = a :: slice s (S p) e.
Proof.
  intros H He. unfold slice.
  assert (E : skipn p s = a :: skipn (S p) s).
  { clear He. revert p H. induction s as [|c l IH]; intros p H.
    - destruct p; discriminate.
    - destruct p as [|p]; cbn in *; [congruence | now apply IH]. }
  rewrite E. replace (e - p) with (S (e - S p)) by lia. reflexivity.
Qed.

Lemma spans_slice (P : ascii -> bool) (x y : mstate) :
  spans s P x y -> pos y <= length s ->
  forallb P (slice s (pos x) (pos y)) = true.
Proof.
  intros Hs Hy. apply forallb_forall. intros c Hc.
  apply In_nth_error in Hc. destruct Hc as [k Hk].
  assert (Hlt : k < length (slice s (pos x) (pos y)))
    by (apply nth_error_Some; congruence).
  unfold slice in *. rewrite length_firstn, length_skipn in Hlt.
  rewrite nth_error_firstn in Hk.
  destruct (Nat.ltb_spec k (pos y - pos x)); [|discriminate].
  rewrite nth_error_skipn in Hk.
  destruct (Hs (pos x + k)) as [ch [E Hp]]; [lia|]. congruence.
Qed.
End Words.

Ltac split_optional :=
  repeat match goal with
         | H : iter ?n _ _ _, Hb : ?n <= 1 |- _ =>
             destruct n as [|[|?]]; [ | |lia]; cbn [iter lang] in H;
             break_lang; subst
         end.

Lemma one_of_cases (cs : string) (c : ascii) :
  one_of cs c = true -> In c (list_ascii_of_string cs).
Proof.
  unfold one_of. intros H. apply existsb_exists in H.
  destruct H as [a [Ha E]]. apply Ascii.eqb_eq in E. now subst.
Qed.

Ltac pin_one_of :=
  repeat match goal with
         | H : one_of _ ?c = true |- _ =>
             is_var c; apply one_of_cases in H; vm_compute in H;
             repeat (destruct H as [H|H]; [subst c|]); try contradiction
         end.

(** A reading of the octet pattern is a decimal octet. *)
Lemma octet_reading (s : list ascii) (x y : mstate) :
  lang s octet x y -> octet_ok (slice s (pos x) (pos y)) = true.
Proof.
  unfold octet. cbn [lang lit opt]. intros H.
  break_lang; split_optional; cbn [pos advance];
    repeat (erewrite slice_cons by first [eassumption | lia]);
    rewrite slice_empty; pin_one_of; pin_chars; reflexivity.
Qed.

Lemma octet_ok_no_dot (w : list ascii) :
  octet_ok w = true -> ~ In "."%char w.
Proof.
  unfold octet_ok. intros H Hin.
  apply andb_true_iff in H as [H _]. apply andb_true_iff in H as [_ H].
  rewrite forallb_forall in H. apply H in Hin. discriminate Hin.
Qed.

Lemma split_on_field (sep : ascii) (a : list ascii) :
  ~ In sep a -> forall acc b,
  split_on sep acc (a ++ sep :: b) = (rev acc ++ a) :: split_on sep [] b.
Proof.
  induction a as [|c a IH]; intros Hno acc b; cbn.
  - rewrite Ascii.eqb_refl. now rewrite app_nil_r.
  - destruct (Ascii.eqb_spec c sep) as [->|Hne].
    + exfalso. apply Hno. now left.
    + rewrite IH by (intros H; apply Hno; now right).
      cbn. now rewrite <- app_assoc.
Qed.

Lemma split_on_last (sep : ascii) (a : list ascii) :
  ~ In sep a -> forall acc, split_on sep acc a = [rev acc ++ a].
Proof.
  induction a as [|c a IH]; intros Hno acc; cbn.
  - now rewrite app_nil_r.
  - destruct (Ascii.eqb_spec c sep) as [->|Hne].
    + exfalso. apply Hno. now left.
    + rewrite IH by (intros H; apply Hno; now right).
      cbn. now rewrite <- app_assoc.
Qed.

(** A reading of [octet\.] is an octet followed by a dot. *)
Lemma octet_dot_reading (s : list ascii) (x y : mstate) :
  lang s (Seq octet (lit ".")) x y -> pos y <= length s ->
  exists o, octet_ok o = true
            /\ forall e, pos y <= e -> e <= length s ->
                 slice s (pos x) e = o ++ "."%char :: slice s (pos y) e.
Proof.
  cbn [lang lit]. intros [z [Lo [ch [E [Hc ->]]]]] Hy.
  apply Ascii.eqb_eq in Hc. subst ch. cbn [pos advance] in *.
  exists (slice s (pos x) (pos z)). split; [now apply octet_reading|].
  intros e He Hle. pose proof (lang_pos_le _ _ _ _ Lo).
  rewrite (slice_app s (i := pos x) (j := pos z) (e := e)) by lia.
  f_equal. apply slice_cons; [assumption | lia].
Qed.

(** A reading of the IPv4 pattern is a dotted quad. *)
Lemma IPV4_reading (s : list ascii) (x y : mstate) :
  lang s IPV4_REGEX x y -> pos x <= length s ->
  is_dotted_quad (slice s (pos x) (pos y)) = true.
Proof.
  unfold IPV4_REGEX, times. cbn [lang].
  intros [x0 [[_ ->] [z [[n [Hlo [Hhi It]]] [w [Lo [_ ->]]]]]]] Hx.
  assert (n = 3) by lia. subst n. cbn [iter] in It.
  destruct It as [z1 [L1 [z2 [L2 [z3 [L3 ->]]]]]].
  change (lang s (Seq octet (lit ".")) x z1) in L1.
  change (lang s (Seq octet (lit ".")) z1 z2) in L2.
  change (lang s (Seq octet (lit ".")) z2 z3) in L3.
  pose proof (lang_in_bounds _ _ _ _ L1 Hx) as B1.
  pose proof (lang_in_bounds _ _ _ _ L2 B1) as B2.
  pose proof (lang_in_bounds _ _ _ _ L3 B2) as B3.
  pose proof (lang_in_bounds _ _ _ _ Lo B3) as B4.
  pose proof (lang_pos_le _ _ _ _ L2). pose proof (lang_pos_le _ _ _ _ L3).
  pose proof (lang_pos_le _ _ _ _ Lo).
  destruct (octet_dot_reading L1 B1) as [o1 [K1 S1]].
  destruct (octet_dot_reading L2 B2) as [o2 [K2 S2]].
  destruct (octet_dot_reading L3 B3) as [o3 [K3 S3]].
  pose proof (octet_reading Lo) as K4.
  rewrite S1, S2, S3 by lia.
  unfold is_dotted_quad.
  rewrite !split_on_field by (now apply octet_ok_no_dot).
  rewrite split_on_last by (now apply octet_ok_no_dot).
  cbn [rev app]. now rewrite K1, K2, K3, K4.
Qed.

(** Every IPv4 address [extractIPs] returns is a dotted quad: four decimal
    fields of one to three digits, none above 255. *)
Theorem extractIPv4_dotted_quads (line ip : string) :
  In ip (extractIPv4 line) ->
  is_dotted_quad (list_ascii_of_string ip) = true.
Proof.
  intros H. unfold extractIPv4 in H.
  apply match_global_sound in H; [|reflexivity].
  destruct H as [i [y [L [Hb ->]]]].
  change i with (pos (start_at i)). apply IPV4_reading; [assumption|].
  cbn [pos start_at]. lia.
Qed.

Lemma extractIPv4_dotted_quads_witness :
  is_dotted_quad (list_ascii_of_string "255.255.255.255") = true.
Proof.
  apply (@extractIPv4_dotted_quads "IPs: 0.0.0.0 and 255.255.255.255").
  vm_compute. right. left. reflexivity.
Defined.

(** A match of either address pattern, as a reading of the pattern. *)
Lemma extractIPs_reading (line ip : string) :
  In ip (extractIPs line) ->
  let s := list_ascii_of_string line in
  exists r i y,
    2 <= min_len r /\ within ipv6_alphabet r = true
    /\ lang s r (start_at i) y /\ i <= pos y <= length s
    /\ list_ascii_of_string ip = slice s i (pos y).
Proof.
  intros H s. unfold extractIPs in H. apply in_app_or in H.
  assert (G : exists r, well_formed r = true /\ 2 <= min_len r
                        /\ within ipv6_alphabet r = true
                        /\ In ip (match_global r line)).
  { destruct H as [H|H]; [exists IPV4_REGEX | exists IPV6_REGEX];
      (split; [reflexivity|]); (split; [vm_compute; lia|]);
      (split; [vm_compute; reflexivity | exact H]). }
  clear H. destruct G as [r [Hwf [Hmin [Hw H]]]].
  apply match_global_sound in H; [|assumption].
  destruct H as [i [y [L [Hb E]]]]. exists r, i, y. auto.
Qed.

Lemma extractIPs_occurs (line ip : string) :
  In ip (extractIPs line) ->
  exists pre post, line = (pre ++ ip ++ post)%string.
Proof.
  intros H. apply extractIPs_reading in H.
  destruct H as [r [i [y [_ [_ [L [Hb E]]]]]]].
  set (s := list_ascii_of_string line) in *.
  exists (string_of_list_ascii (firstn i s)),
         (string_of_list_ascii (skipn (pos y) s)).
  rewrite <- (string_of_list_ascii_of_string ip), E.
  rewrite <- !string_of_list_ascii_app, <- slice_between by lia.
  symmetry. apply string_of_list_ascii_of_string.
Qed.

(** Every address [extractIPs] returns stands in the line, is at least two
    characters long, and is made of hexadecimal digits, colons and dots. *)
Theorem extractIPs_from_line (line ip : string) :
  In ip (extractIPs line) ->
  (exists pre post, line = (pre ++ ip ++ post)%string)
  /\ 2 <= String.length ip
  /\ forallb ipv6_alphabet (list_ascii_of_string ip) = true.
Proof.
  intros H. split; [now apply extractIPs_occurs|].
  apply extractIPs_reading in H.
  destruct H as [r [i [y [Hmin [Hw [L [Hb E]]]]]]].
  set (s := list_ascii_of_string line) in *.
  pose proof (lang_min_len _ _ _ _ L) as Hm. cbn [pos start_at] in Hm.
  split.
  - rewrite <- (string_of_list_ascii_of_string ip), E.
    rewrite length_of_list_ascii. rewrite slice_length; lia.
  - rewrite E. change i with (pos (start_at i)).
    apply spans_slice; [|lia]. eapply lang_within; eauto.
Qed.

Lemma extractIPs_from_line_witness :
  2 <= String.length "203.0.113.5".
Proof.
  apply (@extractIPs_from_line "Failed password from 203.0.113.5 port 22").
  vm_compute. left. reflexivity.
Defined.

End ExtractionShape.

(** ** The classifier on dotted quads *)

Module ClassifierExact.
Import Chars Regex RegexFacts IpExtractor.
Local Open Scope string_scope.
Local Open Scope nat_scope.

(** The usual spelling of an IPv4 address: four decimal numbers, without
    leading zeros, separated by dots. *)
Definition dotted (a b c d : nat) : string :=
  string_of_nat a ++ "." ++ string_of_nat b ++ "."
    ++ string_of_nat c ++ "." ++ string_of_nat d.

Lemma search_anchored_later (s : list ascii) (r : regex) :
  forall fuel i, 1 <= i -> search s (Seq Bol r) fuel i = None.
Proof.
  induction fuel as [|fuel IH]; intros i Hi; [reflexivity|].
  change (search s (Seq Bol r) (S fuel) i)
    with (match (if pos (start_at i) =? 0
                 then run s r (start_at i) Some else None) with
          | Some y => Some (i, y)
          | None => search s (Seq Bol r) fuel (S i)
          end).
  cbn [pos start_at]. destruct (Nat.eqb_spec i 0); [lia|]. apply IH. lia.
Qed.

(** A pattern anchored with [^] is tried at the start of the string
    only. *)
Lemma test_anchored_run (r : regex) (str : string) :
  test (Seq Bol r) str =
  match run (list_ascii_of_string str) r (start_at 0) Some with
  | Some _ => true
  | None => false
  end.
Proof.
  unfold test, exec_from. cbn [Nat.ltb Nat.leb].
  set (s := list_ascii_of_string str).
  change (search s (Seq Bol r) (S (length s - 0)) 0)
    with (match run s r (start_at 0) Some with
          | Some y => Some (0, y)
          | None => search s (Seq Bol r) (length s - 0) 1
          end).
  destruct (run s r (start_at 0) Some); [reflexivity|].
  now rewrite search_anchored_later.
Qed.

(** Run [tac] for each value 0..255 of the variable [a] bounded by [H]. *)
Ltac each_octet a H tac :=
  do 256 (destruct a as [|a]; [clear H; tac|]); exfalso; lia.

(** On the usual spelling of an IPv4 address, [isPrivateIP] decides
    exactly the ranges 10/8, 172.16/12, 192.168/16, 127/8, 169.254/16, 0/8
    and 100.64/10. *)
Theorem isPrivateIP_dotted_exact (a b c d : nat) :
  a <= 255 -> b <= 255 ->
  isPrivateIP (dotted a b c d)
  = RuleTable.ipv4_private (Z.of_nat a) (Some (Z.of_nat b)).
Proof.
  intros Ha Hb. unfold isPrivateIP.
  cbn [existsb privateRanges ipv6Private].
  rewrite !test_anchored_run. revert Hb.
  each_octet a Ha
    ltac:(first [ intros _; vm_compute; reflexivity
                | intros Hb;
                  each_octet b Hb ltac:(vm_compute; reflexivity) ]).
Qed.

Lemma isPrivateIP_dotted_exact_witness :
  isPrivateIP (dotted 100 127 255 255) = true.
Proof.
  rewrite isPrivateIP_dotted_exact by lia. reflexivity.
Defined.

End ClassifierExact.

(** ** The log index, continued *)

Module LogIndexMore.
Import JsMap JsMapFacts IpExtractor LogIndexProps ReportProps Index.
Import ExtractionShape.
Local Open Scope string_scope.
Local Open Scope list_scope.

Lemma buildIPLogMap_NoDup (lines : list string) :
  NoDup (keys (buildIPLogMap lines)).
Proof.
  unfold buildIPLogMap. rewrite buildIPLogMap_file_from.
  apply NoDup_keys_file. constructor.
Qed.

Lemma get_buildIPLogMap (lines : list string) (ip : string) :
  get (buildIPLogMap lines) ip =
  if isPrivateIP ip then None
  else match flat_map (fun line => repeat line (occurrences line ip)) lines
       with [] => None | l => Some l end.
Proof.
  unfold buildIPLogMap. rewrite buildIPLogMap_file_from.
  rewrite get_file, filed_under_lines. cbn [get empty].
  destruct (isPrivateIP ip); reflexivity.
Qed.

Lemma buildIPLogMap_nonempty (lines : list string) (ip : string)
    (logs : list string) :
  In (ip, logs) (buildIPLogMap lines) -> logs <> [].
Proof.
  intros H. apply In_get in H; [|apply buildIPLogMap_NoDup].
  rewrite get_buildIPLogMap in H.
  destruct (isPrivateIP ip); [discriminate|].
  destruct (flat_map _ lines); [discriminate|].
  injection H as <-. discriminate.
Qed.

(** Every entry of the log index belongs to a public address, is not
    empty, and holds only input lines in which the address stands. *)
Theorem buildIPLogMap_entries (lines : list string) (ip : string)
    (logs : list string) :
  In (ip, logs) (buildIPLogMap lines) ->
  isPrivateIP ip = false /\ logs <> []
  /\ forall line, In line logs ->
       In line lines /\ In ip (extractIPs line)
       /\ exists pre post, line = (pre ++ ip ++ post)%string.
Proof.
  intros H. apply In_get in H; [|apply buildIPLogMap_NoDup].
  rewrite get_buildIPLogMap in H.
  destruct (isPrivateIP ip); [discriminate|]. split; [reflexivity|].
  destruct (flat_map _ lines) as [|l0 ls] eqn:E; [discriminate|].
  injection H as <-. split; [discriminate|].
  intros line Hin. rewrite <- E in Hin. apply in_flat_map in Hin.
  destruct Hin as [line' [Hl Hr]]. apply repeat_spec in Hr as Heq. subst line'.
  assert (Hocc : In ip (extractIPs line)).
  { unfold occurrences in Hr. apply (count_occ_In string_dec).
    destruct (count_occ string_dec (extractIPs line) ip); [contradiction|].
    apply Nat.lt_0_succ. }
  split; [assumption|]. split; [assumption|]. now apply extractIPs_occurs.
Qed.

Lemma buildIPLogMap_entries_witness :
  isPrivateIP "203.0.113.5" = false.
Proof.
  apply (@buildIPLogMap_entries ["Attack from 203.0.113.5"; "Loopback 127.0.0.1"]
           "203.0.113.5" ["Attack from 203.0.113.5"]).
  vm_compute. left. reflexivity.
Defined.

(** *** The threshold filter of [main] *)

Lemma filter_filter (A : Type) (f g : A -> bool) (l : list A) :
  filter f (filter g l) = filter (fun a => g a && f a) l.
Proof.
  induction l as [|a l IH]; cbn; [reflexivity|].
  destruct (g a); cbn; [destruct (f a)|]; now rewrite IH.
Qed.

Lemma filter_all (A : Type) (f : A -> bool) (l : list A) :
  (forall a, In a l -> f a = true) -> filter f l = l.
Proof.
  induction l as [|a l IH]; intros H; cbn; [reflexivity|].
  rewrite (H a) by now left. f_equal. apply IH. intros b Hb. apply H. now right.
Qed.

Section Threshold.
Variable threshold : number.

Definition visit (m : JsMap.t (list string)) (entry : string * list string)
  : JsMap.t (list string) :=
  let (ip, logs) := entry in
  if below (length logs) threshold then delete m ip else m.

(** An entry falls when some visited entry with its key is too short. *)
Definition falls (visited : list (string * list string))
    (e : string * list string) : bool :=
  existsb (fun v => String.eqb (fst v) (fst e)
                    && below (length (snd v)) threshold) visited.

Lemma fold_visit (visited : list (string * list string)) :
  forall m, fold_left visit visited m
            = filter (fun e => negb (falls visited e)) m.
Proof.
  induction visited as [|[ip logs] visited IH]; intros m; cbn [fold_left].
  - symmetry. now apply filter_all.
  - rewrite IH. unfold visit.
    destruct (below (length logs) threshold) eqn:B.
    + unfold delete. rewrite filter_filter. apply filter_ext. intros e.
      unfold falls. cbn [existsb fst snd]. rewrite B, andb_true_r.
      rewrite (String.eqb_sym ip (fst e)). now rewrite negb_orb.
    + apply filter_ext. intros e. unfold falls. cbn [existsb fst snd].
      now rewrite B, andb_false_r.
Qed.

Lemma falls_own (m : JsMap.t (list string)) (e : string * list string) :
  NoDup (keys m) -> In e m -> falls m e = below (length (snd e)) threshold.
Proof.
  unfold falls. induction m as [|v m IH]; [contradiction|].
  intros Hnd Hin. inversion Hnd as [|? ? Hnotin Hnd']; subst.
  cbn [existsb]. destruct Hin as [->|Hin].
  - rewrite String.eqb_refl. cbn [andb].
    destruct (below _ _); [reflexivity|]. cbn [orb].
    apply not_true_is_false. intros H. apply existsb_exists in H.
    destruct H as [v [Hv H]]. apply andb_true_iff in H as [H _].
    apply String.eqb_eq in H. apply Hnotin. rewrite <- H.
    now apply in_map.
  - rewrite IH by assumption.
    destruct (String.eqb_spec (fst v) (fst e)) as [E|_]; [|reflexivity].
    exfalso. apply Hnotin. rewrite E. now apply in_map.
Qed.

Lemma filterByThreshold_filter (m : JsMap.t (list string)) :
  NoDup (keys m) ->
  filterByThreshold threshold m
  = filter (fun e => negb (below (length (snd e)) threshold)) m.
Proof.
  intros Hnd. unfold filterByThreshold.
  change (fold_left _ m m) with (fold_left visit m m).
  rewrite fold_visit. apply filter_ext_in. intros e He.
  now rewrite falls_own.
Qed.
End Threshold.

(** The threshold loop of [main] keeps, in order and unchanged, exactly
    the entries of the log index with at least [threshold] lines. When the
    threshold is NaN or at most 1 it removes nothing, no entry of the index
    being empty. *)
Theorem filterByThreshold_keeps (threshold : number) (lines : list string) :
  let m := buildIPLogMap lines in
  let m' := filterByThreshold threshold m in
  m' = filter (fun e => negb (below (length (snd e)) threshold)) m
  /\ (forall ip logs, In (ip, logs) m' <->
        In (ip, logs) m /\ below (length logs) threshold = false)
  /\ (threshold = NaN \/ (exists z, threshold = Num z /\ (z <= 1)%Z) ->
      m' = m).
Proof.
  cbv zeta.
  rewrite filterByThreshold_filter by apply buildIPLogMap_NoDup.
  split; [reflexivity|]. split.
  - intros ip logs. rewrite filter_In. cbn [snd].
    now rewrite negb_true_iff.
  - intros Ht. apply filter_all. intros [ip logs] Hin. cbn [snd].
    apply negb_true_iff.
    destruct Ht as [->|[z [-> Hz]]]; [reflexivity|]. cbn [below].
    apply buildIPLogMap_nonempty in Hin.
    destruct logs; [congruence|]. cbn [length]. apply Z.ltb_ge. lia.
Qed.

Lemma filterByThreshold_keeps_witness :
  filterByThreshold (Num 1) (buildIPLogMap ["Attack from 203.0.113.5"])
  = buildIPLogMap ["Attack from 203.0.113.5"].
Proof.
  apply (proj2 (proj2 (filterByThreshold_keeps (Num 1)
                         ["Attack from 203.0.113.5"]))).
  right. exists 1%Z. split; [reflexivity | lia].
Defined.

End LogIndexMore.

(** ** The result parser, continued *)

Module ParserMore.
Import Chars Regex RegexFacts MatchFacts AbuseLookup ClassifierProps.
Import ParserProps ExtractionShape.
Local Open Scope string_scope.
Local Open Scope list_scope.
Local Open Scope nat_scope.

(** Every reading of the pattern passes over the character [c]. *)
Fixpoint needs (c : ascii) (r : regex) : bool :=
  match r with
  | Chr p => subset p (is_char c)
  | Seq r1 r2 => needs c r1 || needs c r2
  | Alt r1 r2 => needs c r1 && needs c r2
  | Rep _ lo _ r' => (1 <=? lo) && needs c r'
  | Grp r' => needs c r'
  | _ => false
  end.

(** The characters of an e-mail address in lower case. *)
Definition email_char (c : ascii) : bool :=
  is_lower c || is_digit c || one_of "._%+-@" c.

Definition no_space_at_ends (l : list ascii) : bool :=
  match l with
  | [] => true
  | c :: _ => negb (is_space c)
  end
  && match rev l with
     | [] => true
     | c :: _ => negb (is_space c)
     end.

Section Readings.
Variable s : list ascii.

Lemma lang_needs (c : ascii) (r : regex) : needs c r = true ->
  forall x y, lang s r x y ->
    exists j, pos x <= j < pos y /\ nth_error s j = Some c.
Proof.
  induction r as [|p|r1 IH1 r2 IH2|r1 IH1 r2 IH2|g lo hi r IH|r IH| | |];
    intros Hn x y H; cbn [lang needs] in *; try discriminate.
  - destruct H as [ch [E [Hp ->]]]. exists (pos x). cbn. split; [lia|].
    apply (subset_spec _ _ Hn) in Hp. apply Ascii.eqb_eq in Hp. congruence.
  - destruct H as [z [H1 H2]].
    pose proof (lang_pos_le _ _ _ _ H1). pose proof (lang_pos_le _ _ _ _ H2).
    apply orb_true_iff in Hn as [Hn|Hn].
    + destruct (IH1 Hn _ _ H1) as [j [Hj E]]. exists j. split; [lia|auto].
    + destruct (IH2 Hn _ _ H2) as [j [Hj E]]. exists j. split; [lia|auto].
  - apply andb_true_iff in Hn as [N1 N2]. destruct H as [H|H]; eauto.
  - apply andb_true_iff in Hn as [Hlo Hn]. apply Nat.leb_le in Hlo.
    destruct H as [n [Hle [_ H]]]. destruct n as [|n]; [lia|].
    cbn [iter] in H. destruct H as [z [H1 H2]].
    destruct (IH Hn _ _ H1) as [j [Hj E]]. exists j. split; [|auto].
    assert (pos z <= pos y).
    { eapply iter_pos_le; [|exact H2]. apply lang_pos_le. }
    lia.
  - destruct H as [z [H ->]]. cbn [pos capture]. eauto.
Qed.

(** The text between two states that a reading spans belongs to the
    alphabet of the reading. *)
Lemma spans_slice_any (P : ascii -> bool) (x y : mstate) :
  spans s P x y -> forallb P (slice s (pos x) (pos y)) = true.
Proof.
  intros Hs. destruct (Nat.le_gt_cases (pos y) (pos x)) as [Hle|Hlt].
  - unfold slice. replace (pos y - pos x) with 0 by lia. reflexivity.
  - apply spans_slice; [assumption|].
    destruct (Hs (pos y - 1)) as [ch [E _]]; [lia|].
    assert (pos y - 1 < length s) by (apply nth_error_Some; congruence). lia.
Qed.

(** In [keyword\s*(group)], capture 1 is a reading of the group. *)
Lemma field_capture (A B g : regex) (x y : mstate) :
  lang s (Seq A (Seq B (Grp g))) x y ->
  exists z z', cap y = Some (pos z, pos z') /\ lang s g z z'.
Proof.
  cbn [lang]. intros [z1 [_ [z2 [_ [z3 [L ->]]]]]]. cbn [cap capture]. eauto.
Qed.
End Readings.

(** What [match && match[1]] hands over: the text of capture 1 of a
    reading of the pattern. *)
Lemma match_group1_reading (r : regex) (str g : string) :
  well_formed r = true -> match_group1 r str = Some g ->
  let s := list_ascii_of_string str in
  exists j y a b, lang s r (start_at j) y /\ cap y = Some (a, b)
                  /\ list_ascii_of_string g = slice s a b.
Proof.
  intros Hwf H s. unfold match_group1 in H. fold s in H.
  destruct (exec_from s r 0) as [[j y]|] eqn:E; [|discriminate].
  apply exec_from_sound in E; [|assumption]. destruct E as [_ [_ L]].
  destruct (cap y) as [[a b]|] eqn:C; [|discriminate].
  destruct (slice s a b) as [|c l] eqn:Es; [discriminate|].
  injection H as <-. exists j, y, a, b. split; [assumption|].
  split; [assumption|].
  rewrite Es. cbn [list_ascii_of_string].
  now rewrite list_ascii_of_string_of_list_ascii.
Qed.

Lemma to_upper_of_letter (c : ascii) :
  ci (in_range "A" "Z") c = true -> is_upper (to_upper c) = true.
Proof.
  destruct c as [[] [] [] [] [] [] [] []]; vm_compute;
    intros H; try discriminate H; reflexivity.
Qed.

(** The country [extractCountry] returns is two upper-case letters. *)
Theorem extractCountry_two_letters (whoisOutput cc : string) :
  extractCountry whoisOutput = Some cc ->
  exists c1 c2, cc = String c1 (String c2 "")
                /\ is_upper c1 = true /\ is_upper c2 = true.
Proof.
  unfold extractCountry.
  destruct (first_capture country_patterns whoisOutput) as [g|] eqn:E;
    [|discriminate].
  cbn [option_map]. intros [= <-].
  apply first_capture_from in E. destruct E as [pattern [Hin E]].
  assert (Hwf : well_formed pattern = true).
  { cbn [In country_patterns] in Hin.
    repeat (destruct Hin as [<-|Hin]; [reflexivity|]). contradiction. }
  apply match_group1_reading in E; [|assumption].
  destruct E as [j [y [a [b [L [C Eg]]]]]].
  assert (G : exists z z', cap y = Some (pos z, pos z')
              /\ lang (list_ascii_of_string whoisOutput)
                   (times 2 (Chr (ci (in_range "A" "Z")))) z z').
  { cbn [In country_patterns] in Hin.
    repeat (destruct Hin as [<-|Hin]; [eapply field_capture; exact L|]).
    contradiction. }
  destruct G as [z [z' [C' Lg]]]. rewrite C in C'. injection C' as -> ->.
  unfold times in Lg. cbn [lang] in Lg.
  destruct Lg as [n [Hlo [Hhi It]]]. assert (n = 2) by lia. subst n.
  cbn [iter] in It.
  destruct It as [z1 [[c1 [E1 [P1 ->]]] [z2 [[c2 [E2 [P2 ->]]] ->]]]].
  cbn [pos advance] in *.
  rewrite (slice_cons _ E1), (slice_cons _ E2), slice_empty in Eg by lia.
  exists (to_upper c1), (to_upper c2).
  split; [|split; now apply to_upper_of_letter].
  unfold toUpperCase. now rewrite Eg.
Qed.

Lemma extractCountry_two_letters_witness :
  exists c1 c2, "DE" = String c1 (String c2 "")
                /\ is_upper c1 = true /\ is_upper c2 = true.
Proof.
  apply (@extractCountry_two_letters "country:        de").
  vm_compute. reflexivity.
Defined.

(** *** The contact address *)

Definition local_char (c : ascii) : bool :=
  is_lower c || is_digit c || one_of "._%+-" c.
Definition domain_char (c : ascii) : bool :=
  is_lower c || is_digit c || one_of ".-" c.

Lemma lowered (p q : ascii -> bool) (l : list ascii) :
  (forall c, p c = true -> q (to_lower c) = true) ->
  forallb p l = true -> forallb q (map to_lower l) = true.
Proof.
  intros Hpq H. rewrite forallb_forall in *. intros c Hc.
  apply in_map_iff in Hc. destruct Hc as [c' [<- Hc']]. auto.
Qed.

Lemma lower_local (c : ascii) :
  is_local_part c = true -> local_char (to_lower c) = true.
Proof.
  destruct c as [[] [] [] [] [] [] [] []]; vm_compute;
    intros H; try discriminate H; reflexivity.
Qed.

Lemma lower_domain (c : ascii) :
  is_domain_part c = true -> domain_char (to_lower c) = true.
Proof.
  destruct c as [[] [] [] [] [] [] [] []]; vm_compute;
    intros H; try discriminate H; reflexivity.
Qed.

Lemma lower_alpha (c : ascii) :
  is_alpha c = true -> is_lower (to_lower c) = true.
Proof.
  destruct c as [[] [] [] [] [] [] [] []]; vm_compute;
    intros H; try discriminate H; reflexivity.
Qed.

(** The text of a reading of the e-mail pattern. *)
Lemma email_address_reading (s : list ascii) (x y : mstate) :
  lang s email_address x y ->
  exists loc dom tld,
    slice s (pos x) (pos y) = loc ++ "@"%char :: dom ++ "."%char :: tld
    /\ loc <> [] /\ forallb is_local_part loc = true
    /\ dom <> [] /\ forallb is_domain_part dom = true
    /\ 2 <= length tld /\ forallb is_alpha tld = true
    /\ pos x <= pos y <= length s.
Proof.
  intros L.
  assert (Hy : pos x < pos y <= length s).
  { pose proof (@lang_min_len s _ _ _ L) as M.
    change (min_len email_address) with 6 in M.
    split; [lia|].
    assert (W : within (fun _ => true) email_address = true) by reflexivity.
    pose proof (@lang_within s _ _ W _ _ L) as Sp.
    destruct (Sp (pos y - 1)) as [ch [E _]]; [lia|].
    assert (pos y - 1 < length s) by (apply nth_error_Some; congruence).
    lia. }
  unfold email_address in L. cbn [lang lit_i] in L.
  destruct L as [z1 [L1 [z2 [L2 [z3 [L3 [z4 [L4 L5]]]]]]]].
  destruct L2 as [c2 [E2 [H2 ->]]]. destruct L4 as [c4 [E4 [H4 ->]]].
  apply lit_i_cases in H2, H4. vm_compute in H2, H4.
  assert (c2 = "@"%char) by (destruct H2; assumption).
  assert (c4 = "."%char) by (destruct H4; assumption). subst c2 c4.
  assert (M1 : pos x + 1 <= pos z1) by exact (@lang_min_len s _ _ _ L1).
  assert (M3 : pos (advance z1) + 1 <= pos z3)
    by exact (@lang_min_len s _ _ _ L3).
  assert (M5 : pos (advance z3) + 2 <= pos y)
    by exact (@lang_min_len s _ _ _ L5).
  cbn [pos advance] in *.
  exists (slice s (pos x) (pos z1)), (slice s (S (pos z1)) (pos z3)),
    (slice s (S (pos z3)) (pos y)).
  assert (B1 : length (slice s (pos x) (pos z1)) = pos z1 - pos x)
    by (apply slice_length; lia).
  assert (B3 : length (slice s (S (pos z1)) (pos z3)) = pos z3 - S (pos z1))
    by (apply slice_length; lia).
  assert (B5 : length (slice s (S (pos z3)) (pos y)) = pos y - S (pos z3))
    by (apply slice_length; lia).
  split.
  {     rewrite (@slice_app s (pos x) (pos z1) (pos y)) by lia. f_equal.
    rewrite (@slice_cons s (pos z1) (pos y) _ E2) by lia. f_equal.
    rewrite (@slice_app s (S (pos z1)) (pos z3) (pos y)) by lia. f_equal.
    now rewrite (@slice_cons s (pos z3) (pos y) _ E4) by lia. }
  split; [intros E; rewrite E in B1; cbn in B1; lia|].
  split.
  { apply (@spans_slice_any s is_local_part x z1).
    eapply lang_within; [|exact L1]. reflexivity. }
  split; [intros E; rewrite E in B3; cbn in B3; lia|].
  split.
  { apply (@spans_slice_any s is_domain_part (advance z1) z3).
    eapply lang_within; [|exact L3]. reflexivity. }
  split; [lia|].
  split; [|lia].
  apply (@spans_slice_any s is_alpha (advance z3) y).
  eapply lang_within; [|exact L5]. reflexivity.
Qed.

(** The capture behind a contact: a reading of the e-mail pattern on one
    line of the output. *)
Lemma contact_capture (whoisOutput email : string) :
  extractAbuseEmail whoisOutput = Some email ->
  exists line x y,
    In line (split newline whoisOutput)
    /\ lang (list_ascii_of_string line) email_address x y
    /\ list_ascii_of_string email
       = map to_lower (slice (list_ascii_of_string line) (pos x) (pos y)).
Proof.
  unfold extractAbuseEmail.
  destruct (first_in_lines _ _) as [g|] eqn:E; [|discriminate].
  cbn [option_map]. intros [= <-].
  apply first_in_lines_from in E. destruct E as [line [Hline E]].
  apply first_capture_from in E. destruct E as [pattern [Hin E]].
  apply match_group1_reading in E; [|now apply abuse_patterns_well_formed].
  destruct E as [j [y [a [b [L [C Eg]]]]]].
  eapply abuse_pattern_capture in L; [|exact Hin].
  destruct L as [x' [y' [C' Le]]]. rewrite C in C'. injection C' as -> ->.
  exists line, x', y'. split; [assumption|]. split; [assumption|].
  unfold toLowerCase. rewrite list_ascii_of_string_of_list_ascii.
  now rewrite Eg.
Qed.

Lemma contact_parts (whoisOutput email : string) :
  extractAbuseEmail whoisOutput = Some email ->
  exists loc dom tld,
    list_ascii_of_string email = loc ++ "@"%char :: dom ++ "."%char :: tld
    /\ loc <> [] /\ forallb local_char loc = true
    /\ dom <> [] /\ forallb domain_char dom = true
    /\ 2 <= length tld /\ forallb is_lower tld = true.
Proof.
  intros H. apply contact_capture in H.
  destruct H as [line [x [y [_ [Le El]]]]].
  apply email_address_reading in Le.
  destruct Le as [loc [dom [tld [Es [N1 [F1 [N2 [F2 [N3 [F3 _]]]]]]]]]].
  exists (map to_lower loc), (map to_lower dom), (map to_lower tld).
  split.
  { rewrite El, Es. rewrite map_app. cbn [map]. rewrite map_app.
    reflexivity. }
  split; [destruct loc; [congruence | discriminate]|].
  split; [exact (lowered _ _ _ lower_local F1)|].
  split; [destruct dom; [congruence | discriminate]|].
  split; [exact (lowered _ _ _ lower_domain F2)|].
  split; [now rewrite length_map|].
  exact (lowered _ _ _ lower_alpha F3).
Qed.

(** The contact [extractAbuseEmail] returns is a lower-case address
    [local@domain.tld] over the alphabet of the pattern, and is the
    lower-case form of a stretch of one line of the output. *)
Theorem extractAbuseEmail_shape (whoisOutput email : string) :
  extractAbuseEmail whoisOutput = Some email ->
  (exists loc dom tld,
     list_ascii_of_string email = loc ++ "@"%char :: dom ++ "."%char :: tld
     /\ loc <> [] /\ forallb local_char loc = true
     /\ dom <> [] /\ forallb domain_char dom = true
     /\ 2 <= length tld /\ forallb is_lower tld = true)
  /\ exists line before after,
       In line (split newline whoisOutput)
       /\ list_ascii_of_string (toLowerCase line)
          = before ++ list_ascii_of_string email ++ after.
Proof.
  intros H. split; [eapply contact_parts; exact H|].
  apply contact_capture in H. destruct H as [line [x [y [Hline [Le El]]]]].
  apply email_address_reading in Le.
  destruct Le as [_ [_ [_ [_ [_ [_ [_ [_ [_ [_ Hb]]]]]]]]]].
  exists line,
    (map to_lower (firstn (pos x) (list_ascii_of_string line))),
    (map to_lower (skipn (pos y) (list_ascii_of_string line))).
  split; [assumption|].
  rewrite El. unfold toLowerCase.
  rewrite list_ascii_of_string_of_list_ascii.
  rewrite <- !map_app. f_equal. now apply slice_between.
Qed.

Lemma extractAbuseEmail_shape_witness :
  (exists loc dom tld,
     list_ascii_of_string "noc@example.net"
     = loc ++ "@"%char :: dom ++ "."%char :: tld
     /\ loc <> [] /\ forallb local_char loc = true
     /\ dom <> [] /\ forallb domain_char dom = true
     /\ 2 <= length tld /\ forallb is_lower tld = true)
  /\ exists line before after,
       In line (split newline "OrgAbuseEmail:  NOC@Example.NET")
       /\ list_ascii_of_string (toLowerCase line)
          = before ++ list_ascii_of_string "noc@example.net" ++ after.
Proof.
  apply (@extractAbuseEmail_shape "OrgAbuseEmail:  NOC@Example.NET").
  vm_compute. reflexivity.
Defined.

(** *** Organisation and network range *)

Lemma drop_while_suffix (p : ascii -> bool) (l : list ascii) :
  exists d, l = d ++ drop_while p l.
Proof.
  induction l as [|c l [d IH]]; cbn [drop_while]; [now exists []|].
  destruct (p c); [|now exists []].
  exists (c :: d). cbn. now f_equal.
Qed.

Lemma drop_while_head (p : ascii -> bool) (l : list ascii) (c : ascii)
    (t : list ascii) :
  drop_while p l = c :: t -> p c = false.
Proof.
  induction l as [|a l IH]; cbn [drop_while]; [discriminate|].
  destruct (p a) eqn:E; [assumption|]. intros [= -> _]. assumption.
Qed.

(** A value is a field when it lies on one line and neither starts nor
    ends with white space. *)
Definition is_field (v : string) : bool :=
  let l := list_ascii_of_string v in
  forallb is_dot l && no_space_at_ends l.

Lemma trim_is_field (g : string) :
  forallb is_dot (list_ascii_of_string g) = true -> is_field (trim g) = true.
Proof.
  intros H. unfold is_field, trim.
  rewrite list_ascii_of_string_of_list_ascii.
  set (m := drop_while is_space (list_ascii_of_string g)).
  set (k := drop_while is_space (rev m)).
  destruct (drop_while_suffix is_space (list_ascii_of_string g)) as [d Hd].
  fold m in Hd.
  destruct (drop_while_suffix is_space (rev m)) as [d' Hd']. fold k in Hd'.
  assert (Hm : m = rev k ++ rev d').
  { rewrite <- (rev_involutive m), Hd'. now rewrite rev_app_distr. }
  apply andb_true_iff. split.
  - rewrite forallb_forall in *. intros c Hc. apply H.
    rewrite Hd. apply in_or_app. right. rewrite Hm. apply in_or_app.
    now left.
  - unfold no_space_at_ends. rewrite rev_involutive.
    apply andb_true_iff. split.
    + destruct (rev k) as [|c t] eqn:Ek; [reflexivity|].
      assert (E : drop_while is_space (list_ascii_of_string g)
                  = c :: t ++ rev d').
      { change (m = c :: t ++ rev d'). rewrite Hm. try rewrite Ek.
        reflexivity. }
      now rewrite (drop_while_head _ _ E).
    + destruct k as [|c t] eqn:Ek; [reflexivity|].
      assert (E : drop_while is_space (rev m) = c :: t) by exact Ek.
      now rewrite (drop_while_head _ _ E).
Qed.

Lemma line_capture (patterns : list regex) (str g : string) :
  forallb (fun pattern =>
    match pattern with
    | Seq _ (Seq _ (Grp r)) => well_formed pattern && within is_dot r
    | _ => false
    end) patterns = true ->
  first_capture patterns str = Some g ->
  forallb is_dot (list_ascii_of_string g) = true.
Proof.
  intros Hp E. apply first_capture_from in E.
  destruct E as [pattern [Hin E]].
  rewrite forallb_forall in Hp. specialize (Hp _ Hin).
  destruct pattern as [| |A [| |B [| | | | |r| | |]| | | | | |]| | | | | |];
    try discriminate Hp.
  apply andb_true_iff in Hp as [Hwf Hw].
  apply match_group1_reading in E; [|assumption].
  destruct E as [j [y [a [b [L [C Eg]]]]]].
  apply field_capture in L. destruct L as [z [z' [C' Lg]]].
  rewrite C in C'. injection C' as -> ->. rewrite Eg.
  apply spans_slice_any. eapply lang_within; eassumption.
Qed.

(** The organisation name and the network range are returned on one line
    and without surrounding white space. *)
Theorem extracted_fields_trimmed (whoisOutput : string) :
  is_field (extractOrgName whoisOutput) = true
  /\ match extractNetRange whoisOutput with
     | Some netRange => is_field netRange = true
     | None => True
     end.
Proof.
  unfold extractOrgName, extractNetRange. split.
  - destruct (first_capture org_patterns whoisOutput) as [g|] eqn:E;
      [|reflexivity].
    apply trim_is_field. eapply line_capture; [|exact E]. reflexivity.
  - destruct (first_capture range_patterns whoisOutput) as [g|] eqn:E;
      [|exact I].
    cbn [option_map]. apply trim_is_field.
    eapply line_capture; [|exact E]. reflexivity.
Qed.

(** *** Output without fields *)

Definition has_char (c : ascii) (str : string) : bool :=
  existsb (Ascii.eqb c) (list_ascii_of_string str).

Lemma first_capture_needs (c : ascii) (patterns : list regex)
    (str g : string) :
  forallb (fun pattern => well_formed pattern && needs c pattern) patterns
    = true ->
  first_capture patterns str = Some g -> has_char c str = true.
Proof.
  intros Hp E. apply first_capture_from in E.
  destruct E as [pattern [Hin E]].
  rewrite forallb_forall in Hp. specialize (Hp _ Hin).
  apply andb_true_iff in Hp as [Hwf Hn].
  apply match_group1_reading in E; [|assumption].
  destruct E as [j [y [a [b [L _]]]]].
  eapply lang_needs in L; [|exact Hn]. destruct L as [k [_ Ek]].
  unfold has_char. apply existsb_exists. exists c.
  split; [eapply nth_error_In; exact Ek | apply Ascii.eqb_refl].
Qed.

(** Output without a colon (an error banner, an empty answer) holds no
    field: the organisation is ['Unknown'], range and country are absent. *)
Theorem extract_without_colon (whoisOutput : string) :
  has_char ":" whoisOutput = false ->
  extractOrgName whoisOutput = "Unknown"
  /\ extractNetRange whoisOutput = None
  /\ extractCountry whoisOutput = None.
Proof.
  intros H. unfold extractOrgName, extractNetRange, extractCountry.
  assert (N : forall patterns,
            forallb (fun pattern => well_formed pattern
                                    && needs ":" pattern) patterns = true ->
            first_capture patterns whoisOutput = None).
  { intros patterns Hp.
    destruct (first_capture patterns whoisOutput) as [g|] eqn:E;
      [|reflexivity].
    apply (first_capture_needs ":" _ _ Hp) in E. congruence. }
  rewrite !N by reflexivity. repeat split.
Qed.

Lemma extract_without_colon_witness :
  extractOrgName "No whois server is known for this kind of object."
    = "Unknown"
  /\ extractNetRange "No whois server is known for this kind of object."
     = None
  /\ extractCountry "No whois server is known for this kind of object."
     = None.
Proof.
  apply extract_without_colon. reflexivity.
Defined.

End ParserMore.

(** ** Batches with repeated and cached addresses *)

Module LookupMore.
Import Chars JsMap AbuseLookup JsMapFacts LookupProps.
Local Open Scope string_scope.
Local Open Scope list_scope.
Local Open Scope Z_scope.

(** The addresses of a batch that need a query: those that are not
    [known] when the loop reaches them for the first time. *)
Fixpoint to_query (known : string -> bool) (ips : list string)
  : list string :=
  match ips with
  | [] => []
  | ip :: rest =>
      if known ip then to_query known rest
      else ip :: to_query (fun k => String.eqb k ip || known k) rest
  end.

(** The first occurrences of the addresses of a batch. *)
Definition distinct (ips : list string) : list string :=
  to_query (fun _ => false) ips.

Definition commands (tr : list Event) : list string :=
  map (fun q => fst (fst q)) (queries tr).

(** Every record is filed under its own address. *)
Definition keyed (m : JsMap.t LookupRecord) : Prop :=
  forall k r, get m k = Some r -> ip r = k.

Lemma to_query_ext (ips : list string) : forall f g : string -> bool,
  (forall k, f k = g k) -> to_query f ips = to_query g ips.
Proof.
  induction ips as [|ip rest IH]; intros f g H; cbn [to_query];
    [reflexivity|].
  rewrite <- (H ip). destruct (f ip); [now apply IH|].
  f_equal. apply IH. intros k. now rewrite H.
Qed.

Lemma to_query_spec (ips : list string) : forall known : string -> bool,
  NoDup (to_query known ips)
  /\ forall ip, In ip (to_query known ips)
                <-> In ip ips /\ known ip = false.
Proof.
  induction ips as [|ip0 rest IH]; intros known; cbn [to_query].
  - split; [constructor|]. intros ip. cbn. tauto.
  - destruct (known ip0) eqn:K.
    + destruct (IH known) as [Hnd Hin]. split; [assumption|].
      intros ip. rewrite Hin. cbn [In]. split; [tauto|].
      intros [[->|H] Hk]; [congruence | tauto].
    + destruct (IH (fun k => String.eqb k ip0 || known k)) as [Hnd Hin].
      split.
      * constructor; [|assumption]. rewrite Hin.
        rewrite String.eqb_refl. cbn. intros [_ H]. discriminate.
      * intros ip. cbn [In]. rewrite Hin.
        destruct (String.eqb_spec ip ip0) as [->|Hne]; cbn [orb].
        -- split; [intros _; split; [now left | assumption]
                  | intros _; now left].
        -- split.
           ++ intros [E|[H1 H2]]; [congruence | tauto].
           ++ intros [[E|H] Hk]; [congruence | right; tauto].
Qed.

Lemma has_set (V : Type) (m : JsMap.t V) (k k' : string) (v : V) :
  has (set m k v) k' = String.eqb k' k || has m k'.
Proof.
  unfold has. destruct (String.eqb_spec k' k) as [->|Hne].
  - now rewrite get_set_same.
  - rewrite get_set_other by congruence. reflexivity.
Qed.

Lemma keys_set (V : Type) (m : JsMap.t V) (k : string) (v : V) :
  keys (set m k v) = if has m k then keys m else keys m ++ [k].
Proof.
  unfold has, keys. induction m as [|[k0 v0] m IH]; cbn; [reflexivity|].
  destruct (String.eqb_spec k0 k) as [->|Hne]; cbn; [reflexivity|].
  rewrite IH. now destruct (get m k).
Qed.

(** What one more [set] adds to the keys of a map when the loop goes on. *)
Lemma keys_set_to_query (V : Type) (m : JsMap.t V) (k : string) (v : V)
    (rest : list string) :
  keys (set m k v) ++ to_query (has (set m k v)) rest
  = keys m ++ to_query (has m) (k :: rest).
Proof.
  rewrite keys_set. cbn [to_query]. destruct (has m k) eqn:H.
  - f_equal. apply to_query_ext. intros k'. rewrite has_set.
    destruct (String.eqb_spec k' k) as [->|Hne]; [now rewrite H|reflexivity].
  - rewrite <- app_assoc. cbn [app]. do 2 f_equal.
    apply to_query_ext. intros k'. apply has_set.
Qed.

Lemma queries_app (tr1 tr2 : list Event) :
  queries (tr1 ++ tr2) = queries tr1 ++ queries tr2.
Proof.
  induction tr1 as [|[] tr1 IH]; cbn; auto. now rewrite IH.
Qed.

Section WithWorld.
Variable W : World.

Lemma lookupIPs_from_general onProgress total : forall ips i results st,
  lastWhoisQuery st <= clock st ->
  exists results' st' new,
    lookupIPs_from W onProgress total i ips results st
    = (Returned results', st')
    /\ trace st' = trace st ++ new
    /\ commands new
       = map (fun ip => ("whois " ++ ip)%string) (to_query (has (whoisCache st)) ips)
    /\ keys (whoisCache st')
       = keys (whoisCache st) ++ to_query (has (whoisCache st)) ips
    /\ keys results' = keys results ++ to_query (has results) ips
    /\ (forall k r, get (whoisCache st) k = Some r ->
                    get (whoisCache st') k = Some r)
    /\ (forall k, ~ In k ips -> get results' k = get results k)
    /\ (forall ip, In ip ips ->
          exists r, get results' ip = Some r
                    /\ get (whoisCache st') ip = Some r)
    /\ (keyed (whoisCache st) -> keyed (whoisCache st'))
    /\ lastWhoisQuery st' <= clock st'
    /\ forall rest, paced (lastWhoisQuery st') (clock st') rest ->
         paced (lastWhoisQuery st) (clock st) (new ++ rest).
Proof.
  induction ips as [|ip0 rest IH]; intros i results st Hwf.
  - exists results, st, []. cbn. rewrite !app_nil_r.
    repeat split; auto. intros ip [].
  - destruct (call_onProgress_shape onProgress ip0 (i + 1)%nat total st)
      as [pre [st0 [E0 [C0 [L0 [K0 [T0 Hpre]]]]]]].
    assert (Hq : forall l, queries (pre ++ l) = queries l).
    { intros l. destruct Hpre as [->| ->]; reflexivity. }
    assert (Hp : forall a b l, paced a b l -> paced a b (pre ++ l)).
    { intros a b l. destruct Hpre as [->| ->]; auto. }
    assert (S1 : exists r0 st1 new1,
               lookupIP W ip0 st0 = (Returned r0, st1)
               /\ trace st1 = trace st0 ++ new1
               /\ commands new1 ++ map (fun ip => ("whois " ++ ip)%string)
                                    (to_query (has (whoisCache st1)) rest)
                  = map (fun ip => ("whois " ++ ip)%string)
                        (to_query (has (whoisCache st)) (ip0 :: rest))
               /\ keys (whoisCache st1)
                  ++ to_query (has (whoisCache st1)) rest
                  = keys (whoisCache st)
                    ++ to_query (has (whoisCache st)) (ip0 :: rest)
               /\ get (whoisCache st1) ip0 = Some r0
               /\ (forall k r, get (whoisCache st) k = Some r ->
                               get (whoisCache st1) k = Some r)
               /\ (keyed (whoisCache st) -> keyed (whoisCache st1))
               /\ lastWhoisQuery st1 <= clock st1
               /\ forall l, paced (lastWhoisQuery st1) (clock st1) l ->
                    paced (lastWhoisQuery st) (clock st) (new1 ++ l)).
    { destruct (get (whoisCache st0) ip0) as [r0|] eqn:G.
      - exists r0, st0, []. rewrite (lookupIP_cached W _ _ G).
        rewrite app_nil_r. cbn [app commands queries map].
        assert (H0 : has (whoisCache st) ip0 = true).
        { unfold has. rewrite <- C0. now rewrite G. }
        cbn [to_query]. rewrite H0, C0.
        repeat split; auto; try congruence; try lia.
      - destruct (lookupIP_uncached_paced W ip0 st0 G ltac:(lia))
          as [r0 [st1 [new1 [issued [completed
               [E1 [C1 [T1 [Q1 [LI1 [L1 [K1 [Hic P1]]]]]]]]]]]]].
        exists r0, st1, new1.
        assert (H0 : has (whoisCache st) ip0 = false).
        { unfold has. rewrite <- C0. now rewrite G. }
        split; [assumption|]. split; [assumption|].
        rewrite C1, C0.
        split.
        { unfold commands. rewrite Q1. cbn [map fst to_query app].
          rewrite H0. cbn [map]. do 2 f_equal.
          apply to_query_ext. intros k. apply has_set. }
        split; [apply keys_set_to_query|].
        split; [apply get_set_same|].
        split.
        { intros k r H. rewrite get_set_other; [assumption|].
          intros ->. rewrite <- C0 in H. congruence. }
        split.
        { intros Hk k r. destruct (String.eqb_spec ip0 k) as [<-|Hne].
          - rewrite get_set_same. intros [= <-].
            pose proof (lookupIP_returns W ip0 st0)
              as [r' [st' [E' [_ [_ Old]]]]].
            rewrite E1 in E'. injection E' as <- <-.
            destruct Old as [Old|[_ [[o ->]|[m ->]]]];
              [congruence | reflexivity | reflexivity].
          - rewrite get_set_other by assumption. apply Hk. }
        split; [lia|].
        intros l Hl. rewrite <- L0, <- K0. apply P1.
        now rewrite <- L1, <- K1. }
    destruct S1 as [r0 [st1 [new1 [E1 [T1 [Q1 [Ky1 [G1 [Keep1 [Kd1
                   [W1 P1]]]]]]]]]]].
    destruct (IH (S i) (set results ip0 r0) st1 W1)
      as [results' [st' [new' [E' [T' [Q' [Ky' [Kr' [Keep' [NotIn
           [All [Kd' [W' P']]]]]]]]]]]]].
    exists results', st', (pre ++ new1 ++ new').
    split.
    { cbn [lookupIPs_from]. unfold bind at 1. rewrite E0.
      unfold bind at 1. rewrite E1. exact E'. }
    split; [rewrite T', T1, T0; now rewrite <- !app_assoc|].
    split.
    { unfold commands in *. rewrite Hq, queries_app, map_app, Q'.
      exact Q1. }
    split; [now rewrite Ky'|].
    split; [rewrite Kr'; apply keys_set_to_query|].
    split; [auto|].
    split.
    { intros k Hk. rewrite NotIn by (intros H; apply Hk; now right).
      apply get_set_other. intros ->. apply Hk. now left. }
    split.
    { intros ip Hin.
      destruct (in_dec string_dec ip rest) as [Hr|Hr]; [now apply All|].
      destruct Hin as [->|Hin]; [|contradiction].
      exists r0. split; [|now apply Keep'].
      rewrite NotIn by assumption. apply get_set_same. }
    split; [auto|]. split; [assumption|].
    intros l Hl. rewrite <- !app_assoc. apply Hp, P1. now apply P'.
Qed.

(** Whatever the batch (addresses repeated, addresses resolved earlier in
    the run), [lookupIPs] issues one query for each address that is new to
    the cache, in the order of first occurrence, and nothing else; the
    queries respect the rate limit; the cache grows by exactly those
    addresses and loses nothing; the map returned lists the distinct
    addresses of the batch in the order of first occurrence, each with the
    record the cache holds for it. *)
Theorem lookupIPs_queries_new_addresses_once (ips : list string)
    (onProgress : option unit) (st : State) :
  lastWhoisQuery st <= clock st ->
  let fresh := to_query (has (whoisCache st)) ips in
  NoDup fresh
  /\ (forall ip, In ip fresh
                 <-> In ip ips /\ get (whoisCache st) ip = None)
  /\ exists results st' new,
       lookupIPs W ips onProgress st = (Returned results, st')
       /\ trace st' = trace st ++ new
       /\ commands new = map (fun ip => ("whois " ++ ip)%string) fresh
       /\ paced (lastWhoisQuery st) (clock st) new
       /\ keys (whoisCache st') = keys (whoisCache st) ++ fresh
       /\ (forall k r, get (whoisCache st) k = Some r ->
                       get (whoisCache st') k = Some r)
       /\ keys results = distinct ips
       /\ forall ip, In ip ips ->
            exists r, get results ip = Some r
                      /\ get (whoisCache st') ip = Some r.
Proof.
  intros Hwf fresh.
  destruct (to_query_spec ips (has (whoisCache st))) as [Hnd Hin].
  split; [assumption|]. split.
  { intros ip. fold fresh in Hin. rewrite Hin. unfold has.
    destruct (get (whoisCache st) ip); split; intros [H1 H2];
      split; auto; discriminate. }
  destruct (@lookupIPs_from_general onProgress (length ips) ips 0%nat
              empty st Hwf)
    as [results [st' [new [E [T [Q [Ky [Kr [Keep [_ [All [_ [_ P]]]]]]]]]]]]].
  exists results, st', new.
  split; [exact E|]. split; [exact T|]. split; [exact Q|].
  split; [specialize (P [] I); now rewrite app_nil_r in P|].
  split; [exact Ky|]. split; [exact Keep|]. split; [|exact All].
  rewrite Kr. cbn [keys map app empty]. apply to_query_ext. reflexivity.
Qed.

(** In a run whose cache files every record under its own address (the
    empty cache of a fresh run does), every record [lookupIPs] returns
    carries the address it is returned for, and the cache still files
    every record under its own address. *)
Theorem lookupIPs_records_carry_their_address (ips : list string)
    (onProgress : option unit) (st : State) :
  keyed (whoisCache st) ->
  exists results st',
    lookupIPs W ips onProgress st = (Returned results, st')
    /\ keyed results
    /\ keyed (whoisCache st')
    /\ forall k, In k (keys results) <-> In k ips.
Proof.
  intros Hk.
  destruct (@lookupIPs_from_results W onProgress (length ips) ips 0%nat
              empty st)
    as [results [st' [E [NotIn [Keep All]]]]].
  exists results, st'. split; [exact E|].
  assert (Kc : keyed (whoisCache st')).
  { clear - Hk E. unfold lookupIPs in *. revert E.
    generalize (length ips) at 1. generalize 0%nat.
    generalize (@empty LookupRecord).
    revert st Hk. induction ips as [|ip0 rest IH];
      intros st Hk results0 i total; cbn [lookupIPs_from].
    - intros [= _ <-]. assumption.
    - destruct (call_onProgress_shape onProgress ip0 (i + 1)%nat total st)
        as [pre [st0 [E0 [C0 _]]]].
      unfold bind at 1. rewrite E0. unfold bind at 1.
      destruct (lookupIP_returns W ip0 st0)
        as [r0 [st1 [E1 [G1 [Other Old]]]]].
      rewrite E1. apply IH.
      intros k r. destruct (String.eqb_spec k ip0) as [->|Hne].
      + rewrite G1. intros [= <-].
        destruct Old as [Old|[_ [[o ->]|[m ->]]]];
          [|reflexivity|reflexivity].
        apply Hk. now rewrite <- C0.
      + rewrite (Other _ Hne), C0. apply Hk. }
  split; [|split; [exact Kc|]].
  - intros k r G.
    destruct (in_dec string_dec k ips) as [Hin|Hout].
    + destruct (All k Hin) as [r' [R1 [R2 _]]].
      apply Kc. congruence.
    + rewrite (NotIn k Hout) in G. discriminate G.
  - intros k. split.
    + intros Hin. destruct (in_dec string_dec k ips) as [|Hout];
        [assumption|].
      pose proof (NotIn k Hout) as G. cbn in G.
      apply get_None_keys in G. contradiction.
    + intros Hin. destruct (All k Hin) as [r [R1 _]].
      eapply get_In_keys. exact R1.
Qed.
End WithWorld.

Lemma lookupIPs_queries_new_addresses_once_witness :
  exists results st',
    lookupIPs sample_world
      ["203.0.113.5"; "198.51.100.10"; "203.0.113.5"] None sample_start
    = (Returned results, st')
    /\ commands (trace st') = ["whois 203.0.113.5"; "whois 198.51.100.10"]
    /\ keys results = ["203.0.113.5"; "198.51.100.10"].
Proof.
  destruct (@lookupIPs_queries_new_addresses_once sample_world
              ["203.0.113.5"; "198.51.100.10"; "203.0.113.5"] None
              sample_start)
    as [_ [_ [results [st' [new [E [T [Q [_ [_ [_ [K _]]]]]]]]]]]].
  - vm_compute. discriminate.
  - exists results, st'. split; [exact E|]. split.
    + rewrite T. exact Q.
    + exact K.
Defined.

Lemma lookupIPs_records_carry_their_address_witness :
  exists results st',
    lookupIPs sample_world sample_ips None sample_start
    = (Returned results, st')
    /\ keyed results.
Proof.
  destruct (@lookupIPs_records_carry_their_address sample_world sample_ips
              None sample_start)
    as [results [st' [E [K _]]]].
  - intros k r G. discriminate G.
  - exists results, st'. split; [exact E | exact K].
Defined.

End LookupMore.

(** ** What a batch does with each address *)

Module BatchOutcomes.
Import Chars JsMap AbuseLookup JsMapFacts LookupProps LookupMore.
Local Open Scope string_scope.
Local Open Scope list_scope.
Local Open Scope Z_scope.

(** The record that the query for [ip] leaves, [before] being the events
    up to its dispatch: the record built from the standard output when the
    child process ends with success within the 30 seconds allowed; the
    failure record with the message of the error when it ends with an
    error; the failure record of the time-out when it runs longer. *)
Definition query_record (W : World) (before : list Event) (ip : string)
  : LookupRecord :=
  let cmd := ("whois " ++ ip)%string in
  let '(answer, duration) := child_process W before cmd in
  if 30000 <? Z.of_N duration then
    {| ip := ip; abuseEmail := None; orgName := Some "Unknown";
       netRange := None; country := None; rawWhois := None;
       error := Some ("Command failed: " ++ cmd)%string |}
  else
    match answer with
    | inl stdout => success_record ip stdout
    | inr message =>
        {| ip := ip; abuseEmail := None; orgName := Some "Unknown";
           netRange := None; country := None; rawWhois := None;
           error := Some message |}
    end.

(** The query for [ip] stands in the events [new] of a batch started
    after the events [old], and [r] is the record it left. *)
Definition resolved_by_query (W : World) (old new : list Event)
    (ip : string) (r : LookupRecord) : Prop :=
  exists before after issued completed,
    new = before ++ EvExec ("whois " ++ ip)%string issued completed :: after
    /\ r = query_record W (old ++ before) ip.

Section WithWorld.
Variable W : World.

Lemma execAsync_record (ip : string) (st : State) :
  match fst (execAsync W ("whois " ++ ip)%string 30000 st) with
  | Returned stdout => success_record ip stdout
  | Thrown message => failure_record ip message
  end
  = query_record W (trace st) ip.
Proof.
  unfold execAsync, query_record.
  destruct (child_process W (trace st) ("whois " ++ ip)%string)
    as [answer duration].
  destruct (30000 <? Z.of_N duration); [reflexivity|].
  destruct answer; reflexivity.
Qed.

Lemma lookupIP_uncached_settled (ip : string) (st : State) :
  get (whoisCache st) ip = None ->
  exists st' timers issued completed,
    lookupIP W ip st
    = (Returned (query_record W (trace st ++ timers) ip), st')
    /\ trace st'
       = trace st ++ timers
         ++ [EvExec ("whois " ++ ip)%string issued completed]
    /\ Forall is_timer timers
    /\ whoisCache st'
       = set (whoisCache st) ip (query_record W (trace st ++ timers) ip).
Proof.
  intros G. rewrite (lookupIP_uncached W _ _ G).
  destruct (rateLimitDelay_returns W st)
    as [st1 [E1 [C1 [_ [timers [T1 F1]]]]]].
  rewrite E1. cbn [snd].
  pose proof (execAsync_record ip st1) as R.
  destruct (execAsync_shape W ("whois " ++ ip)%string 30000 st1)
    as [o [issued [completed [E2 _]]]].
  rewrite E2 in *. cbn [fst] in R. unfold settle. cbn [fst snd].
  rewrite R, T1. unfold whoisCache_set. cbn [snd].
  eexists. exists timers, issued, completed.
  split; [reflexivity|]. cbn [trace whoisCache at_time emit].
  split; [now rewrite T1, <- app_assoc|]. split; [assumption|].
  now rewrite C1.
Qed.

Lemma commands_app (tr1 tr2 : list Event) :
  commands (tr1 ++ tr2) = commands tr1 ++ commands tr2.
Proof. unfold commands. now rewrite queries_app, map_app. Qed.

Lemma commands_timers (timers : list Event) :
  Forall is_timer timers -> commands timers = [].
Proof.
  intros F. unfold commands.
  rewrite <- (app_nil_r timers), (queries_timers F). reflexivity.
Qed.

Lemma lookupIPs_from_settled onProgress total : forall ips i results st,
  exists results' st' new,
    lookupIPs_from W onProgress total i ips results st
    = (Returned results', st')
    /\ trace st' = trace st ++ new
    /\ commands new
       = map (fun ip => ("whois " ++ ip)%string) (to_query (has (whoisCache st)) ips)
    /\ (forall k r, get (whoisCache st) k = Some r ->
                    get (whoisCache st') k = Some r)
    /\ (forall k, ~ In k ips -> get results' k = get results k)
    /\ forall ip, In ip ips ->
         exists r, get results' ip = Some r
           /\ get (whoisCache st') ip = Some r
           /\ (get (whoisCache st) ip = Some r
               \/ (get (whoisCache st) ip = None
                   /\ resolved_by_query W (trace st) new ip r)).
Proof.
  induction ips as [|ip0 rest IH]; intros i results st.
  - exists results, st, []. cbn. rewrite app_nil_r.
    repeat split; auto. intros ip [].
  - destruct (call_onProgress_shape onProgress ip0 (i + 1)%nat total st)
      as [pre [st0 [E0 [C0 [_ [_ [T0 Hpre]]]]]]].
    assert (Hq : forall l, commands (pre ++ l) = commands l).
    { intros l. destruct Hpre as [->| ->]; reflexivity. }
    destruct (get (whoisCache st0) ip0) as [r0|] eqn:G.
    + (* answered from the cache *)
      pose proof (lookupIP_cached W _ _ G) as E1.
      destruct (IH (S i) (set results ip0 r0) st0)
        as [results' [st' [new' [E' [T' [Q' [Keep' [Out' All']]]]]]]].
      exists results', st', (pre ++ new').
      split.
      { cbn [lookupIPs_from]. unfold bind at 1. rewrite E0.
        unfold bind at 1. rewrite E1. exact E'. }
      split; [rewrite T', T0; now rewrite <- app_assoc|].
      split.
      { rewrite Hq, Q', C0. cbn [to_query]. unfold has at 2.
        rewrite <- C0, G. reflexivity. }
      split; [intros k r H; apply Keep'; now rewrite C0|].
      split.
      { intros k Hk. rewrite Out' by (intros H; apply Hk; now right).
        apply get_set_other. intros ->. apply Hk. now left. }
      intros ip Hin.
      destruct (in_dec string_dec ip rest) as [Hr|Hr].
      * destruct (All' ip Hr) as [r [R1 [R2 R3]]].
        exists r. split; [assumption|]. split; [assumption|].
        rewrite C0 in R3. destruct R3 as [R3|[R3 R4]]; [now left|].
        right. split; [assumption|].
        destruct R4 as [before [after [issued [completed [N R]]]]].
        exists (pre ++ before), after, issued, completed.
        split; [rewrite N; now rewrite <- app_assoc|].
        rewrite R, T0. now rewrite <- app_assoc.
      * destruct Hin as [->|Hin]; [|contradiction].
        exists r0. split; [rewrite Out' by assumption; apply get_set_same|].
        split; [now apply Keep'|]. left. now rewrite <- C0.
    + (* a query *)
      destruct (lookupIP_uncached_settled ip0 st0 G)
        as [st1 [timers [issued [completed [E1 [T1 [F1 C1]]]]]]].
      set (r0 := query_record W (trace st0 ++ timers) ip0) in *.
      destruct (IH (S i) (set results ip0 r0) st1)
        as [results' [st' [new' [E' [T' [Q' [Keep' [Out' All']]]]]]]].
      set (ev := EvExec ("whois " ++ ip0)%string issued completed) in *.
      exists results', st', (pre ++ timers ++ [ev] ++ new').
      assert (H0 : has (whoisCache st) ip0 = false).
      { unfold has. rewrite <- C0. now rewrite G. }
      assert (Hown : resolved_by_query W (trace st)
                       (pre ++ timers ++ [ev] ++ new') ip0 r0).
      { exists (pre ++ timers), new', issued, completed.
        split; [now rewrite <- app_assoc|].
        unfold r0. rewrite T0. now rewrite <- app_assoc. }
      split.
      { cbn [lookupIPs_from]. unfold bind at 1. rewrite E0.
        unfold bind at 1. rewrite E1. exact E'. }
      split; [rewrite T', T1, T0; now rewrite <- !app_assoc|].
      split.
      { rewrite Hq, !commands_app, (commands_timers F1), Q', C1, C0.
        cbn [to_query app]. rewrite H0. cbn [map]. unfold ev.
        cbn [commands queries map fst app]. do 2 f_equal.
        apply to_query_ext. intros k. apply has_set. }
      split.
      { intros k r H. apply Keep'. rewrite C1, get_set_other.
        - now rewrite C0.
        - intros ->. rewrite <- C0 in H. congruence. }
      split.
      { intros k Hk. rewrite Out' by (intros H; apply Hk; now right).
        apply get_set_other. intros ->. apply Hk. now left. }
      intros ip Hin.
      destruct (in_dec string_dec ip rest) as [Hr|Hr].
      * destruct (All' ip Hr) as [r [R1 [R2 R3]]].
        exists r. split; [assumption|]. split; [assumption|].
        rewrite C1, C0 in R3.
        destruct (string_dec ip ip0) as [->|Hne].
        -- rewrite get_set_same in R3.
           destruct R3 as [R3|[R3 _]]; [|discriminate R3].
           injection R3 as <-. right. split; [now rewrite <- C0|].
           exact Hown.
        -- rewrite get_set_other in R3 by congruence.
           destruct R3 as [R3|[R3 R4]]; [now left|].
           right. split; [assumption|].
           destruct R4 as [before [after [issued' [completed' [N R]]]]].
           exists (pre ++ timers ++ [ev] ++ before), after, issued',
             completed'.
           split; [rewrite N; now rewrite <- !app_assoc|].
           rewrite R, T1, T0. now rewrite <- !app_assoc.
      * destruct Hin as [->|Hin]; [|contradiction].
        exists r0. split; [rewrite Out' by assumption; apply get_set_same|].
        split; [apply Keep'; rewrite C1; apply get_set_same|].
        right. split; [now rewrite <- C0 | exact Hown].
Qed.

(** C3. Whatever the directory does, [lookupIPs] returns (it never
    throws), and no failure aborts the batch: the commands it issues are
    the queries for the addresses that are new to the cache, one each, in
    order of first occurrence, whatever the earlier queries ended with.
    The map returned holds a record for every input address: the record
    cached before the call, or else the record left by the query for that
    address, which stands among the events of the batch. That record is
    built from the standard output when the child process succeeds in
    time; when the child process ends with an error or is still running
    after 30 seconds, it is the failure record: the error message set, no
    abuse contact, network range, country or raw text, and the
    organisation "Unknown". A resolution whose query is rejected returns
    the failure record carrying the message of the rejection, and caches
    it. *)
Theorem lookupIPs_never_throws (ips : list string)
    (onProgress : option unit) (st : State) :
  (exists results st' new,
     lookupIPs W ips onProgress st = (Returned results, st')
     /\ trace st' = trace st ++ new
     /\ commands new
        = map (fun ip => ("whois " ++ ip)%string)
            (to_query (has (whoisCache st)) ips)
     /\ forall ip, In ip ips ->
          exists r, get results ip = Some r
            /\ (get (whoisCache st) ip = Some r
                \/ (get (whoisCache st) ip = None
                    /\ exists before after issued completed,
                         new = before
                               ++ EvExec ("whois " ++ ip)%string issued completed
                               :: after
                         /\ r = query_record W (trace st ++ before) ip)))
  /\ (forall ip message st1,
        get (whoisCache st) ip = None ->
        execAsync W ("whois " ++ ip)%string 30000
          (snd (rateLimitDelay W st)) = (Thrown message, st1) ->
        exists st2,
          lookupIP W ip st
          = (Returned {| ip := ip; abuseEmail := None;
                         orgName := Some "Unknown"; netRange := None;
                         country := None; rawWhois := None;
                         error := Some message |}, st2)
          /\ get (whoisCache st2) ip
             = Some {| ip := ip; abuseEmail := None;
                       orgName := Some "Unknown"; netRange := None;
                       country := None; rawWhois := None;
                       error := Some message |}).
Proof.
  split.
  - destruct (lookupIPs_from_settled onProgress (length ips) ips 0 empty st)
      as [results [st' [new [E [T [Q [_ [_ All]]]]]]]].
    exists results, st', new. split; [exact E|]. split; [exact T|].
    split; [exact Q|].
    intros ip Hin. destruct (All ip Hin) as [r [R1 [_ R3]]].
    exists r. split; [assumption|].
    destruct R3 as [R3|[R3 R4]]; [now left | right; split; assumption].
  - intros ip message st1 G E.
    rewrite (lookupIP_uncached W _ _ G), E.
    unfold settle, whoisCache_set; cbn [fst snd whoisCache].
    eexists. split; [reflexivity|]. apply get_set_same.
Qed.
End WithWorld.

Lemma lookupIPs_never_throws_witness :
  exists results st',
    lookupIPs sample_world ["198.51.100.10"; "203.0.113.5"] (Some tt)
      sample_start
    = (Returned results, st')
    /\ commands (trace st') = ["whois 198.51.100.10"; "whois 203.0.113.5"]
    /\ get results "198.51.100.10"
       = Some (failure_record "198.51.100.10"
                 "Command failed: whois 198.51.100.10")
    /\ get results "203.0.113.5"
       = Some (success_record "203.0.113.5"
                 "OrgAbuseEmail: abuse@example.net").
Proof.
  pose proof (lookupIPs_never_throws sample_world
                ["198.51.100.10"; "203.0.113.5"] (Some tt) sample_start)
    as [[results [st' [new [E [T [Q All]]]]]] _].
  exists results, st'. split; [exact E|]. split; [rewrite T; exact Q|].
  split.
  - destruct (All "198.51.100.10") as [r [G [C|[_ R]]]].
    + left. reflexivity.
    + discriminate C.
    + destruct R as [before [after [issued [completed [_ R]]]]].
      rewrite G, R. reflexivity.
  - destruct (All "203.0.113.5") as [r [G [C|[_ R]]]].
    + right. left. reflexivity.
    + discriminate C.
    + destruct R as [before [after [issued [completed [_ R]]]]].
      rewrite G, R. reflexivity.
Defined.

End BatchOutcomes.

(** ** Contacts and reports *)

Module ReportMore.
Import Chars JsMap JsMapFacts AbuseLookup EmailGenerator.
Import AggregatorProps ReportProps LookupMore.
Local Open Scope string_scope.
Local Open Scope list_scope.

(** The contacts of a batch of records, in order of first appearance. *)
Definition contacts (records : list LookupRecord) : list string :=
  distinct (map group_key records).

Definition with_contact (k : string) (records : list LookupRecord)
  : list LookupRecord :=
  filter (fun r => String.eqb (group_key r) k) records.

Definition resolved (k : string) : bool := negb (String.eqb k UNKNOWN).

Lemma has_push (V : Type) (m : JsMap.t (list V)) (k k' : string) (x : V) :
  has (push m k x) k' = String.eqb k' k || has m k'.
Proof.
  unfold has. destruct (String.eqb_spec k' k) as [->|Hne].
  - now rewrite get_push_same.
  - rewrite get_push_other by congruence. reflexivity.
Qed.

Lemma keys_file (A V : Type) (key : A -> string) (val : A -> V)
    (items : list A) : forall m : JsMap.t (list V),
  keys (file key val m items) = keys m ++ to_query (has m) (map key items).
Proof.
  unfold file. induction items as [|a items IH]; intros m;
    cbn [fold_left map to_query]; [now rewrite app_nil_r|].
  rewrite IH, keys_push. destruct (has m (key a)) eqn:H.
  - f_equal. apply to_query_ext. intros k. rewrite has_push.
    destruct (String.eqb_spec k (key a)) as [->|Hne];
      [now rewrite H | reflexivity].
  - rewrite <- app_assoc. cbn [app]. do 2 f_equal.
    apply to_query_ext. intros k. apply has_push.
Qed.

Lemma keys_groupByAbuseEmail (whoisResults : JsMap.t LookupRecord) :
  keys (groupByAbuseEmail whoisResults) = contacts (values whoisResults).
Proof.
  rewrite groupByAbuseEmail_file, keys_file. cbn [keys empty map app].
  unfold contacts, distinct, values. rewrite map_map.
  apply to_query_ext. reflexivity.
Qed.

Lemma NoDup_keys_groupByAbuseEmail (whoisResults : JsMap.t LookupRecord) :
  NoDup (keys (groupByAbuseEmail whoisResults)).
Proof.
  rewrite groupByAbuseEmail_file. apply NoDup_keys_file. constructor.
Qed.

Lemma group_entry (whoisResults : JsMap.t LookupRecord) (k : string)
    (g : list LookupRecord) :
  In (k, g) (groupByAbuseEmail whoisResults) ->
  g = with_contact k (values whoisResults) /\ g <> [].
Proof.
  intros H. apply In_get in H; [|apply NoDup_keys_groupByAbuseEmail].
  rewrite get_group in H. fold (with_contact k (values whoisResults)) in H.
  destruct (with_contact k (values whoisResults)); [discriminate|].
  injection H as <-. split; [reflexivity | discriminate].
Qed.

(** The contacts are listed in order of first appearance, the unresolved
    key taking the place of the first record without a contact; every group
    holds at least one record, and the records of its key in input order. *)
Theorem groupByAbuseEmail_order (whoisResults : JsMap.t LookupRecord) :
  let groups := groupByAbuseEmail whoisResults in
  keys groups = contacts (values whoisResults)
  /\ (forall k, In k (keys groups)
                <-> exists r, In r (values whoisResults) /\ group_key r = k)
  /\ forall k g, In (k, g) groups ->
       g = with_contact k (values whoisResults) /\ g <> [].
Proof.
  cbv zeta. split; [apply keys_groupByAbuseEmail|]. split.
  - intros k. rewrite keys_groupByAbuseEmail. unfold contacts, distinct.
    destruct (to_query_spec (map group_key (values whoisResults))
                (fun _ => false)) as [_ Hin].
    rewrite Hin, in_map_iff. split.
    + intros [[r [E H]] _]. eauto.
    + intros [r [H E]]. split; [eauto | reflexivity].
  - apply group_entry.
Qed.

Section Reports.
Variables (now_utc now_iso : string).
Variables (ipLogMap : JsMap.t (list string)) (options : Options).

Definition report_for (entry : string * list LookupRecord) : Email :=
  generateEmail now_utc now_iso (fst entry) (snd entry) ipLogMap options.

Lemma generateAllEmails_map (groups : JsMap.t (list LookupRecord)) :
  generateAllEmails now_utc now_iso groups ipLogMap options
  = map report_for (filter (fun entry => resolved (fst entry)) groups).
Proof.
  unfold generateAllEmails.
  assert (G : forall acc,
            fold_left (add_email now_utc now_iso ipLogMap options) groups acc
            = acc ++ map report_for
                       (filter (fun entry => resolved (fst entry)) groups)).
  { induction groups as [|[k g] groups IH]; intros acc; cbn [fold_left].
    - cbn. now rewrite app_nil_r.
    - rewrite IH. cbn [filter fst add_email]. unfold resolved, UNKNOWN.
      destruct (String.eqb k "unknown@unknown"); cbn [negb]; [reflexivity|].
      rewrite <- app_assoc. reflexivity. }
  apply (G []).
Qed.

Lemma filter_keys (V : Type) (f : string -> bool) (m : JsMap.t V) :
  keys (filter (fun entry => f (fst entry)) m) = filter f (keys m).
Proof.
  unfold keys. induction m as [|[k v] m IH]; cbn; [reflexivity|].
  destruct (f k); cbn; now rewrite IH.
Qed.

Lemma concat_values_split (V : Type) (f : string -> bool)
    (m : JsMap.t (list V)) :
  Permutation
    (concat (values m))
    (concat (values (filter (fun entry => f (fst entry)) m))
     ++ concat (values (filter (fun entry => negb (f (fst entry))) m))).
Proof.
  unfold values. induction m as [|[k g] m IH]; cbn; [constructor|].
  destruct (f k); cbn.
  - rewrite <- app_assoc. now apply Permutation_app_head.
  - rewrite IH. rewrite !app_assoc. apply Permutation_app_tail.
    apply Permutation_app_comm.
Qed.

Lemma concat_values_key (V : Type) (k : string) (m : JsMap.t (list V)) :
  NoDup (keys m) ->
  concat (values (filter (fun entry => String.eqb (fst entry) k) m))
  = match get m k with Some g => g | None => [] end.
Proof.
  unfold keys, values. induction m as [|[k0 g] m IH]; intros Hnd;
    cbn [filter map fst get concat]; [reflexivity|].
  inversion Hnd as [|? ? Hnotin Hnd']; subst.
  destruct (String.eqb_spec k0 k) as [->|Hne]; [|now apply IH].
  cbn [map snd concat]. rewrite (IH Hnd').
  destruct (get m k) eqn:G; [|now rewrite app_nil_r].
  exfalso. apply Hnotin. eapply get_In_keys. exact G.
Qed.

Lemma reports_recipients (whoisResults : JsMap.t LookupRecord) :
  map to (generateAllEmails now_utc now_iso (groupByAbuseEmail whoisResults)
            ipLogMap options)
  = filter resolved (contacts (values whoisResults)).
Proof.
  rewrite generateAllEmails_map, map_map.
  rewrite <- keys_groupByAbuseEmail, <- filter_keys. reflexivity.
Qed.

Lemma reports_members (whoisResults : JsMap.t LookupRecord) (e : Email) :
  In e (generateAllEmails now_utc now_iso (groupByAbuseEmail whoisResults)
          ipLogMap options) ->
  e = generateEmail now_utc now_iso (to e)
        (with_contact (to e) (values whoisResults)) ipLogMap options
  /\ ips e = map ip (with_contact (to e) (values whoisResults))
  /\ ips e <> [].
Proof.
  rewrite generateAllEmails_map. intros He.
  apply in_map_iff in He. destruct He as [[k g] [<- Hk]].
  apply filter_In in Hk. destruct Hk as [Hk _].
  apply group_entry in Hk. destruct Hk as [-> Hne].
  cbn [report_for generateEmail to ips fst snd].
  split; [reflexivity|]. split; [reflexivity|].
  destruct (with_contact k (values whoisResults)); [congruence|discriminate].
Qed.

Lemma reports_permutation (whoisResults : JsMap.t LookupRecord) :
  Permutation
    (concat (map ips (generateAllEmails now_utc now_iso
                        (groupByAbuseEmail whoisResults) ipLogMap options))
     ++ map ip (with_contact UNKNOWN (values whoisResults)))
    (map ip (values whoisResults)).
Proof.
  rewrite generateAllEmails_map.
  set (groups := groupByAbuseEmail whoisResults).
  assert (E1 : forall kept : JsMap.t (list LookupRecord),
            concat (map ips (map report_for kept))
            = map ip (concat (values kept))).
  { intros kept. rewrite concat_map. unfold values. rewrite !map_map.
    reflexivity. }
  assert (E2 : with_contact UNKNOWN (values whoisResults)
               = concat (values (filter
                   (fun entry => negb (resolved (fst entry))) groups))).
  { rewrite (filter_ext (fun entry => negb (resolved (fst entry)))
               (fun entry => String.eqb (fst entry) UNKNOWN))
      by (intros [k g]; unfold resolved; now rewrite negb_involutive).
    rewrite concat_values_key by apply NoDup_keys_groupByAbuseEmail.
    unfold groups. rewrite get_group.
    fold (with_contact UNKNOWN (values whoisResults)).
    now destruct (with_contact UNKNOWN (values whoisResults)). }
  rewrite E1, E2, <- map_app. apply Permutation_map.
  eapply Permutation_trans;
    [apply Permutation_sym, (concat_values_split resolved groups)|].
  unfold groups. rewrite groupByAbuseEmail_file, concat_values_file.
  reflexivity.
Qed.

(** From lookup records to reports: one report for each contact other
    than the unresolved key, in order of first appearance; a report names
    the addresses of the records of its contact, in input order, and is
    never empty; every record is accounted for once, in the report to its
    contact or among the unresolved, for which a summary exists exactly
    when there is one. *)
Theorem generateAllEmails_accounts_for_all
    (whoisResults : JsMap.t LookupRecord) :
  let records := values whoisResults in
  let groups := groupByAbuseEmail whoisResults in
  let emails := generateAllEmails now_utc now_iso groups ipLogMap options in
  let unresolved := with_contact UNKNOWN records in
  map to emails = filter resolved (contacts records)
  /\ NoDup (map to emails)
  /\ (forall e, In e emails ->
        e = generateEmail now_utc now_iso (to e)
              (with_contact (to e) records) ipLogMap options
        /\ ips e = map ip (with_contact (to e) records)
        /\ ips e <> [])
  /\ Permutation (concat (map ips emails) ++ map ip unresolved)
                 (map ip records)
  /\ (generateUnknownIPsSummary groups = None <-> unresolved = []).
Proof.
  cbv zeta. split; [apply reports_recipients|]. split.
  { rewrite reports_recipients. apply NoDup_filter.
    rewrite <- keys_groupByAbuseEmail. apply NoDup_keys_groupByAbuseEmail. }
  split; [apply reports_members|]. split; [apply reports_permutation|].
  unfold generateUnknownIPsSummary. rewrite get_group.
  change "unknown@unknown" with UNKNOWN.
  fold (with_contact UNKNOWN (values whoisResults)).
  destruct (with_contact UNKNOWN (values whoisResults));
    split; intros H; try reflexivity; discriminate.
Qed.
End Reports.

End ReportMore.

(** ** Provider directories *)

Module ProviderProps.
Import Chars Regex RegexFacts MatchFacts AbuseLookup Index.
Import ExtractorProps ExtractionShape ParserMore.
Local Open Scope string_scope.
Local Open Scope list_scope.
Local Open Scope nat_scope.

(** What follows the first ["@"]. *)
Fixpoint after_at (l : list ascii) : option (list ascii) :=
  match l with
  | [] => None
  | c :: l' => if Ascii.eqb c "@" then Some l' else after_at l'
  end.

Definition provider_of (email : string) : string :=
  match after_at (list_ascii_of_string email) with
  | Some (c :: g) => string_of_list_ascii (c :: g)
  | _ => "unknown"
  end.

Lemma after_at_Some (l g : list ascii) :
  after_at l = Some g ->
  exists pre, l = pre ++ "@"%char :: g /\ ~ In "@"%char pre.
Proof.
  revert g. induction l as [|c l IH]; intros g; cbn [after_at];
    [discriminate|].
  destruct (Ascii.eqb_spec c "@") as [->|Hne].
  - intros [= <-]. exists []. split; [reflexivity | intros []].
  - intros H. destruct (IH _ H) as [pre [-> Hpre]].
    exists (c :: pre). split; [reflexivity|].
    intros [E|Hin]; [congruence | contradiction].
Qed.

Lemma after_at_None (l : list ascii) :
  after_at l = None -> ~ In "@"%char l.
Proof.
  induction l as [|c l IH]; cbn [after_at]; [intros _ []|].
  destruct (Ascii.eqb_spec c "@") as [->|Hne]; [discriminate|].
  intros H [E|Hin]; [congruence | now apply IH].
Qed.

Section Search.
Variable s : list ascii.

(** A reading of the pattern starts on an ["@"] that something follows. *)
Lemma provider_reading (j : nat) (y : mstate) :
  lang s provider_pattern (start_at j) y ->
  nth_error s j = Some "@"%char /\ j + 2 <= length s.
Proof.
  intros L. split.
  - unfold provider_pattern in L. cbn [lang lit] in L.
    destruct L as [z [[ch [E [Hc _]]] _]]. cbn [pos start_at] in E.
    apply Ascii.eqb_eq in Hc. congruence.
  - assert (M : pos (start_at j) + 2 <= pos y)
      by exact (@lang_min_len s _ _ _ L).
    assert (B : pos y <= length s).
    { assert (W : within (fun _ => true) provider_pattern = true)
        by reflexivity.
      pose proof (@lang_within s _ _ W _ _ L) as Sp.
      destruct (Sp (pos y - 1)) as [ch [E _]]; [cbn [pos start_at] in *; lia|].
      assert (pos y - 1 < length s) by (apply nth_error_Some; congruence).
      lia. }
    cbn [pos start_at] in M. lia.
Qed.

Lemma search_fails (r : regex) :
  (forall j, run s r (start_at j) Some = None) ->
  forall fuel i, search s r fuel i = None.
Proof.
  intros H. induction fuel as [|fuel IH]; intros i; [reflexivity|].
  change (search s r (S fuel) i)
    with (match run s r (start_at i) Some with
          | Some y => Some (i, y)
          | None => search s r fuel (S i)
          end).
  now rewrite H.
Qed.

Lemma provider_run_fails (j : nat) :
  (nth_error s j <> Some "@"%char \/ length s < j + 2) ->
  run s provider_pattern (start_at j) Some = None.
Proof.
  intros H. destruct (run s provider_pattern (start_at j) Some) as [y|] eqn:E;
    [|reflexivity].
  apply run_sound in E; [|reflexivity]. destruct E as [y' [L _]].
  apply provider_reading in L. destruct L as [L1 L2].
  destruct H as [H|H]; [contradiction | lia].
Qed.
End Search.

Lemma provider_found (pre g : list ascii) :
  ~ In "@"%char pre -> g <> [] -> forallb is_dot g = true ->
  let s := pre ++ "@"%char :: g in
  exec_from s provider_pattern 0
  = Some (length pre,
          {| pos := length s; cap := Some (S (length pre), length s) |}).
Proof.
  intros Hpre Hg Hdot s.
  assert (Hlen : length s = length pre + S (length g)).
  { unfold s. rewrite length_app. reflexivity. }
  set (x1 := advance (start_at (length pre))).
  assert (Hrun : run s provider_pattern (start_at (length pre)) Some
                 = Some (capture x1 (moved x1 (length g)))).
  { unfold provider_pattern, lit. cbn [run pos start_at].
    unfold s at 1. rewrite nth_error_app2 by lia.
    rewrite Nat.sub_diag. cbn [nth_error].
    change (is_char "@" "@") with true. cbv iota. fold x1.
    apply (@rep_chr_greedy s is_dot (length g)).
    - unfold rep_bound. cbn [pos x1 advance start_at].
      destruct g; [congruence|]. cbn [length] in *. lia.
    - intros i Hi. cbn [pos x1 advance start_at]. unfold s.
      rewrite nth_error_app2 by lia.
      replace (S (length pre) + i - length pre) with (S i) by lia.
      cbn [nth_error]. destruct (nth_error g i) as [ch|] eqn:E.
      + exists ch. split; [reflexivity|].
        rewrite forallb_forall in Hdot. apply Hdot.
        eapply nth_error_In. exact E.
      + apply nth_error_None in E. lia.
    - right. cbn [pos x1 advance start_at].
      assert (E : nth_error s (S (length pre) + length g) = None)
        by (apply nth_error_None; lia).
      now rewrite E.
    - cbn [pos capture moved x1 advance start_at].
      replace (S (length pre) + length g) with (length s) by lia.
      now rewrite Nat.eqb_refl. }
  unfold exec_from. cbn [Nat.ltb Nat.leb]. rewrite Nat.sub_0_r.
  assert (HB : length pre <= length s) by lia.
  destruct (@search_reaches s provider_pattern (length pre) _ Hrun HB
              (S (length s)) 0 ltac:(lia) ltac:(lia))
    as [j [y [Hs [Hj Hr]]]].
  rewrite Hs. destruct (Nat.eq_dec j (length pre)) as [->|Hne].
  - rewrite Hrun in Hr. injection Hr as <-. subst x1.
    unfold capture, moved, advance, start_at. cbn [pos cap].
    now replace (S (length pre) + length g) with (length s) by lia.
  - exfalso. rewrite provider_run_fails in Hr; [discriminate|]. left.
    unfold s. rewrite nth_error_app1 by lia. intros E.
    apply Hpre. eapply nth_error_In. exact E.
Qed.

Lemma getProviderFromEmail_found (email : string) (pre g : list ascii) :
  list_ascii_of_string email = pre ++ "@"%char :: g ->
  ~ In "@"%char pre -> g <> [] -> forallb is_dot g = true ->
  getProviderFromEmail email = Some (string_of_list_ascii g).
Proof.
  intros E Hpre Hne Hg. unfold getProviderFromEmail.
  pose proof (@provider_found pre g Hpre Hne Hg) as F.
  cbv zeta in F. rewrite <- E in F. rewrite F. cbn [cap option_map fst snd].
  do 2 f_equal. rewrite E. unfold slice.
  rewrite length_app. cbn [length].
  replace (length pre + S (length g) - S (length pre))
    with (length g) by lia.
  replace (S (length pre)) with (length (pre ++ ["@"%char]))
    by (rewrite length_app; cbn [length]; lia).
  replace (pre ++ "@"%char :: g) with ((pre ++ ["@"%char]) ++ g)
    by (now rewrite <- app_assoc).
  rewrite skipn_app, Nat.sub_diag, skipn_all. cbn [skipn app].
  apply firstn_all.
Qed.

(** For an address on one line, the provider is everything after the first
    ["@"]; it is ['unknown'] when there is no ["@"] or nothing after it. *)
Theorem getProviderFromEmail_after_first_at (email : string) :
  forallb is_dot (list_ascii_of_string email) = true ->
  getProviderFromEmail email = Some (provider_of email).
Proof.
  intros Hdot. unfold provider_of.
  destruct (after_at (list_ascii_of_string email)) as [[|c g]|] eqn:A.
  - apply after_at_Some in A. destruct A as [pre [E Hpre]].
    unfold getProviderFromEmail, exec_from. cbn [Nat.ltb Nat.leb].
    rewrite search_fails; [reflexivity|].
    intros j. apply provider_run_fails.
    destruct (Nat.lt_ge_cases j (length pre)) as [Hlt|Hge].
    + left. rewrite E, nth_error_app1 by assumption. intros H.
      apply Hpre. eapply nth_error_In. exact H.
    + right. rewrite E, length_app. cbn [length]. lia.
  - apply after_at_Some in A. destruct A as [pre [E Hpre]].
    apply (@getProviderFromEmail_found email pre (c :: g) E Hpre);
      [discriminate|].
    rewrite E, forallb_app in Hdot.
    apply andb_true_iff in Hdot as [_ Hdot]. cbn [forallb] in Hdot.
    now apply andb_true_iff in Hdot as [_ Hdot].
  - apply after_at_None in A.
    unfold getProviderFromEmail, exec_from. cbn [Nat.ltb Nat.leb].
    rewrite search_fails; [reflexivity|].
    intros j. apply provider_run_fails. left. intros H.
    apply A. eapply nth_error_In. exact H.
Qed.

Lemma getProviderFromEmail_after_first_at_witness :
  getProviderFromEmail "abuse@noc@example.net" = Some "noc@example.net".
Proof.
  apply (@getProviderFromEmail_after_first_at "abuse@noc@example.net").
  reflexivity.
Defined.

Lemma forallb_impl (A : Type) (p q : A -> bool) (l : list A) :
  (forall a, p a = true -> q a = true) ->
  forallb p l = true -> forallb q l = true.
Proof.
  intros H. rewrite !forallb_forall. auto.
Qed.

(** The directory a report to a parsed contact is saved under is the
    part of the contact after its ["@"]: a host name of lower-case letters,
    digits, dots and hyphens that ends in a dot and at least two letters,
    hence a single path component, different from ['.'] and ['..'] and
    from the ['unknown'] of an address without provider. *)
Theorem provider_of_parsed_contact (whoisOutput email : string) :
  extractAbuseEmail whoisOutput = Some email ->
  exists loc dom tld,
    list_ascii_of_string email = loc ++ "@"%char :: dom ++ "."%char :: tld
    /\ getProviderFromEmail email
       = Some (string_of_list_ascii (dom ++ "."%char :: tld))
    /\ forallb local_char loc = true
    /\ dom <> [] /\ forallb domain_char dom = true
    /\ 2 <= length tld /\ forallb is_lower tld = true.
Proof.
  intros H. apply contact_parts in H.
  destruct H as [loc [dom [tld [E [N1 [F1 [N2 [F2 [N3 F3]]]]]]]]].
  exists loc, dom, tld. split; [exact E|]. split; [|auto 10].
  apply (@getProviderFromEmail_found email loc (dom ++ "."%char :: tld) E).
  - intros Hin. rewrite forallb_forall in F1. apply F1 in Hin.
    discriminate Hin.
  - destruct dom; discriminate.
  - rewrite forallb_app. cbn [forallb].
    rewrite (forallb_impl domain_char is_dot dom),
      (forallb_impl is_lower is_dot tld); try assumption; try reflexivity;
      intros [[] [] [] [] [] [] [] []]; vm_compute; intros D;
        try discriminate D; reflexivity.
Qed.

Lemma provider_of_parsed_contact_witness :
  exists loc dom tld,
    list_ascii_of_string "noc@example.net"
    = loc ++ "@"%char :: dom ++ "."%char :: tld
    /\ getProviderFromEmail "noc@example.net"
       = Some (string_of_list_ascii (dom ++ "."%char :: tld))
    /\ forallb local_char loc = true
    /\ dom <> [] /\ forallb domain_char dom = true
    /\ 2 <= length tld /\ forallb is_lower tld = true.
Proof.
  apply (@provider_of_parsed_contact "OrgAbuseEmail:  NOC@Example.NET").
  vm_compute. reflexivity.
Defined.

End ProviderProps.

(** ** [main], from standard input to the saved reports *)

Module PipelineProps.
Import Chars JsMap JsMapFacts IpExtractor AbuseLookup EmailGenerator Index.
Import AggregatorProps LookupProps ParserProps ReportProps.
Import RegexFacts LogIndexMore LookupMore BatchOutcomes ReportMore.
Local Open Scope string_scope.
Local Open Scope list_scope.

Lemma NoDup_keys_filter (V : Type) (f : string * V -> bool) (m : JsMap.t V) :
  NoDup (keys m) -> NoDup (keys (filter f m)).
Proof.
  unfold keys. induction m as [|[k v] m IH]; intros Hnd; cbn [filter map];
    [constructor|].
  inversion Hnd as [|? ? Hnotin Hnd']; subst.
  destruct (f (k, v)); cbn [map fst]; [|now apply IH].
  constructor; [|now apply IH].
  intros Hin. apply Hnotin. apply in_map_iff in Hin.
  destruct Hin as [[k' v'] [E Hin]]. apply filter_In in Hin.
  cbn [fst] in *. subst k'. apply in_map_iff. exists (k, v'). tauto.
Qed.

Lemma get_In (V : Type) (m : JsMap.t V) (k : string) (v : V) :
  get m k = Some v -> In (k, v) m.
Proof.
  induction m as [|[k0 v0] m IH]; cbn [get]; [discriminate|].
  destruct (String.eqb_spec k0 k) as [->|Hne].
  - intros [= ->]. now left.
  - intros H. right. now apply IH.
Qed.

Lemma to_query_all (ips : list string) : forall known : string -> bool,
  NoDup ips -> (forall a, In a ips -> known a = false) ->
  to_query known ips = ips.
Proof.
  induction ips as [|a ips IH]; intros known Hnd H; cbn [to_query];
    [reflexivity|].
  inversion Hnd as [|? ? Hnotin Hnd']; subst.
  rewrite (H a) by now left. f_equal. apply IH; [assumption|].
  intros b Hb. rewrite (H b) by now right.
  destruct (String.eqb_spec b a) as [->|_]; [contradiction | reflexivity].
Qed.

Lemma keyed_values (m : JsMap.t LookupRecord) :
  keyed m -> NoDup (keys m) -> map ip (values m) = keys m.
Proof.
  intros Hk Hnd. unfold values, keys. rewrite map_map.
  apply map_ext_in. intros [k r] Hin. cbn [fst snd].
  apply Hk. now apply In_get.
Qed.

Lemma group_key_resolved (r : LookupRecord) (k : string) :
  group_key r = k -> k <> UNKNOWN -> abuseEmail r = Some k.
Proof.
  unfold group_key. destruct (abuseEmail r) as [e|]; [|congruence].
  destruct (String.eqb e ""); congruence.
Qed.

(** When the unique addresses of the log lines are what the threshold
    left of the log index. *)
Lemma uniqueIPs_spec (threshold : number) (lines : list string) :
  let ips := uniqueIPs threshold lines in
  NoDup ips
  /\ forall a, In a ips <->
       exists logs, get (buildIPLogMap lines) a = Some logs
                    /\ below (length logs) threshold = false.
Proof.
  cbv zeta. unfold uniqueIPs.
  rewrite filterByThreshold_filter by apply buildIPLogMap_NoDup.
  split; [apply NoDup_keys_filter, buildIPLogMap_NoDup|].
  intros a. unfold keys. rewrite in_map_iff. split.
  - intros [[k logs] [E Hin]]. cbn [fst] in E. subst k.
    apply filter_In in Hin. destruct Hin as [Hin Hf]. cbn [snd] in Hf.
    exists logs. split.
    + apply In_get; [apply buildIPLogMap_NoDup | assumption].
    + now apply negb_true_iff in Hf.
  - intros [logs [G B]]. exists (a, logs). split; [reflexivity|].
    apply filter_In. split; [now apply get_In|].
    cbn [snd]. now rewrite B.
Qed.

(** The query for [a] stands in the trace, the child process answered it
    in time with a standard output, and [contact] is the abuse contact
    parsed from that output. *)
Definition parsed_from_answer (W : World) (tr : list Event) (a : string)
    (contact : string) : Prop :=
  exists before after issued completed stdout duration,
    tr = before ++ EvExec ("whois " ++ a)%string issued completed :: after
    /\ child_process W before ("whois " ++ a)%string = (inl stdout, duration)
    /\ (Z.of_N duration <= 30000)%Z
    /\ extractAbuseEmail stdout = Some contact.

(** The query for the address of [r] stands in the trace and [r] is the
    record it left. *)
Definition left_by_query (W : World) (tr : list Event) (r : LookupRecord)
  : Prop :=
  exists before after issued completed,
    tr = before ++ EvExec ("whois " ++ ip r)%string issued completed :: after
    /\ r = query_record W before (ip r).

(** The contents written to files, in order. *)
Definition written (log : list FsCall) : list string :=
  flat_map (fun call => match call with
                        | WriteFile _ content => [content]
                        | Mkdir _ => []
                        end) log.

Lemma ip_query_record (W : World) (before : list Event) (a : string) :
  ip (query_record W before a) = a.
Proof.
  unfold query_record.
  destruct (child_process W before ("whois " ++ a)%string) as [answer d].
  destruct (30000 <? Z.of_N d)%Z; [reflexivity|].
  destruct answer; reflexivity.
Qed.

Lemma query_record_contact (W : World) (before : list Event) (a : string)
    (contact : string) :
  abuseEmail (query_record W before a) = Some contact ->
  exists stdout duration,
    child_process W before ("whois " ++ a)%string = (inl stdout, duration)
    /\ (Z.of_N duration <= 30000)%Z
    /\ extractAbuseEmail stdout = Some contact.
Proof.
  unfold query_record.
  destruct (child_process W before ("whois " ++ a)%string) as [answer d].
  destruct (Z.ltb_spec 30000 (Z.of_N d)); [discriminate|].
  destruct answer as [stdout|message]; [|discriminate].
  cbn [abuseEmail success_record]. intros E. exists stdout, d. auto.
Qed.

Lemma query_record_unresolved (W : World) (before : list Event)
    (a : string) :
  group_key (query_record W before a) = UNKNOWN ->
  abuseEmail (query_record W before a) = None.
Proof.
  unfold group_key.
  destruct (abuseEmail (query_record W before a)) as [e|] eqn:E;
    [|reflexivity].
  apply query_record_contact in E. destruct E as [o [d [_ [_ E]]]].
  apply extractAbuseEmail_has_dot in E.
  destruct (String.eqb_spec e "") as [->|_]; [destruct E|].
  intros ->. cbn in E. intuition discriminate.
Qed.

Lemma provider_defined (email : string) :
  exists provider, getProviderFromEmail email = Some provider.
Proof.
  unfold getProviderFromEmail.
  destruct (Regex.exec_from _ provider_pattern 0) as [[j y]|] eqn:E;
    [|eauto].
  apply exec_from_sound in E; [|reflexivity]. destruct E as [_ [_ L]].
  unfold provider_pattern in L. cbn [Regex.lang] in L.
  destruct L as [z1 [_ [z2 [[z [_ ->]] [_ ->]]]]].
  cbn [Regex.cap Regex.capture option_map]. eauto.
Qed.

Section Saving.
Variable H : Host.
Variable path_join : string -> string -> string.
Variable toISOString : Z -> string.

Lemma fs_await_shape (log : list FsCall) (call : FsCall) (st : State) :
  exists st', trace st' = trace st
    /\ (fs_await H log call st = (Returned (log ++ [call]), st')
        /\ fst (file_system H log call) = None
        \/ exists message,
             fs_await H log call st = (Thrown message, st')
             /\ fst (file_system H log call) = Some message).
Proof.
  unfold fs_await.
  destruct (file_system H log call) as [[message|] d]; eexists;
    (split; [|eauto]); reflexivity.
Qed.

Lemma saveEmailsToFiles_from_shape (outputDir : option string) :
  forall emails savedCount log st,
  exists out st',
    saveEmailsToFiles_from H path_join toISOString emails outputDir
      savedCount log st = (out, st')
    /\ trace st' = trace st
    /\ match out with
       | Returned (savedCount', log') =>
           total savedCount' = (total savedCount + length emails)%nat
           /\ written log'
              = written log ++ map formatEmailForOutput emails
       | Thrown _ =>
           outputDir = None
           \/ exists log0 call message,
                fst (file_system H log0 call) = Some message
       end.
Proof.
  induction emails as [|email rest IH]; intros savedCount log st.
  - exists (Returned (savedCount, log)), st. cbn.
    rewrite Nat.add_0_r, app_nil_r. auto.
  - cbn [saveEmailsToFiles_from].
    destruct (provider_defined (to email)) as [provider Ep]. rewrite Ep.
    destruct outputDir as [dir|].
    2:{ eexists; eexists. split; [reflexivity|]. split; [reflexivity|].
        now left. }
    unfold join_paths at 1, bind at 1, ret at 1.
    destruct (fs_await_shape log (Mkdir (path_join dir provider)) st)
      as [st1 [T1 [[E1 _]|[m [E1 F1]]]]].
    2:{ unfold bind at 1. rewrite E1. eexists; eexists.
        split; [reflexivity|]. split; [assumption|]. right. eauto. }
    unfold bind at 1. rewrite E1.
    unfold bind at 1, Date_now, gets.
    unfold join_paths, bind at 1, ret at 1. unfold bind at 1.
    match goal with
    | |- context [fs_await H ?l ?c st1] =>
        destruct (fs_await_shape l c st1)
          as [st2 [T2 [[E2 _]|[m [E2 F2]]]]]
    end.
    2:{ rewrite E2. eexists; eexists.
        split; [reflexivity|]. split; [congruence|]. right. eauto. }
    rewrite E2.
    match goal with
    | |- context [saveEmailsToFiles_from H path_join toISOString rest
                    (Some dir) ?s ?l st2] =>
        destruct (IH s l st2) as [out [st' [E' [T' R']]]]
    end.
    exists out, st'. split; [exact E'|]. split; [congruence|].
    destruct out as [[savedCount' log']|message]; [|exact R'].
    destruct R' as [R1 R2]. cbn [total] in R1. split.
    + rewrite R1. cbn [length]. lia.
    + rewrite R2. unfold written. rewrite !flat_map_app. cbn [flat_map].
      rewrite !app_nil_r. cbn [map app]. now rewrite <- app_assoc.
Qed.
End Saving.

Section Pipeline.
Variable W : World.
Variable H : Host.
Variable path_join : string -> string -> string.
Variable toISOString : Z -> string.
Variables now_utc now_iso : string.

(** The lookups of a fresh process for distinct addresses, and the reports
    made of their results. *)
Lemma lookups_account (ipLogMap : JsMap.t (list string)) (gen : Options)
    (addresses : list string) (now : Z) :
  (0 <= now)%Z -> NoDup addresses ->
  exists results st1,
    lookupIPs W addresses (Some tt) (initial now) = (Returned results, st1)
    /\ commands (trace st1)
       = map (fun a => ("whois " ++ a)%string) addresses
    /\ paced 0 now (trace st1)
    /\ let emails :=
         generateAllEmails now_utc now_iso (groupByAbuseEmail results)
           ipLogMap gen in
       let unknownIPs :=
         or_default (get (groupByAbuseEmail results) "unknown@unknown") [] in
       Permutation (concat (map ips emails) ++ map ip unknownIPs) addresses
       /\ (forall e, In e emails ->
             ips e <> []
             /\ forall a, In a (ips e) ->
                  parsed_from_answer W (trace st1) a (to e))
       /\ NoDup (map to emails)
       /\ forall r, In r unknownIPs ->
            abuseEmail r = None /\ left_by_query W (trace st1) r.
Proof.
  intros Hnow Hnd.
  assert (Hwf : (lastWhoisQuery (initial now) <= clock (initial now))%Z)
    by exact Hnow.
  destruct (@lookupIPs_from_general W (Some tt) (length addresses) addresses
              0%nat empty (initial now) Hwf)
    as [results [st1 [new [E [T [_ [_ [Kr [_ [_ [_ [_ [_ P]]]]]]]]]]]]].
  destruct (@lookupIPs_from_settled W (Some tt) (length addresses) addresses
              0%nat empty (initial now))
    as [results2 [st2 [new2 [E2 [T2 [Q [_ [_ All]]]]]]]].
  change (lookupIPs_from W (Some tt) (length addresses) 0 addresses empty)
    with (lookupIPs W addresses (Some tt)) in E, E2.
  rewrite E in E2. injection E2 as <- <-.
  assert (new2 = new)
    by (apply (app_inv_head (trace (initial now))); congruence).
  subst new2. clear T2. cbn [trace initial app] in T.
  assert (Hkeys : keys results = addresses).
  { rewrite Kr. cbn [keys empty map app].
    apply to_query_all; [assumption | reflexivity]. }
  assert (Hrec : forall r, In r (values results) ->
            In (ip r) addresses /\ left_by_query W (trace st1) r).
  { intros r Hr. unfold values in Hr. apply in_map_iff in Hr.
    destruct Hr as [[k r'] [Er Hr]]. cbn [snd] in Er. subst r'.
    assert (G : get results k = Some r).
    { apply In_get; [now rewrite Hkeys | assumption]. }
    assert (Hk : In k addresses)
      by (rewrite <- Hkeys; eapply get_In_keys; eauto).
    destruct (All k Hk) as [r' [G' [_ [Old|[_ R]]]]]; [discriminate Old|].
    assert (r' = r) by congruence. subst r'.
    destruct R as [before [after [issued [completed [N R]]]]].
    cbn [trace initial app] in R.
    assert (Ek : ip r = k) by (rewrite R; apply ip_query_record).
    rewrite Ek. split; [assumption|].
    exists before, after, issued, completed. rewrite Ek, T. auto. }
  assert (Kd : keyed results).
  { intros k r G. apply get_In in G.
    assert (Hr : In r (values results)).
    { unfold values. apply in_map_iff. exists (k, r). auto. }
    destruct (All k) as [r' [G' [_ [Old|[_ R]]]]].
    - rewrite <- Hkeys. unfold keys. apply in_map_iff. exists (k, r). auto.
    - discriminate Old.
    - apply In_get in G; [|now rewrite Hkeys].
      assert (r' = r) by congruence. subst r'.
      destruct R as [before [after [issued [completed [_ R]]]]].
      rewrite R. apply ip_query_record. }
  assert (Hips : map ip (values results) = addresses).
  { rewrite <- Hkeys. apply keyed_values; [assumption|].
    now rewrite Hkeys. }
  pose proof (reports_recipients now_utc now_iso ipLogMap gen results)
    as Hrcp.
  pose proof (reports_members now_utc now_iso ipLogMap gen results)
    as Hemails.
  pose proof (reports_permutation now_utc now_iso ipLogMap gen results)
    as Hperm.
  assert (Hun : or_default (get (groupByAbuseEmail results)
                              "unknown@unknown") []
                = with_contact UNKNOWN (values results)).
  { rewrite get_group. fold (with_contact "unknown@unknown" (values results)).
    change "unknown@unknown" with UNKNOWN.
    now destruct (with_contact UNKNOWN (values results)). }
  exists results, st1. split; [exact E|].
  split.
  { rewrite T, Q. f_equal. apply to_query_all; [assumption | reflexivity]. }
  split.
  { rewrite T. specialize (P [] I). now rewrite app_nil_r in P. }
  cbv zeta. split; [rewrite Hun, <- Hips; exact Hperm|].
  split.
  { intros e He. destruct (Hemails e He) as [_ [Ei Hnil]].
    split; [assumption|].
    assert (Hk : In (to e) (filter resolved (contacts (values results)))).
    { rewrite <- Hrcp. now apply in_map. }
    apply filter_In in Hk. destruct Hk as [_ Hres].
    intros a Ha. rewrite Ei in Ha. apply in_map_iff in Ha.
    destruct Ha as [r [<- Hr]]. apply filter_In in Hr.
    destruct Hr as [Hr Hkey]. apply String.eqb_eq in Hkey.
    assert (Ha : abuseEmail r = Some (to e)).
    { apply group_key_resolved; [assumption|].
      unfold resolved in Hres. intros Eu. rewrite Eu in Hres.
      discriminate Hres. }
    destruct (Hrec r Hr) as [_ [before [after [issued [completed [N R]]]]]].
    rewrite R in Ha. apply query_record_contact in Ha.
    destruct Ha as [stdout [d [C [D X]]]].
    exists before, after, issued, completed, stdout, d. auto. }
  split.
  { rewrite Hrcp. apply NoDup_filter.
    rewrite <- keys_groupByAbuseEmail. apply NoDup_keys_groupByAbuseEmail. }
  intros r Hr. rewrite Hun in Hr. apply filter_In in Hr.
  destruct Hr as [Hr Hkey]. apply String.eqb_eq in Hkey.
  destruct (Hrec r Hr) as [_ L]. split; [|exact L].
  destruct L as [before [after [issued [completed [_ R]]]]].
  rewrite R in Hkey |- *. now apply query_record_unresolved.
Qed.

Lemma main_body_lines (options : CliOptions) (input : Stdin)
    (lines : list string) (st : State) :
  help options = false ->
  readStdin input st = (Returned lines, st) ->
  main_body W H path_join toISOString now_utc now_iso options input st
  = match lines with
    | [] => (Returned (Exit 1), st)
    | _ =>
        match uniqueIPs (threshold options) lines with
        | [] => (Returned (Exit 0), st)
        | _ =>
            bind (lookupIPs W (uniqueIPs (threshold options) lines)
                    (Some tt))
              (fun whoisResults =>
                 bind (saveEmailsToFiles H path_join toISOString
                         (generateAllEmails now_utc now_iso
                            (groupByAbuseEmail whoisResults)
                            (filterByThreshold (threshold options)
                               (buildIPLogMap lines))
                            (generation options))
                         (outputDir options))
                   (fun saved =>
                      ret (Completed
                             (generateAllEmails now_utc now_iso
                                (groupByAbuseEmail whoisResults)
                                (filterByThreshold (threshold options)
                                   (buildIPLogMap lines))
                                (generation options))
                             (or_default
                                (get (groupByAbuseEmail whoisResults)
                                   "unknown@unknown") [])
                             (fst saved) (snd saved)))) st
        end
    end.
Proof.
  intros Hh Hr. unfold main_body. rewrite Hh. unfold bind at 1.
  rewrite Hr. destruct lines as [|line0 lines']; [reflexivity|].
  unfold uniqueIPs.
  destruct (keys (filterByThreshold (threshold options)
                    (buildIPLogMap (line0 :: lines')))); reflexivity.
Qed.

End Pipeline.

(** A host whose file system accepts every call at once. *)
Definition sample_host : Host :=
  {| file_system := fun _ _ => (None, 1%N) |}.

Definition sample_options : CliOptions :=
  {| help := false; outputDir := Some "emails"; threshold := Num 2;
     generation := no_options |}.

Definition sample_input : Stdin :=
  {| isTTY := false;
     stream := inl ["Failed password from 203.0.113.5 port 22";
                    "Failed password from 203.0.113.5 port 23";
                    "Accepted key from 198.51.100.10"] |}.

Definition sample_join (a b : string) : string := (a ++ "/" ++ b)%string.

Definition sample_iso (now : Z) : string := "2023-11-14T22:13:20.000Z".


End PipelineProps.
